(** * One node of the multibody tree (RigidBodyNode.cpp) and the gesdd
      wrappers of the LAPACK interface

    A shallow embedding of the per-node mechanics of
    [src/MultibodyComputation/IVMRigidBodies/RigidBodyNode.cpp] and of the
    complex [gesdd] wrappers of the LAPACK dispatch layer.

    Numbers.  The C++ code computes in [double].  Here every [double] is a
    real number of [R] and every operation is exact: the development checks
    the algebra of the recursions, not their rounding.  The one statement
    about rounding, the tolerance of the quaternion constraints, is checked
    on binary64 numbers, in [Binary64].  The counter of state slots, an
    [int] of the source, is a natural number: the model covers counters
    from 0 that stay at most [INT_MAX].

    Vector and matrix classes.  The headers of the vector and matrix
    classes (cdsVec3, cdsMat33, fixedVector, subVector, matrixTools,
    phiMatrix) are not part of src/.  Their operators are the usual ones
    of linear algebra, and a matrix built from an array takes it row by
    row, the way the source lays its initialisers out.

    Fixed-size data.  [CDSVec3], [CDSMat33], [CDSVec6] and [CDSMat66] are
    records (a 6-vector is its angular and linear halves, a 6x6 matrix its
    four 3x3 blocks, as [blockVec] and [blockMat22] assemble them).  What
    depends on the template parameter [dof] is a list: a [FixedVector dof]
    is a [list R], the [dof]x6 matrix [H] is the list of its rows, the
    6x[dof] matrix [G] is the list of its columns and the [dof]x[dof]
    matrix [DI] is the list of its rows. *)

From Stdlib Require Import Floats.PrimFloat Floats.FloatOps Floats.SpecFloat.
From Stdlib Require Import QArith.
From Stdlib Require Import String Ascii.
From Stdlib Require Import Reals Lra List ZArith Lia Bool.
From Stdlib Require Import ClassicalDescription IndefiniteDescription.
Import ListNotations.

Open Scope R_scope.

(* ================================================================== *)
(** ** Spatial algebra primitives *)
(* ================================================================== *)

Record CDSVec3 := mkVec3 { vx : R; vy : R; vz : R }.

(** Row-major 3x3 matrix, in the order the source writes its array
    initialisers. *)
Record CDSMat33 := mkMat33 {
  m00 : R; m01 : R; m02 : R;
  m10 : R; m11 : R; m12 : R;
  m20 : R; m21 : R; m22 : R }.

Definition vec3_0 : CDSVec3 := mkVec3 0 0 0.
Definition zero33 : CDSMat33 := mkMat33 0 0 0 0 0 0 0 0 0.

(** [makeIdentity33]: a zero matrix with its diagonal set to 1. *)
Definition makeIdentity33 : CDSMat33 := mkMat33 1 0 0 0 1 0 0 0 1.
Definition ident33 : CDSMat33 := makeIdentity33.

Definition vadd3 (a b : CDSVec3) : CDSVec3 :=
  mkVec3 (vx a + vx b) (vy a + vy b) (vz a + vz b).
Definition vsub3 (a b : CDSVec3) : CDSVec3 :=
  mkVec3 (vx a - vx b) (vy a - vy b) (vz a - vz b).
Definition vneg3 (a : CDSVec3) : CDSVec3 :=
  mkVec3 (- vx a) (- vy a) (- vz a).
Definition vscale3 (s : R) (a : CDSVec3) : CDSVec3 :=
  mkVec3 (s * vx a) (s * vy a) (s * vz a).
Definition dot3 (a b : CDSVec3) : R :=
  vx a * vx b + vy a * vy b + vz a * vz b.
Definition cross (a b : CDSVec3) : CDSVec3 :=
  mkVec3 (vy a * vz b - vz a * vy b)
         (vz a * vx b - vx a * vz b)
         (vx a * vy b - vy a * vx b).

(** Modelled from the spec: [crossMat] is declared in a header that is not
    part of src/; the spec asks for the antisymmetric 3x3 matrix of a
    vector, so that [crossMat v * w] is [cross v w]. *)
Definition crossMat (v : CDSVec3) : CDSMat33 :=
  mkMat33 0        (- vz v) (vy v)
          (vz v)   0        (- vx v)
          (- vy v) (vx v)   0.

Definition madd33 (a b : CDSMat33) : CDSMat33 :=
  mkMat33 (m00 a + m00 b) (m01 a + m01 b) (m02 a + m02 b)
          (m10 a + m10 b) (m11 a + m11 b) (m12 a + m12 b)
          (m20 a + m20 b) (m21 a + m21 b) (m22 a + m22 b).
Definition msub33 (a b : CDSMat33) : CDSMat33 :=
  mkMat33 (m00 a - m00 b) (m01 a - m01 b) (m02 a - m02 b)
          (m10 a - m10 b) (m11 a - m11 b) (m12 a - m12 b)
          (m20 a - m20 b) (m21 a - m21 b) (m22 a - m22 b).
Definition mneg33 (a : CDSMat33) : CDSMat33 :=
  mkMat33 (- m00 a) (- m01 a) (- m02 a)
          (- m10 a) (- m11 a) (- m12 a)
          (- m20 a) (- m21 a) (- m22 a).
Definition mscale33 (s : R) (a : CDSMat33) : CDSMat33 :=
  mkMat33 (s * m00 a) (s * m01 a) (s * m02 a)
          (s * m10 a) (s * m11 a) (s * m12 a)
          (s * m20 a) (s * m21 a) (s * m22 a).
Definition mmul33 (a b : CDSMat33) : CDSMat33 :=
  mkMat33
    (m00 a * m00 b + m01 a * m10 b + m02 a * m20 b)
    (m00 a * m01 b + m01 a * m11 b + m02 a * m21 b)
    (m00 a * m02 b + m01 a * m12 b + m02 a * m22 b)
    (m10 a * m00 b + m11 a * m10 b + m12 a * m20 b)
    (m10 a * m01 b + m11 a * m11 b + m12 a * m21 b)
    (m10 a * m02 b + m11 a * m12 b + m12 a * m22 b)
    (m20 a * m00 b + m21 a * m10 b + m22 a * m20 b)
    (m20 a * m01 b + m21 a * m11 b + m22 a * m21 b)
    (m20 a * m02 b + m21 a * m12 b + m22 a * m22 b).
Definition transpose33 (a : CDSMat33) : CDSMat33 :=
  mkMat33 (m00 a) (m10 a) (m20 a)
          (m01 a) (m11 a) (m21 a)
          (m02 a) (m12 a) (m22 a).
Definition mulMV33 (a : CDSMat33) (v : CDSVec3) : CDSVec3 :=
  mkVec3 (m00 a * vx v + m01 a * vy v + m02 a * vz v)
         (m10 a * vx v + m11 a * vy v + m12 a * vz v)
         (m20 a * vx v + m21 a * vy v + m22 a * vz v).

(** Modelled from the spec: [orthoTransform] of matrixTools is not part of
    src/; the spec defines [orthoTransform(M, R)] as [R * M * transpose R]. *)
Definition orthoTransform33 (M Rm : CDSMat33) : CDSMat33 :=
  mmul33 (mmul33 Rm M) (transpose33 Rm).

(** *** 6-vectors and 6x6 matrices, by blocks *)

Record CDSVec6 := blockVec { ang : CDSVec3; lin : CDSVec3 }.

Record CDSMat66 := blockMat22 {
  b11 : CDSMat33; b12 : CDSMat33;
  b21 : CDSMat33; b22 : CDSMat33 }.

Definition vec6_0 : CDSVec6 := blockVec vec3_0 vec3_0.
Definition zero66 : CDSMat66 := blockMat22 zero33 zero33 zero33 zero33.
Definition ident66 : CDSMat66 := blockMat22 ident33 zero33 zero33 ident33.

Definition vadd6 (a b : CDSVec6) : CDSVec6 :=
  blockVec (vadd3 (ang a) (ang b)) (vadd3 (lin a) (lin b)).
Definition vsub6 (a b : CDSVec6) : CDSVec6 :=
  blockVec (vsub3 (ang a) (ang b)) (vsub3 (lin a) (lin b)).
Definition vneg6 (a : CDSVec6) : CDSVec6 :=
  blockVec (vneg3 (ang a)) (vneg3 (lin a)).
Definition vscale6 (s : R) (a : CDSVec6) : CDSVec6 :=
  blockVec (vscale3 s (ang a)) (vscale3 s (lin a)).
Definition dot6 (a b : CDSVec6) : R :=
  dot3 (ang a) (ang b) + dot3 (lin a) (lin b).

Definition madd66 (a b : CDSMat66) : CDSMat66 :=
  blockMat22 (madd33 (b11 a) (b11 b)) (madd33 (b12 a) (b12 b))
             (madd33 (b21 a) (b21 b)) (madd33 (b22 a) (b22 b)).
Definition msub66 (a b : CDSMat66) : CDSMat66 :=
  blockMat22 (msub33 (b11 a) (b11 b)) (msub33 (b12 a) (b12 b))
             (msub33 (b21 a) (b21 b)) (msub33 (b22 a) (b22 b)).
Definition mmul66 (a b : CDSMat66) : CDSMat66 :=
  blockMat22
    (madd33 (mmul33 (b11 a) (b11 b)) (mmul33 (b12 a) (b21 b)))
    (madd33 (mmul33 (b11 a) (b12 b)) (mmul33 (b12 a) (b22 b)))
    (madd33 (mmul33 (b21 a) (b11 b)) (mmul33 (b22 a) (b21 b)))
    (madd33 (mmul33 (b21 a) (b12 b)) (mmul33 (b22 a) (b22 b))).
Definition transpose66 (a : CDSMat66) : CDSMat66 :=
  blockMat22 (transpose33 (b11 a)) (transpose33 (b21 a))
             (transpose33 (b12 a)) (transpose33 (b22 a)).
Definition mulMV66 (a : CDSMat66) (v : CDSVec6) : CDSVec6 :=
  blockVec (vadd3 (mulMV33 (b11 a) (ang v)) (mulMV33 (b12 a) (lin v)))
           (vadd3 (mulMV33 (b21 a) (ang v)) (mulMV33 (b22 a) (lin v))).

(** Entry [i], [j] of a 3x3 and of a 6x6 matrix, to relate the block
    operations to the usual index formulas. *)
Definition get33 (a : CDSMat33) (i j : nat) : R :=
  match i, j with
  | 0%nat, 0%nat => m00 a | 0%nat, 1%nat => m01 a | 0%nat, 2%nat => m02 a
  | 1%nat, 0%nat => m10 a | 1%nat, 1%nat => m11 a | 1%nat, 2%nat => m12 a
  | 2%nat, 0%nat => m20 a | 2%nat, 1%nat => m21 a | 2%nat, 2%nat => m22 a
  | _, _ => 0
  end.
Definition get66 (a : CDSMat66) (i j : nat) : R :=
  match (i <? 3)%nat, (j <? 3)%nat with
  | true, true => get33 (b11 a) i j
  | true, false => get33 (b12 a) i (j - 3)
  | false, true => get33 (b21 a) (i - 3) j
  | false, false => get33 (b22 a) (i - 3) (j - 3)
  end.

(** *** The shift operator *)

(** Modelled from the spec: phiMatrix.h is not part of src/.  The spec
    gives the shift operator of an offset [l]: [phi * F] adds [l x f] to
    the moment of a spatial force, [transpose(phi) * V] adds [w x l] to the
    linear part of a spatial velocity; as a 6x6 matrix [phi] is
    [[I, crossMat l], [0, I]]. *)
Record PhiMatrix := mkPhi { phi_l : CDSVec3 }.

Definition phi_mul (phi : PhiMatrix) (v : CDSVec6) : CDSVec6 :=
  blockVec (vadd3 (ang v) (cross (phi_l phi) (lin v))) (lin v).
Definition phiT_mul (phi : PhiMatrix) (v : CDSVec6) : CDSVec6 :=
  blockVec (ang v) (vadd3 (lin v) (cross (ang v) (phi_l phi))).
Definition phi66 (phi : PhiMatrix) : CDSMat66 :=
  blockMat22 ident33 (crossMat (phi_l phi)) zero33 ident33.
(** [M * transpose(phi)] for a 6x6 matrix [M], as [calcP] needs it for
    [psiT]. *)
Definition mul_phiT (M : CDSMat66) (phi : PhiMatrix) : CDSMat66 :=
  mmul66 M (transpose66 (phi66 phi)).

(* ================================================================== *)
(** ** Quantities whose size is the template parameter [dof] *)
(* ================================================================== *)

Definition FixedVector := list R.

Fixpoint zipWith {A B C : Type} (f : A -> B -> C) (l : list A) (m : list B)
  : list C :=
  match l, m with
  | x :: l', y :: m' => f x y :: zipWith f l' m'
  | _, _ => []
  end.

Definition vaddN (u v : FixedVector) : FixedVector := zipWith Rplus u v.
Definition vsubN (u v : FixedVector) : FixedVector := zipWith Rminus u v.
Definition vscaleN (s : R) (u : FixedVector) : FixedVector := map (Rmult s) u.
Definition sumN (u : list R) : R := fold_right Rplus 0 u.
Definition dotN (u v : FixedVector) : R := sumN (zipWith Rmult u v).
Definition zeroN (n : nat) : FixedVector := repeat 0 n.

(** A 3-vector read out of / written as a [dof]-sized vector. *)
Definition vec3_of_list (l : list R) : CDSVec3 :=
  mkVec3 (nth 0 l 0) (nth 1 l 0) (nth 2 l 0).
Definition list_of_vec3 (v : CDSVec3) : list R := [vx v; vy v; vz v].

Record CDSVec4 := mkVec4 { q0 : R; q1 : R; q2 : R; q3 : R }.
Definition vec4_of_list (l : list R) : CDSVec4 :=
  mkVec4 (nth 0 l 0) (nth 1 l 0) (nth 2 l 0) (nth 3 l 0).
Definition list_of_vec4 (v : CDSVec4) : list R := [q0 v; q1 v; q2 v; q3 v].
Definition dot4 (u v : CDSVec4) : R :=
  q0 u * q0 v + q1 u * q1 v + q2 u * q2 v + q3 u * q3 v.
Definition norm4 (u : CDSVec4) : R := sqrt (dot4 u u).
Definition vdiv4 (u : CDSVec4) (s : R) : CDSVec4 :=
  mkVec4 (q0 u / s) (q1 u / s) (q2 u / s) (q3 u / s).
Definition vscale4 (s : R) (u : CDSVec4) : CDSVec4 :=
  mkVec4 (s * q0 u) (s * q1 u) (s * q2 u) (s * q3 u).
Definition vsub4 (u v : CDSVec4) : CDSVec4 :=
  mkVec4 (q0 u - q0 v) (q1 u - q1 v) (q2 u - q2 v) (q3 u - q3 v).
Definition vadd4 (u v : CDSVec4) : CDSVec4 :=
  mkVec4 (q0 u + q0 v) (q1 u + q1 v) (q2 u + q2 v) (q3 u + q3 v).

(** The three rows of a 3x3 matrix. *)
Definition rows33 (m : CDSMat33) : list CDSVec3 :=
  [ mkVec3 (m00 m) (m01 m) (m02 m);
    mkVec3 (m10 m) (m11 m) (m12 m);
    mkVec3 (m20 m) (m21 m) (m22 m) ].

(** [H * v]: a [dof]x6 matrix, given by its rows, times a 6-vector. *)
Definition mulHv (H : list CDSVec6) (v : CDSVec6) : FixedVector :=
  map (fun h => dot6 h v) H.

(** The combination [sum_i c_i * rows_i].  It is [transpose(H) * c] for a
    [dof]x6 matrix given by its rows, and [G * c] for a 6x[dof] matrix
    given by its columns. *)
Fixpoint lincomb (rows : list CDSVec6) (c : FixedVector) : CDSVec6 :=
  match rows, c with
  | h :: rows', x :: c' => vadd6 (vscale6 x h) (lincomb rows' c')
  | _, _ => vec6_0
  end.

Definition mulHTv (H : list CDSVec6) (c : FixedVector) : CDSVec6 :=
  lincomb H c.
Definition mulGv (G : list CDSVec6) (c : FixedVector) : CDSVec6 :=
  lincomb G c.
(** [transpose(G) * v] for a 6x[dof] matrix given by its columns. *)
Definition mulGTv (G : list CDSVec6) (v : CDSVec6) : FixedVector :=
  map (fun g => dot6 g v) G.

(** Square [dof]x[dof] matrices, by rows. *)
Definition FixedMatrixNN := list (list R).

Definition colN (j : nat) (A : FixedMatrixNN) : list R :=
  map (fun row => nth j row 0) A.
Definition mulNv (A : FixedMatrixNN) (v : FixedVector) : FixedVector :=
  map (fun row => dotN row v) A.
Definition mmulN (A B : FixedMatrixNN) : FixedMatrixNN :=
  map (fun row => map (fun j => dotN row (colN j B)) (seq 0 (length B))) A.
Definition identN (n : nat) : FixedMatrixNN :=
  map (fun i => map (fun j => if Nat.eqb i j then 1 else 0) (seq 0 n))
      (seq 0 n).
Definition squareN (n : nat) (A : FixedMatrixNN) : Prop :=
  length A = n /\ Forall (fun row => length row = n) A.

(** [orthoTransform(P, H)] for a [dof]x6 matrix [H]: the [dof]x[dof]
    matrix [H * P * transpose H]. *)
Definition orthoTransformPH (P : CDSMat66) (H : list CDSVec6)
  : FixedMatrixNN :=
  map (fun hi => map (fun hj => dot6 hi (mulMV66 P hj)) H) H.

(** [P * transpose(H) * DI], by columns: column [j] is
    [sum_k DI(k,j) * (P * row_k H)]. *)
Definition mulP_HT_DI (P : CDSMat66) (H : list CDSVec6) (DI : FixedMatrixNN)
  : list CDSVec6 :=
  map (fun j => lincomb (map (mulMV66 P) H) (colN j DI))
      (seq 0 (length H)).

(** Outer products, for the 6x6 matrix [G * H = sum_j col_j G * row_j H]. *)
Definition outer3 (u v : CDSVec3) : CDSMat33 :=
  mkMat33 (vx u * vx v) (vx u * vy v) (vx u * vz v)
          (vy u * vx v) (vy u * vy v) (vy u * vz v)
          (vz u * vx v) (vz u * vy v) (vz u * vz v).
Definition outer6 (u v : CDSVec6) : CDSMat66 :=
  blockMat22 (outer3 (ang u) (ang v)) (outer3 (ang u) (lin v))
             (outer3 (lin u) (ang v)) (outer3 (lin u) (lin v)).
Fixpoint mulGH (G H : list CDSVec6) : CDSMat66 :=
  match G, H with
  | g :: G', h :: H' => madd66 (outer6 g h) (mulGH G' H')
  | _, _ => zero66
  end.

(** Modelled from the spec: [MatrixTools::inverse] is not part of src/.
    The spec says that [DI] is the inverse of [D] and that a singular
    (not invertible) [D] is a failure: [inverse D] is [Some] inverse of
    [D] when there is one and [None], the [SingularError] of the source,
    when there is none. *)
Definition isInverse (D DI : FixedMatrixNN) : Prop :=
  squareN (length D) DI /\
  mmulN D DI = identN (length D) /\ mmulN DI D = identN (length D).
Definition invertible (D : FixedMatrixNN) : Prop :=
  exists DI, isInverse D DI.
Definition inverse (D : FixedMatrixNN) : option FixedMatrixNN :=
  match excluded_middle_informative (invertible D) with
  | left pf => Some (proj1_sig (constructive_indefinite_description _ pf))
  | right _ => None
  end.

(** *** Slices of the tree-wide vectors *)

(** [RVec] is the caller's vector of all coordinates.  [SubVector(v, off,
    n)] is the slice of [n] entries at [off]; positions count from the
    first entry of the vector.  The slice is read and written inside the
    vector ([off + n <= length v]); the range check of subVector.h is not
    part of src/. *)
Definition RVec := list R.
Definition subVec (v : RVec) (off n : nat) : list R :=
  firstn n (skipn off v).
Definition setSubVec (v : RVec) (off : nat) (vals : list R) : RVec :=
  firstn off v ++ vals ++ skipn (off + length vals) v.
(* ================================================================== *)
(** ** Node state *)
(* ================================================================== *)

(** The classes derived from [RigidBodyNode]; [dofOf] is the template
    argument each one passes to [RigidBodyNodeSpec]. *)
Inductive NodeClass :=
| RBGroundBody
| RBNodeTranslate
| RBNodeTorsion
| RBNodeRotate3
| RBNodeTranslateRotate3
| RBNodeRotate2
| RBNodeTranslateRotate2.

Definition dofOf (c : NodeClass) : nat :=
  match c with
  | RBGroundBody => 0
  | RBNodeTranslate => 3
  | RBNodeTorsion => 1
  | RBNodeRotate3 => 3
  | RBNodeTranslateRotate3 => 6
  | RBNodeRotate2 => 2
  | RBNodeTranslateRotate2 => 5
  end.

Definition NodeClass_eqb (c d : NodeClass) : bool :=
  match c, d with
  | RBGroundBody, RBGroundBody
  | RBNodeTranslate, RBNodeTranslate
  | RBNodeTorsion, RBNodeTorsion
  | RBNodeRotate3, RBNodeRotate3
  | RBNodeTranslateRotate3, RBNodeTranslateRotate3
  | RBNodeRotate2, RBNodeRotate2
  | RBNodeTranslateRotate2, RBNodeTranslateRotate2 => true
  | _, _ => false
  end.

Record RBMassProperties := mkMassProps {
  getMass : R; getCOM_B : CDSVec3; getInertia_OB_B : CDSMat33 }.

Record RBFrame := mkFrame { getRot_RF : CDSMat33; getLoc_RF : CDSVec3 }.

Module Ball.
(** The state of [class ContainedBallJoint]: the Euler parameters [q] of
    the rotation relative to the parent with their first and second
    derivatives, the trigonometric functions of the Euler angles, and the
    representation switch. *)
Record t := mk {
  q : CDSVec4;
  dq : CDSVec4;
  ddq : CDSVec4;
  cPhi : R;
  sPhi : R;
  cPsi : R;
  sPsi : R;
  cTheta : R;
  sTheta : R;
  useEuler : bool }.

Definition set_q (v : CDSVec4) (n : t) : t :=
  mk v (dq n) (ddq n) (cPhi n) (sPhi n) (cPsi n) (sPsi n) (cTheta n)
    (sTheta n) (useEuler n).
Definition set_dq (v : CDSVec4) (n : t) : t :=
  mk (q n) v (ddq n) (cPhi n) (sPhi n) (cPsi n) (sPsi n) (cTheta n)
    (sTheta n) (useEuler n).
Definition set_ddq (v : CDSVec4) (n : t) : t :=
  mk (q n) (dq n) v (cPhi n) (sPhi n) (cPsi n) (sPsi n) (cTheta n)
    (sTheta n) (useEuler n).
Definition set_cPhi (v : R) (n : t) : t :=
  mk (q n) (dq n) (ddq n) v (sPhi n) (cPsi n) (sPsi n) (cTheta n)
    (sTheta n) (useEuler n).
Definition set_sPhi (v : R) (n : t) : t :=
  mk (q n) (dq n) (ddq n) (cPhi n) v (cPsi n) (sPsi n) (cTheta n)
    (sTheta n) (useEuler n).
Definition set_cPsi (v : R) (n : t) : t :=
  mk (q n) (dq n) (ddq n) (cPhi n) (sPhi n) v (sPsi n) (cTheta n)
    (sTheta n) (useEuler n).
Definition set_sPsi (v : R) (n : t) : t :=
  mk (q n) (dq n) (ddq n) (cPhi n) (sPhi n) (cPsi n) v (cTheta n)
    (sTheta n) (useEuler n).
Definition set_cTheta (v : R) (n : t) : t :=
  mk (q n) (dq n) (ddq n) (cPhi n) (sPhi n) (cPsi n) (sPsi n) v (sTheta n)
    (useEuler n).
Definition set_sTheta (v : R) (n : t) : t :=
  mk (q n) (dq n) (ddq n) (cPhi n) (sPhi n) (cPsi n) (sPsi n) (cTheta n) v
    (useEuler n).

End Ball.

Module Node.
(** The state of one node: the members of [class RigidBodyNode] that
    RigidBodyNode.cpp reads or writes, those of [RigidBodyNodeSpec<dof>]
    ([theta], [H], [DI], [G], [dTheta], [ddTheta], [nu], [epsilon],
    [forceInternal]) and the [ball] member of the two classes that contain
    a ball joint.  [set_x v n] is the assignment [x = v] on node [n]. *)
Record t := mk {
  cls : NodeClass;
  level : Z;
  stateOffset : nat;
  massProps_B : RBMassProperties;
  R_BJ : CDSMat33;
  OJ_B : CDSVec3;
  refOrigin_P : CDSVec3;
  OB_P : CDSVec3;
  R_PB : CDSMat33;
  R_GB : CDSMat33;
  OB_G : CDSVec3;
  COM_G : CDSVec3;
  COMstation_G : CDSVec3;
  inertia_OB_G : CDSMat33;
  Mk : CDSMat66;
  phi : PhiMatrix;
  sAcc : CDSVec6;
  a : CDSVec6;
  b : CDSVec6;
  P : CDSMat66;
  z : CDSVec6;
  tau : CDSMat66;
  psiT : CDSMat66;
  Gepsilon : CDSVec6;
  theta : FixedVector;
  H : list CDSVec6;
  DI : FixedMatrixNN;
  G : list CDSVec6;
  dTheta : FixedVector;
  ddTheta : FixedVector;
  nu : FixedVector;
  epsilon : FixedVector;
  forceInternal : FixedVector;
  ball : Ball.t }.

Definition set_OB_P (v : CDSVec3) (n : t) : t :=
  mk (cls n) (level n) (stateOffset n) (massProps_B n) (R_BJ n) (OJ_B n)
    (refOrigin_P n) v (R_PB n) (R_GB n) (OB_G n) (COM_G n)
    (COMstation_G n) (inertia_OB_G n) (Mk n) (phi n) (sAcc n) (a n) (b n)
    (P n) (z n) (tau n) (psiT n) (Gepsilon n) (theta n) (H n) (DI n) (G n)
    (dTheta n) (ddTheta n) (nu n) (epsilon n) (forceInternal n) (ball n).
Definition set_R_PB (v : CDSMat33) (n : t) : t :=
  mk (cls n) (level n) (stateOffset n) (massProps_B n) (R_BJ n) (OJ_B n)
    (refOrigin_P n) (OB_P n) v (R_GB n) (OB_G n) (COM_G n)
    (COMstation_G n) (inertia_OB_G n) (Mk n) (phi n) (sAcc n) (a n) (b n)
    (P n) (z n) (tau n) (psiT n) (Gepsilon n) (theta n) (H n) (DI n) (G n)
    (dTheta n) (ddTheta n) (nu n) (epsilon n) (forceInternal n) (ball n).
Definition set_R_GB (v : CDSMat33) (n : t) : t :=
  mk (cls n) (level n) (stateOffset n) (massProps_B n) (R_BJ n) (OJ_B n)
    (refOrigin_P n) (OB_P n) (R_PB n) v (OB_G n) (COM_G n)
    (COMstation_G n) (inertia_OB_G n) (Mk n) (phi n) (sAcc n) (a n) (b n)
    (P n) (z n) (tau n) (psiT n) (Gepsilon n) (theta n) (H n) (DI n) (G n)
    (dTheta n) (ddTheta n) (nu n) (epsilon n) (forceInternal n) (ball n).
Definition set_OB_G (v : CDSVec3) (n : t) : t :=
  mk (cls n) (level n) (stateOffset n) (massProps_B n) (R_BJ n) (OJ_B n)
    (refOrigin_P n) (OB_P n) (R_PB n) (R_GB n) v (COM_G n)
    (COMstation_G n) (inertia_OB_G n) (Mk n) (phi n) (sAcc n) (a n) (b n)
    (P n) (z n) (tau n) (psiT n) (Gepsilon n) (theta n) (H n) (DI n) (G n)
    (dTheta n) (ddTheta n) (nu n) (epsilon n) (forceInternal n) (ball n).
Definition set_COM_G (v : CDSVec3) (n : t) : t :=
  mk (cls n) (level n) (stateOffset n) (massProps_B n) (R_BJ n) (OJ_B n)
    (refOrigin_P n) (OB_P n) (R_PB n) (R_GB n) (OB_G n) v (COMstation_G n)
    (inertia_OB_G n) (Mk n) (phi n) (sAcc n) (a n) (b n) (P n) (z n)
    (tau n) (psiT n) (Gepsilon n) (theta n) (H n) (DI n) (G n) (dTheta n)
    (ddTheta n) (nu n) (epsilon n) (forceInternal n) (ball n).
Definition set_COMstation_G (v : CDSVec3) (n : t) : t :=
  mk (cls n) (level n) (stateOffset n) (massProps_B n) (R_BJ n) (OJ_B n)
    (refOrigin_P n) (OB_P n) (R_PB n) (R_GB n) (OB_G n) (COM_G n) v
    (inertia_OB_G n) (Mk n) (phi n) (sAcc n) (a n) (b n) (P n) (z n)
    (tau n) (psiT n) (Gepsilon n) (theta n) (H n) (DI n) (G n) (dTheta n)
    (ddTheta n) (nu n) (epsilon n) (forceInternal n) (ball n).
Definition set_inertia_OB_G (v : CDSMat33) (n : t) : t :=
  mk (cls n) (level n) (stateOffset n) (massProps_B n) (R_BJ n) (OJ_B n)
    (refOrigin_P n) (OB_P n) (R_PB n) (R_GB n) (OB_G n) (COM_G n)
    (COMstation_G n) v (Mk n) (phi n) (sAcc n) (a n) (b n) (P n) (z n)
    (tau n) (psiT n) (Gepsilon n) (theta n) (H n) (DI n) (G n) (dTheta n)
    (ddTheta n) (nu n) (epsilon n) (forceInternal n) (ball n).
Definition set_Mk (v : CDSMat66) (n : t) : t :=
  mk (cls n) (level n) (stateOffset n) (massProps_B n) (R_BJ n) (OJ_B n)
    (refOrigin_P n) (OB_P n) (R_PB n) (R_GB n) (OB_G n) (COM_G n)
    (COMstation_G n) (inertia_OB_G n) v (phi n) (sAcc n) (a n) (b n) (P n)
    (z n) (tau n) (psiT n) (Gepsilon n) (theta n) (H n) (DI n) (G n)
    (dTheta n) (ddTheta n) (nu n) (epsilon n) (forceInternal n) (ball n).
Definition set_phi (v : PhiMatrix) (n : t) : t :=
  mk (cls n) (level n) (stateOffset n) (massProps_B n) (R_BJ n) (OJ_B n)
    (refOrigin_P n) (OB_P n) (R_PB n) (R_GB n) (OB_G n) (COM_G n)
    (COMstation_G n) (inertia_OB_G n) (Mk n) v (sAcc n) (a n) (b n) (P n)
    (z n) (tau n) (psiT n) (Gepsilon n) (theta n) (H n) (DI n) (G n)
    (dTheta n) (ddTheta n) (nu n) (epsilon n) (forceInternal n) (ball n).
Definition set_sAcc (v : CDSVec6) (n : t) : t :=
  mk (cls n) (level n) (stateOffset n) (massProps_B n) (R_BJ n) (OJ_B n)
    (refOrigin_P n) (OB_P n) (R_PB n) (R_GB n) (OB_G n) (COM_G n)
    (COMstation_G n) (inertia_OB_G n) (Mk n) (phi n) v (a n) (b n) (P n)
    (z n) (tau n) (psiT n) (Gepsilon n) (theta n) (H n) (DI n) (G n)
    (dTheta n) (ddTheta n) (nu n) (epsilon n) (forceInternal n) (ball n).
Definition set_P (v : CDSMat66) (n : t) : t :=
  mk (cls n) (level n) (stateOffset n) (massProps_B n) (R_BJ n) (OJ_B n)
    (refOrigin_P n) (OB_P n) (R_PB n) (R_GB n) (OB_G n) (COM_G n)
    (COMstation_G n) (inertia_OB_G n) (Mk n) (phi n) (sAcc n) (a n) (b n)
    v (z n) (tau n) (psiT n) (Gepsilon n) (theta n) (H n) (DI n) (G n)
    (dTheta n) (ddTheta n) (nu n) (epsilon n) (forceInternal n) (ball n).
Definition set_z (v : CDSVec6) (n : t) : t :=
  mk (cls n) (level n) (stateOffset n) (massProps_B n) (R_BJ n) (OJ_B n)
    (refOrigin_P n) (OB_P n) (R_PB n) (R_GB n) (OB_G n) (COM_G n)
    (COMstation_G n) (inertia_OB_G n) (Mk n) (phi n) (sAcc n) (a n) (b n)
    (P n) v (tau n) (psiT n) (Gepsilon n) (theta n) (H n) (DI n) (G n)
    (dTheta n) (ddTheta n) (nu n) (epsilon n) (forceInternal n) (ball n).
Definition set_tau (v : CDSMat66) (n : t) : t :=
  mk (cls n) (level n) (stateOffset n) (massProps_B n) (R_BJ n) (OJ_B n)
    (refOrigin_P n) (OB_P n) (R_PB n) (R_GB n) (OB_G n) (COM_G n)
    (COMstation_G n) (inertia_OB_G n) (Mk n) (phi n) (sAcc n) (a n) (b n)
    (P n) (z n) v (psiT n) (Gepsilon n) (theta n) (H n) (DI n) (G n)
    (dTheta n) (ddTheta n) (nu n) (epsilon n) (forceInternal n) (ball n).
Definition set_psiT (v : CDSMat66) (n : t) : t :=
  mk (cls n) (level n) (stateOffset n) (massProps_B n) (R_BJ n) (OJ_B n)
    (refOrigin_P n) (OB_P n) (R_PB n) (R_GB n) (OB_G n) (COM_G n)
    (COMstation_G n) (inertia_OB_G n) (Mk n) (phi n) (sAcc n) (a n) (b n)
    (P n) (z n) (tau n) v (Gepsilon n) (theta n) (H n) (DI n) (G n)
    (dTheta n) (ddTheta n) (nu n) (epsilon n) (forceInternal n) (ball n).
Definition set_Gepsilon (v : CDSVec6) (n : t) : t :=
  mk (cls n) (level n) (stateOffset n) (massProps_B n) (R_BJ n) (OJ_B n)
    (refOrigin_P n) (OB_P n) (R_PB n) (R_GB n) (OB_G n) (COM_G n)
    (COMstation_G n) (inertia_OB_G n) (Mk n) (phi n) (sAcc n) (a n) (b n)
    (P n) (z n) (tau n) (psiT n) v (theta n) (H n) (DI n) (G n) (dTheta n)
    (ddTheta n) (nu n) (epsilon n) (forceInternal n) (ball n).
Definition set_theta (v : FixedVector) (n : t) : t :=
  mk (cls n) (level n) (stateOffset n) (massProps_B n) (R_BJ n) (OJ_B n)
    (refOrigin_P n) (OB_P n) (R_PB n) (R_GB n) (OB_G n) (COM_G n)
    (COMstation_G n) (inertia_OB_G n) (Mk n) (phi n) (sAcc n) (a n) (b n)
    (P n) (z n) (tau n) (psiT n) (Gepsilon n) v (H n) (DI n) (G n)
    (dTheta n) (ddTheta n) (nu n) (epsilon n) (forceInternal n) (ball n).
Definition set_H (v : list CDSVec6) (n : t) : t :=
  mk (cls n) (level n) (stateOffset n) (massProps_B n) (R_BJ n) (OJ_B n)
    (refOrigin_P n) (OB_P n) (R_PB n) (R_GB n) (OB_G n) (COM_G n)
    (COMstation_G n) (inertia_OB_G n) (Mk n) (phi n) (sAcc n) (a n) (b n)
    (P n) (z n) (tau n) (psiT n) (Gepsilon n) (theta n) v (DI n) (G n)
    (dTheta n) (ddTheta n) (nu n) (epsilon n) (forceInternal n) (ball n).
Definition set_DI (v : FixedMatrixNN) (n : t) : t :=
  mk (cls n) (level n) (stateOffset n) (massProps_B n) (R_BJ n) (OJ_B n)
    (refOrigin_P n) (OB_P n) (R_PB n) (R_GB n) (OB_G n) (COM_G n)
    (COMstation_G n) (inertia_OB_G n) (Mk n) (phi n) (sAcc n) (a n) (b n)
    (P n) (z n) (tau n) (psiT n) (Gepsilon n) (theta n) (H n) v (G n)
    (dTheta n) (ddTheta n) (nu n) (epsilon n) (forceInternal n) (ball n).
Definition set_G (v : list CDSVec6) (n : t) : t :=
  mk (cls n) (level n) (stateOffset n) (massProps_B n) (R_BJ n) (OJ_B n)
    (refOrigin_P n) (OB_P n) (R_PB n) (R_GB n) (OB_G n) (COM_G n)
    (COMstation_G n) (inertia_OB_G n) (Mk n) (phi n) (sAcc n) (a n) (b n)
    (P n) (z n) (tau n) (psiT n) (Gepsilon n) (theta n) (H n) (DI n) v
    (dTheta n) (ddTheta n) (nu n) (epsilon n) (forceInternal n) (ball n).
Definition set_dTheta (v : FixedVector) (n : t) : t :=
  mk (cls n) (level n) (stateOffset n) (massProps_B n) (R_BJ n) (OJ_B n)
    (refOrigin_P n) (OB_P n) (R_PB n) (R_GB n) (OB_G n) (COM_G n)
    (COMstation_G n) (inertia_OB_G n) (Mk n) (phi n) (sAcc n) (a n) (b n)
    (P n) (z n) (tau n) (psiT n) (Gepsilon n) (theta n) (H n) (DI n) (G n)
    v (ddTheta n) (nu n) (epsilon n) (forceInternal n) (ball n).
Definition set_ddTheta (v : FixedVector) (n : t) : t :=
  mk (cls n) (level n) (stateOffset n) (massProps_B n) (R_BJ n) (OJ_B n)
    (refOrigin_P n) (OB_P n) (R_PB n) (R_GB n) (OB_G n) (COM_G n)
    (COMstation_G n) (inertia_OB_G n) (Mk n) (phi n) (sAcc n) (a n) (b n)
    (P n) (z n) (tau n) (psiT n) (Gepsilon n) (theta n) (H n) (DI n) (G n)
    (dTheta n) v (nu n) (epsilon n) (forceInternal n) (ball n).
Definition set_nu (v : FixedVector) (n : t) : t :=
  mk (cls n) (level n) (stateOffset n) (massProps_B n) (R_BJ n) (OJ_B n)
    (refOrigin_P n) (OB_P n) (R_PB n) (R_GB n) (OB_G n) (COM_G n)
    (COMstation_G n) (inertia_OB_G n) (Mk n) (phi n) (sAcc n) (a n) (b n)
    (P n) (z n) (tau n) (psiT n) (Gepsilon n) (theta n) (H n) (DI n) (G n)
    (dTheta n) (ddTheta n) v (epsilon n) (forceInternal n) (ball n).
Definition set_epsilon (v : FixedVector) (n : t) : t :=
  mk (cls n) (level n) (stateOffset n) (massProps_B n) (R_BJ n) (OJ_B n)
    (refOrigin_P n) (OB_P n) (R_PB n) (R_GB n) (OB_G n) (COM_G n)
    (COMstation_G n) (inertia_OB_G n) (Mk n) (phi n) (sAcc n) (a n) (b n)
    (P n) (z n) (tau n) (psiT n) (Gepsilon n) (theta n) (H n) (DI n) (G n)
    (dTheta n) (ddTheta n) (nu n) v (forceInternal n) (ball n).
Definition set_forceInternal (v : FixedVector) (n : t) : t :=
  mk (cls n) (level n) (stateOffset n) (massProps_B n) (R_BJ n) (OJ_B n)
    (refOrigin_P n) (OB_P n) (R_PB n) (R_GB n) (OB_G n) (COM_G n)
    (COMstation_G n) (inertia_OB_G n) (Mk n) (phi n) (sAcc n) (a n) (b n)
    (P n) (z n) (tau n) (psiT n) (Gepsilon n) (theta n) (H n) (DI n) (G n)
    (dTheta n) (ddTheta n) (nu n) (epsilon n) v (ball n).
Definition set_ball (v : Ball.t) (n : t) : t :=
  mk (cls n) (level n) (stateOffset n) (massProps_B n) (R_BJ n) (OJ_B n)
    (refOrigin_P n) (OB_P n) (R_PB n) (R_GB n) (OB_G n) (COM_G n)
    (COMstation_G n) (inertia_OB_G n) (Mk n) (phi n) (sAcc n) (a n) (b n)
    (P n) (z n) (tau n) (psiT n) (Gepsilon n) (theta n) (H n) (DI n) (G n)
    (dTheta n) (ddTheta n) (nu n) (epsilon n) (forceInternal n) v.
Definition set_stateOffset (v : nat) (n : t) : t :=
  mk (cls n) (level n) v (massProps_B n) (R_BJ n) (OJ_B n) (refOrigin_P n)
    (OB_P n) (R_PB n) (R_GB n) (OB_G n) (COM_G n) (COMstation_G n)
    (inertia_OB_G n) (Mk n) (phi n) (sAcc n) (a n) (b n) (P n) (z n)
    (tau n) (psiT n) (Gepsilon n) (theta n) (H n) (DI n) (G n) (dTheta n)
    (ddTheta n) (nu n) (epsilon n) (forceInternal n) (ball n).

End Node.

(* ================================================================== *)
(** ** class ContainedBallJoint *)
(* ================================================================== *)

(** [RigidBodyNode::DEG2RAD = PI / 180.] *)
Definition DEG2RAD : R := PI / 180.

Definition sq (x : R) : R := x * x.

(** [FixedMatrix<double,3,4>] and [FixedMatrix<double,4,3>], by rows, in
    the row-major order of their array initialisers. *)
Record Mat34 := mkMat34 { r34_0 : CDSVec4; r34_1 : CDSVec4; r34_2 : CDSVec4 }.
Record Mat43 := mkMat43 {
  r43_0 : CDSVec3; r43_1 : CDSVec3; r43_2 : CDSVec3; r43_3 : CDSVec3 }.

Definition mul34 (M : Mat34) (v : CDSVec4) : CDSVec3 :=
  mkVec3 (dot4 (r34_0 M) v) (dot4 (r34_1 M) v) (dot4 (r34_2 M) v).
Definition mul43 (M : Mat43) (v : CDSVec3) : CDSVec4 :=
  mkVec4 (dot3 (r43_0 M) v) (dot3 (r43_1 M) v)
         (dot3 (r43_2 M) v) (dot3 (r43_3 M) v).
Definition scale43 (s : R) (M : Mat43) : Mat43 :=
  mkMat43 (vscale3 s (r43_0 M)) (vscale3 s (r43_1 M))
          (vscale3 s (r43_2 M)) (vscale3 s (r43_3 M)).
Definition transpose34 (M : Mat34) : Mat43 :=
  mkMat43 (mkVec3 (q0 (r34_0 M)) (q0 (r34_1 M)) (q0 (r34_2 M)))
          (mkVec3 (q1 (r34_0 M)) (q1 (r34_1 M)) (q1 (r34_2 M)))
          (mkVec3 (q2 (r34_0 M)) (q2 (r34_1 M)) (q2 (r34_2 M)))
          (mkVec3 (q3 (r34_0 M)) (q3 (r34_1 M)) (q3 (r34_2 M))).
(** The 3x3 product of a 3x4 and a 4x3 matrix. *)
Definition mul34_43 (A : Mat34) (B : Mat43) : CDSMat33 :=
  let col j := mkVec4 (j (r43_0 B)) (j (r43_1 B)) (j (r43_2 B)) (j (r43_3 B))
  in
  mkMat33
    (dot4 (r34_0 A) (col vx)) (dot4 (r34_0 A) (col vy)) (dot4 (r34_0 A) (col vz))
    (dot4 (r34_1 A) (col vx)) (dot4 (r34_1 A) (col vy)) (dot4 (r34_1 A) (col vz))
    (dot4 (r34_2 A) (col vx)) (dot4 (r34_2 A) (col vy)) (dot4 (r34_2 A) (col vz)).

(** The array [a2] of [setBallVel]: the 3x4 matrix [M(q)]. *)
Definition Mq34 (q : CDSVec4) : Mat34 :=
  mkMat34 (mkVec4 (- q1 q) (q0 q) (- q3 q) (q2 q))
          (mkVec4 (- q2 q) (q3 q) (q0 q) (- q1 q))
          (mkVec4 (- q3 q) (- q2 q) (q1 q) (q0 q)).

(** The array [a1] of [calcBallAccel] and [a] of [setBallDerivs]: a 4x3
    matrix built from [q]. *)
Definition Mq43 (q : CDSVec4) : Mat43 :=
  mkMat43 (mkVec3 (- q1 q) (- q2 q) (- q3 q))
          (mkVec3 (q0 q) (q3 q) (- q2 q))
          (mkVec3 (- q3 q) (q0 q) (q1 q))
          (mkVec3 (q2 q) (- q1 q) (q0 q)).

(** Constructor: [q(1,0,0,0), dq(0.), ddq(0.), useEuler(shouldUseEuler)];
    a quaternion ball takes one more slot of the state vector ([cnt++]
    on the [int&] counter, a natural number here, for counters below
    [INT_MAX]).  The trigonometric members are not initialised by the
    source; they are 0 here. *)
Definition ContainedBallJoint (cnt : nat) (shouldUseEuler : bool)
  : Ball.t * nat :=
  (Ball.mk (mkVec4 1 0 0 0) (mkVec4 0 0 0 0) (mkVec4 0 0 0 0)
           0 0 0 0 0 0 shouldUseEuler,
   if shouldUseEuler then cnt else S cnt).

Definition getBallDim (bl : Ball.t) : nat :=
  if Ball.useEuler bl then 3%nat else 4%nat.

(** [setBallPos]: the Euler ball stores the slice in the caller's [theta],
    the quaternion ball stores it in [q] and leaves [theta] alone. *)
Definition setBallPos (stateOffset : nat) (posv : RVec) (theta : CDSVec3)
  (bl : Ball.t) : Ball.t * CDSVec3 :=
  if Ball.useEuler bl
  then (bl, vec3_of_list (subVec posv stateOffset 3))
  else (Ball.set_q (vec4_of_list (subVec posv stateOffset 4)) bl, theta).

Definition getBallPos (theta : CDSVec3) (stateOffset : nat) (posv : RVec)
  (bl : Ball.t) : RVec :=
  if Ball.useEuler bl
  then setSubVec posv stateOffset (list_of_vec3 theta)
  else setSubVec posv stateOffset (list_of_vec4 (Ball.q bl)).

Definition setBallVel (stateOffset : nat) (velv : RVec) (dTheta : CDSVec3)
  (bl : Ball.t) : Ball.t * CDSVec3 :=
  if Ball.useEuler bl
  then (bl, vec3_of_list (subVec velv stateOffset 3))
  else
    let bl' := Ball.set_dq (vec4_of_list (subVec velv stateOffset 4)) bl in
    let M := Mq34 (Ball.q bl') in
    (bl', vscale3 2 (mul34 M (Ball.dq bl'))).

Definition getBallVel (dTheta : CDSVec3) (stateOffset : nat) (velv : RVec)
  (bl : Ball.t) : RVec :=
  if Ball.useEuler bl
  then setSubVec velv stateOffset (list_of_vec3 dTheta)
  else setSubVec velv stateOffset (list_of_vec4 (Ball.dq bl)).

(** [calcBallAccel], called after [calcAccel]. *)
Definition calcBallAccel (omega dOmega : CDSVec3) (bl : Ball.t) : Ball.t :=
  if Ball.useEuler bl then bl
  else
    let M := Mq43 (Ball.q bl) in
    let dM := Mq43 (Ball.dq bl) in
    Ball.set_ddq (vscale4 (1/2) (vadd4 (mul43 dM omega) (mul43 M dOmega))) bl.

Definition getBallAccel (ddTheta : CDSVec3) (stateOffset : nat) (accv : RVec)
  (bl : Ball.t) : RVec :=
  if Ball.useEuler bl
  then setSubVec accv stateOffset (list_of_vec3 ddTheta)
  else setSubVec accv stateOffset (list_of_vec4 (Ball.ddq bl)).

(** The Euler branch of [calcR_PB] stores the six trigonometric values. *)
Definition setTrig (th : CDSVec3) (bl : Ball.t) : Ball.t :=
  Ball.set_sPsi (sin (vz th * DEG2RAD))
  (Ball.set_cPsi (cos (vz th * DEG2RAD))
  (Ball.set_sTheta (sin (vy th * DEG2RAD))
  (Ball.set_cTheta (cos (vy th * DEG2RAD))
  (Ball.set_sPhi (sin (vx th * DEG2RAD))
  (Ball.set_cPhi (cos (vx th * DEG2RAD)) bl))))).

(** [calcR_PB(theta, R_PB)]: returns the ball and the matrix written to
    [R_PB]. *)
Definition calcR_PB (theta : CDSVec3) (bl : Ball.t) : Ball.t * CDSMat33 :=
  if Ball.useEuler bl then
    let bl' := setTrig theta bl in
    let cPhi := Ball.cPhi bl' in let sPhi := Ball.sPhi bl' in
    let cTheta := Ball.cTheta bl' in let sTheta := Ball.sTheta bl' in
    let cPsi := Ball.cPsi bl' in let sPsi := Ball.sPsi bl' in
    (bl',
     mkMat33
       (cPhi*cTheta) (-sPhi*cPsi+cPhi*sTheta*sPsi) (sPhi*sPsi+cPhi*sTheta*cPsi)
       (sPhi*cTheta) (cPhi*cPsi+sPhi*sTheta*sPsi) (-cPhi*sPsi+sPhi*sTheta*cPsi)
       (-sTheta)     (cTheta*sPsi)                (cTheta*cPsi))
  else
    let q := Ball.q bl in
    (bl,
     mkMat33
       (sq (q0 q) + sq (q1 q) - sq (q2 q) - sq (q3 q))
       (2*(q1 q * q2 q - q0 q * q3 q))
       (2*(q1 q * q3 q + q0 q * q2 q))
       (2*(q1 q * q2 q + q0 q * q3 q))
       (sq (q0 q) - sq (q1 q) + sq (q2 q) - sq (q3 q))
       (2*(q2 q * q3 q - q0 q * q1 q))
       (2*(q1 q * q3 q - q0 q * q2 q))
       (2*(q2 q * q3 q + q0 q * q1 q))
       (sq (q0 q) - sq (q1 q) - sq (q2 q) + sq (q3 q))).

(** [enforceBallConstraints(offset, posv, velv)]: returns the ball and the
    two vectors it rewrites. *)
Definition enforceBallConstraints (offset : nat) (posv velv : RVec)
  (bl : Ball.t) : Ball.t * RVec * RVec :=
  if negb (Ball.useEuler bl) then
    let q := vec4_of_list (subVec posv offset 4) in
    let dq := vec4_of_list (subVec velv offset 4) in
    let q := vdiv4 q (norm4 q) in
    let dq := vsub4 dq (vscale4 (dot4 q dq) q) in
    (Ball.set_dq dq (Ball.set_q q bl),
     setSubVec posv offset (list_of_vec4 q),
     setSubVec velv offset (list_of_vec4 dq))
  else (bl, posv, velv).

(** [setBallDerivs(omega)]; [None] is the failure of [assert(!useEuler)]. *)
Definition setBallDerivs (omega : CDSVec3) (bl : Ball.t) : option Ball.t :=
  if Ball.useEuler bl then None
  else
    let M := Mq43 (Ball.q bl) in
    Some (Ball.set_dq (mul43 (scale43 (1/2) M) omega) bl).

(* ================================================================== *)
(** ** RigidBodyNode and RigidBodyNodeSpec<dof> methods *)
(* ================================================================== *)

(** A method that reads its parent or its children takes their current
    state as an argument: [parent] is [*parent], [children] is the array
    [children] in order. *)

Definition getR_GP (parent : Node.t) : CDSMat33 := Node.R_GB parent.
Definition getOP_G (parent : Node.t) : CDSVec3 := Node.OB_G parent.
Definition getR_GB (n : Node.t) : CDSMat33 := Node.R_GB n.
Definition getOB_G (n : Node.t) : CDSVec3 := Node.OB_G n.

(** [calcJointIndependentKinematicsPos], base to tip. *)
Definition calcJointIndependentKinematicsPos (parent n : Node.t) : Node.t :=
  let OB_OP_G := mulMV33 (getR_GP parent) (Node.OB_P n) in
  let n := Node.set_phi (mkPhi OB_OP_G) n in
  let n := Node.set_R_GB (mmul33 (getR_GP parent) (Node.R_PB n)) n in
  let n := Node.set_OB_G (vadd3 (getOP_G parent) OB_OP_G) n in
  let n := Node.set_inertia_OB_G
             (orthoTransform33 (getInertia_OB_B (Node.massProps_B n))
                               (getR_GB n)) n in
  let n := Node.set_COMstation_G
             (mulMV33 (getR_GB n) (getCOM_B (Node.massProps_B n))) n in
  let n := Node.set_COM_G (vadd3 (Node.OB_G n) (Node.COMstation_G n)) n in
  let offDiag := mscale33 (getMass (Node.massProps_B n))
                          (crossMat (Node.COMstation_G n)) in
  Node.set_Mk
    (blockMat22 (Node.inertia_OB_G n) offDiag
                (mneg33 offDiag)
                (mscale33 (getMass (Node.massProps_B n)) ident33)) n.

(** *** Joint-specific position kinematics *)

(** Rows of [blockMat12(A, B)] for two 3x3 blocks. *)
Definition blockMat12_33 (A B : CDSMat33) : list CDSVec6 :=
  zipWith blockVec (rows33 A) (rows33 B).

(** The rotation [Ry(psi) * Rx(phi)] of the two-angle joints. *)
Definition rotate2_R_JiJ (theta : FixedVector) : CDSMat33 :=
  let scale := 1 in
  let sinPhi := sin (scale * nth 0 theta 0) in
  let cosPhi := cos (scale * nth 0 theta 0) in
  let sinPsi := sin (scale * nth 1 theta 0) in
  let cosPsi := cos (scale * nth 1 theta 0) in
  mkMat33 cosPsi (sinPsi*sinPhi) (sinPsi*cosPhi)
          0      cosPhi          (-sinPhi)
          (-sinPsi) (cosPsi*sinPhi) (cosPsi*cosPhi).

(** The two rows [x], [y] that [calcH] of the two-angle joints computes. *)
Definition rotate2_xy (parent n : Node.t) : CDSVec3 * CDSVec3 :=
  let scale := 1 in
  let tmpR_GB := mmul33 (getR_GP parent) (Node.R_PB n) in
  (vscale3 scale (mulMV33 tmpR_GB (mulMV33 (Node.R_BJ n) (mkVec3 1 0 0))),
   vscale3 scale (mulMV33 tmpR_GB (mulMV33 (Node.R_BJ n) (mkVec3 0 1 0)))).

Definition calcJointKinematicsPos (parent n : Node.t) : Node.t :=
  match Node.cls n with
  | RBGroundBody => n
  | RBNodeTranslate =>
      let n := Node.set_OB_P
                 (vadd3 (Node.refOrigin_P n) (vec3_of_list (Node.theta n))) n in
      let n := Node.set_R_PB ident33 n in
      Node.set_H (blockMat12_33 zero33 (transpose33 (getR_GP parent))) n
  | RBNodeTorsion =>
      let n := Node.set_OB_P (Node.refOrigin_P n) n in
      (* calcR_PB *)
      let scale := 1 in
      let sinTau := sin (scale * nth 0 (Node.theta n) 0) in
      let cosTau := cos (scale * nth 0 (Node.theta n) 0) in
      let R_JiJ := mkMat33 cosTau (- sinTau) 0
                           sinTau cosTau     0
                           0      0          1 in
      let n := Node.set_R_PB (orthoTransform33 R_JiJ (Node.R_BJ n)) n in
      (* calcH *)
      let z := mulMV33 (getR_GP parent)
                       (mulMV33 (Node.R_BJ n) (mkVec3 0 0 1)) in
      Node.set_H [blockVec z vec3_0] n
  | RBNodeRotate3 =>
      let n := Node.set_OB_P (Node.refOrigin_P n) n in
      let '(bl, R) := calcR_PB (vec3_of_list (Node.theta n)) (Node.ball n) in
      let n := Node.set_R_PB R (Node.set_ball bl n) in
      Node.set_H (blockMat12_33 (transpose33 (getR_GP parent)) zero33) n
  | RBNodeTranslateRotate3 =>
      let n := Node.set_OB_P
                 (vadd3 (Node.refOrigin_P n)
                        (vec3_of_list (subVec (Node.theta n) 3 3))) n in
      let '(bl, R) := calcR_PB (vec3_of_list (subVec (Node.theta n) 0 3))
                               (Node.ball n) in
      let n := Node.set_R_PB R (Node.set_ball bl n) in
      Node.set_H
        (blockMat12_33 (transpose33 (getR_GP parent)) zero33 ++
         blockMat12_33 zero33 (transpose33 (getR_GP parent))) n
  | RBNodeRotate2 =>
      let n := Node.set_OB_P (Node.refOrigin_P n) n in
      let n := Node.set_R_PB
                 (orthoTransform33 (rotate2_R_JiJ (Node.theta n))
                                   (Node.R_BJ n)) n in
      let '(x, y) := rotate2_xy parent n in
      Node.set_H [blockVec x vec3_0; blockVec y vec3_0] n
  | RBNodeTranslateRotate2 =>
      let n := Node.set_OB_P
                 (vadd3 (Node.refOrigin_P n)
                        (vec3_of_list (subVec (Node.theta n) 2 3))) n in
      let n := Node.set_R_PB
                 (orthoTransform33 (rotate2_R_JiJ (Node.theta n))
                                   (Node.R_BJ n)) n in
      let '(x, y) := rotate2_xy parent n in
      Node.set_H
        ([blockVec x vec3_0; blockVec y vec3_0] ++
         blockMat12_33 zero33 (transpose33 (getR_GP parent))) n
  end.

(** [setJointPos].  The free joint passes a default-constructed local
    [CDSVec3 th] to [setBallPos], which the quaternion ball does not
    assign; [th0] is the value of that local. *)
Definition setJointPos (th0 : CDSVec3) (posv : RVec) (n : Node.t) : Node.t :=
  match Node.cls n with
  | RBGroundBody => n
  | RBNodeRotate3 =>
      let '(bl, th) := setBallPos (Node.stateOffset n) posv
                         (vec3_of_list (Node.theta n)) (Node.ball n) in
      Node.set_theta (list_of_vec3 th) (Node.set_ball bl n)
  | RBNodeTranslateRotate3 =>
      let '(bl, th) := setBallPos (Node.stateOffset n) posv th0
                         (Node.ball n) in
      let n := Node.set_ball bl n in
      let n := Node.set_theta
                 (setSubVec (Node.theta n) 0 (list_of_vec3 th)) n in
      Node.set_theta
        (setSubVec (Node.theta n) 3
           (subVec posv (Node.stateOffset n + getBallDim (Node.ball n)) 3)) n
  | c => Node.set_theta (subVec posv (Node.stateOffset n) (dofOf c)) n
  end.

(** [setPos]: set a new configuration and calculate the consequent
    kinematics.  The ground body's [setPos] is empty. *)
Definition setPos (th0 : CDSVec3) (parent : Node.t) (posv : RVec)
  (n : Node.t) : Node.t :=
  match Node.cls n with
  | RBGroundBody => n
  | c =>
      let n := Node.set_forceInternal (zeroN (dofOf c)) n in
      let n := setJointPos th0 posv n in
      let n := calcJointKinematicsPos parent n in
      calcJointIndependentKinematicsPos parent n
  end.

(** [enforceConstraints]: only the two classes with a ball do anything. *)
Definition enforceConstraints (posv velv : RVec) (n : Node.t)
  : Node.t * RVec * RVec :=
  match Node.cls n with
  | RBNodeRotate3 | RBNodeTranslateRotate3 =>
      let '(bl, posv', velv') :=
        enforceBallConstraints (Node.stateOffset n) posv velv (Node.ball n) in
      (Node.set_ball bl n, posv', velv')
  | _ => (n, posv, velv)
  end.

(** *** The articulated-body recursion *)

(** What [calcD_G] writes to [cerr] before it throws. *)
Record SingularDiagnostic := mkDiag {
  cerr_D : FixedMatrixNN;
  cerr_H : list CDSVec6;
  cerr_level : Z;
  cerr_children : nat }.

(** How a method that may throw ends: it returns, or it throws
    [Exception(what)] after writing [cerr]; either way the node is left in
    the state [n]. *)
Inductive Result :=
| Normal (n : Node.t)
| Throws (what : string) (cerr : SingularDiagnostic) (n : Node.t).

Definition calcD_G (children : list Node.t) (P : CDSMat66) (n : Node.t)
  : Result :=
  let D := orthoTransformPH P (Node.H n) in
  match inverse D with
  | Some DI =>
      let n := Node.set_DI DI n in
      Normal (Node.set_G (mulP_HT_DI P (Node.H n) (Node.DI n)) n)
  | None =>
      Throws "calcD_G: singular D matrix. Bad topology?"
             (mkDiag D (Node.H n) (Node.level n) (length children)) n
  end.

(** One turn of the loop of [calcP] on the four blocks of [P]. *)
Definition calcP_child (n : Node.t) (P : CDSMat66) (child : Node.t)
  : CDSMat66 :=
  let lt := crossMat (vsub3 (getOB_G child) (getOB_G n)) in
  let M := mmul66 (Node.tau child) (Node.P child) in
  let m11 := b11 M in let m12 := b12 M in
  let m21 := b21 M in let m22 := b22 M in
  blockMat22
    (madd33 (b11 P)
       (msub33 (msub33 (madd33 m11 (mmul33 lt m21)) (mmul33 m12 lt))
               (mmul33 (mmul33 lt m22) lt)))
    (madd33 (b12 P) (madd33 m12 (mmul33 lt m22)))
    (madd33 (b21 P) (msub33 m21 (mmul33 m22 lt)))
    (madd33 (b22 P) m22).

(** [P = Mk] followed by the loop over the children. *)
Definition calcP_sum (children : list Node.t) (n : Node.t) : CDSMat66 :=
  fold_left (calcP_child n) children (Node.Mk n).

(** [calcP], tip to base. *)
Definition calcP (children : list Node.t) (n : Node.t) : Result :=
  match Node.cls n with
  | RBGroundBody => Normal n
  | _ =>
      let n := Node.set_P (calcP_sum children n) n in
      match calcD_G children (Node.P n) n with
      | Normal n =>
          let n := Node.set_tau ident66 n in
          let n := Node.set_tau
                     (msub66 (Node.tau n) (mulGH (Node.G n) (Node.H n))) n in
          Normal (Node.set_psiT
                    (mul_phiT (transpose66 (Node.tau n)) (Node.phi n)) n)
      | Throws what cerr n => Throws what cerr n
      end
  end.

(** [calcZ], tip to base. *)
Definition calcZ_child (z : CDSVec6) (child : Node.t) : CDSVec6 :=
  vadd6 z (phi_mul (Node.phi child)
                   (vadd6 (Node.z child) (Node.Gepsilon child))).

Definition calcZ (children : list Node.t) (spatialForce : CDSVec6)
  (n : Node.t) : Node.t :=
  match Node.cls n with
  | RBGroundBody => n
  | _ =>
      let n := Node.set_z
                 (vsub6 (vadd6 (mulMV66 (Node.P n) (Node.a n)) (Node.b n))
                        spatialForce) n in
      let n := Node.set_z (fold_left calcZ_child children (Node.z n)) n in
      let n := Node.set_epsilon
                 (vsubN (Node.forceInternal n)
                        (mulHv (Node.H n) (Node.z n))) n in
      let n := Node.set_nu (mulNv (Node.DI n) (Node.epsilon n)) n in
      Node.set_Gepsilon (mulGv (Node.G n) (Node.epsilon n)) n
  end.

(** [calcJointAccel]: empty except for the two classes with a ball. *)
Definition calcJointAccel (n : Node.t) : Node.t :=
  match Node.cls n with
  | RBNodeRotate3 =>
      Node.set_ball
        (calcBallAccel (vec3_of_list (Node.dTheta n))
                       (vec3_of_list (Node.ddTheta n)) (Node.ball n)) n
  | RBNodeTranslateRotate3 =>
      let omega := vec3_of_list (subVec (Node.dTheta n) 0 3) in
      let dOmega := vec3_of_list (subVec (Node.ddTheta n) 0 3) in
      Node.set_ball (calcBallAccel omega dOmega (Node.ball n)) n
  | _ => n
  end.

(** [calcAccel], base to tip. *)
Definition calcAccel (parent n : Node.t) : Node.t :=
  match Node.cls n with
  | RBGroundBody => n
  | _ =>
      let alphap := phiT_mul (Node.phi n) (Node.sAcc parent) in
      let n := Node.set_ddTheta
                 (vsubN (Node.nu n) (mulGTv (Node.G n) alphap)) n in
      let n := Node.set_sAcc
                 (vadd6 (vadd6 alphap (mulHTv (Node.H n) (Node.ddTheta n)))
                        (Node.a n)) n in
      calcJointAccel n
  end.

(** [calcInternalForce], tip to base. *)
Definition calcInternalForce_child (z : CDSVec6) (child : Node.t) : CDSVec6 :=
  vadd6 z (phi_mul (Node.phi child) (Node.z child)).

Definition calcInternalForce (children : list Node.t)
  (spatialForce : CDSVec6) (n : Node.t) : Node.t :=
  match Node.cls n with
  | RBGroundBody => n
  | _ =>
      let n := Node.set_z (vneg6 spatialForce) n in
      let n := Node.set_z
                 (fold_left calcInternalForce_child children (Node.z n)) n in
      Node.set_forceInternal
        (vaddN (Node.forceInternal n) (mulHv (Node.H n) (Node.z n))) n
  end.

(* ================================================================== *)
(** ** Velocity pass and the state accessors *)
(* ================================================================== *)

(** The assignments [a = v] and [b = v] to the two bias members. *)
Definition Node_set_a (v : CDSVec6) (n : Node.t) : Node.t :=
  Node.mk (Node.cls n) (Node.level n) (Node.stateOffset n)
    (Node.massProps_B n) (Node.R_BJ n) (Node.OJ_B n) (Node.refOrigin_P n)
    (Node.OB_P n) (Node.R_PB n) (Node.R_GB n) (Node.OB_G n) (Node.COM_G n)
    (Node.COMstation_G n) (Node.inertia_OB_G n) (Node.Mk n) (Node.phi n)
    (Node.sAcc n) v (Node.b n) (Node.P n) (Node.z n) (Node.tau n)
    (Node.psiT n) (Node.Gepsilon n) (Node.theta n) (Node.H n) (Node.DI n)
    (Node.G n) (Node.dTheta n) (Node.ddTheta n) (Node.nu n)
    (Node.epsilon n) (Node.forceInternal n) (Node.ball n).
Definition Node_set_b (v : CDSVec6) (n : Node.t) : Node.t :=
  Node.mk (Node.cls n) (Node.level n) (Node.stateOffset n)
    (Node.massProps_B n) (Node.R_BJ n) (Node.OJ_B n) (Node.refOrigin_P n)
    (Node.OB_P n) (Node.R_PB n) (Node.R_GB n) (Node.OB_G n) (Node.COM_G n)
    (Node.COMstation_G n) (Node.inertia_OB_G n) (Node.Mk n) (Node.phi n)
    (Node.sAcc n) (Node.a n) v (Node.P n) (Node.z n) (Node.tau n)
    (Node.psiT n) (Node.Gepsilon n) (Node.theta n) (Node.H n) (Node.DI n)
    (Node.G n) (Node.dTheta n) (Node.ddTheta n) (Node.nu n)
    (Node.epsilon n) (Node.forceInternal n) (Node.ball n).

(** The two velocity members of [class RigidBodyNode] that the velocity
    pass writes, [V_PB_G] and [sVel], kept beside the node record: a node
    with its velocities is a pair of a [Node.t] and a [Vel.t]. *)
Module Vel.
Record t := mk { V_PB_G : CDSVec6; sVel : CDSVec6 }.
End Vel.

Definition getSpatialVel (v : Vel.t) : CDSVec6 := Vel.sVel v.
Definition getSpatialAngVel (v : Vel.t) : CDSVec3 := ang (Vel.sVel v).
Definition getSpatialLinVel (v : Vel.t) : CDSVec3 := lin (Vel.sVel v).

(** [getDim]: the number of slots of the state vector the node takes;
    [dof] unless the node has a ball, whose dimension replaces its 3
    rotational degrees of freedom. *)
Definition getDim (n : Node.t) : nat :=
  match Node.cls n with
  | RBNodeRotate3 => getBallDim (Node.ball n)
  | RBNodeTranslateRotate3 => (getBallDim (Node.ball n) + 3)%nat
  | c => dofOf c
  end.

(** [setJointVel].  The free joint passes a local [CDSVec3 dTh] to
    [setBallVel], which always assigns it. *)
Definition setJointVel (velv : RVec) (n : Node.t) : Node.t :=
  match Node.cls n with
  | RBGroundBody => n
  | RBNodeRotate3 =>
      let '(bl, dTh) := setBallVel (Node.stateOffset n) velv
                          (vec3_of_list (Node.dTheta n)) (Node.ball n) in
      Node.set_dTheta (list_of_vec3 dTh) (Node.set_ball bl n)
  | RBNodeTranslateRotate3 =>
      let '(bl, dTh) := setBallVel (Node.stateOffset n) velv vec3_0
                          (Node.ball n) in
      let n := Node.set_ball bl n in
      let n := Node.set_dTheta
                 (setSubVec (Node.dTheta n) 0 (list_of_vec3 dTh)) n in
      Node.set_dTheta
        (setSubVec (Node.dTheta n) 3
           (subVec velv (Node.stateOffset n + getBallDim (Node.ball n)) 3)) n
  | c => Node.set_dTheta (subVec velv (Node.stateOffset n) (dofOf c)) n
  end.

(** [calcJointKinematicsVel]: every joint class has the same body,
    [V_PB_G = transpose(H) * dTheta]. *)
Definition calcJointKinematicsVel (n : Node.t) (v : Vel.t) : Vel.t :=
  Vel.mk (mulHTv (Node.H n) (Node.dTheta n)) (Vel.sVel v).

(** [calcJointIndependentKinematicsVel], base to tip: the spatial
    velocity, the gyroscopic force [b] and the coriolis acceleration
    [a]. *)
Definition calcJointIndependentKinematicsVel (pv : Vel.t) (n : Node.t)
  (v : Vel.t) : Node.t * Vel.t :=
  let v := Vel.mk (Vel.V_PB_G v)
             (vadd6 (phiT_mul (Node.phi n) (getSpatialVel pv))
                    (Vel.V_PB_G v)) in
  let omega := getSpatialAngVel v in
  let gMoment := cross omega (mulMV33 (Node.inertia_OB_G n) omega) in
  let gForce := vscale3 (getMass (Node.massProps_B n))
                  (cross omega (cross omega (Node.COMstation_G n))) in
  let n := Node_set_b (blockVec gMoment gForce) n in
  let vel := getSpatialLinVel v in
  let pOmega := getSpatialAngVel pv in
  let pVel := getSpatialLinVel pv in
  let n := Node_set_a
             (mulMV66 (blockMat22 (crossMat pOmega) zero33
                                  zero33 (crossMat pOmega))
                      (Vel.V_PB_G v)) n in
  let n := Node_set_a
             (vadd6 (Node.a n)
                    (blockVec vec3_0 (cross pOmega (vsub3 vel pVel)))) n in
  (n, v).

(** [setVel]; the ground body's [setVel] is empty. *)
Definition setVel (pv : Vel.t) (velv : RVec) (n : Node.t) (v : Vel.t)
  : Node.t * Vel.t :=
  match Node.cls n with
  | RBGroundBody => (n, v)
  | _ =>
      let n := setJointVel velv n in
      let v := calcJointKinematicsVel n v in
      calcJointIndependentKinematicsVel pv n v
  end.

(** [setVelFromSVel(sVel)], base to tip; [None] is the failure of the
    [assert(!useEuler)] of [setBallDerivs]. *)
Definition setVelFromSVel (pv : Vel.t) (sVel : CDSVec6) (n : Node.t)
  : option Node.t :=
  match Node.cls n with
  | RBGroundBody => Some n
  | c =>
      let n := Node.set_dTheta
                 (mulHv (Node.H n)
                        (vsub6 sVel (phiT_mul (Node.phi n) (Vel.sVel pv)))) n
      in
      match c with
      | RBNodeRotate3 =>
          match setBallDerivs (vec3_of_list (Node.dTheta n)) (Node.ball n)
          with
          | Some bl => Some (Node.set_ball bl n)
          | None => None
          end
      | RBNodeTranslateRotate3 =>
          let omega := vec3_of_list (subVec (Node.dTheta n) 0 3) in
          match setBallDerivs omega (Node.ball n) with
          | Some bl => Some (Node.set_ball bl n)
          | None => None
          end
      | _ => Some n
      end
  end.

(** [getPos], [getVel], [getAccel]: the node writes its block of the
    caller's vector. *)
Definition getPos (p : RVec) (n : Node.t) : RVec :=
  match Node.cls n with
  | RBGroundBody => p
  | RBNodeRotate3 =>
      getBallPos (vec3_of_list (Node.theta n)) (Node.stateOffset n) p
                 (Node.ball n)
  | RBNodeTranslateRotate3 =>
      let p := getBallPos (vec3_of_list (subVec (Node.theta n) 0 3))
                          (Node.stateOffset n) p (Node.ball n) in
      setSubVec p (Node.stateOffset n + getBallDim (Node.ball n))
                (subVec (Node.theta n) 3 3)
  | _ => setSubVec p (Node.stateOffset n) (Node.theta n)
  end.

Definition getVel (p : RVec) (n : Node.t) : RVec :=
  match Node.cls n with
  | RBGroundBody => p
  | RBNodeRotate3 =>
      getBallVel (vec3_of_list (Node.dTheta n)) (Node.stateOffset n) p
                 (Node.ball n)
  | RBNodeTranslateRotate3 =>
      let p := getBallVel (vec3_of_list (subVec (Node.dTheta n) 0 3))
                          (Node.stateOffset n) p (Node.ball n) in
      setSubVec p (Node.stateOffset n + getBallDim (Node.ball n))
                (subVec (Node.dTheta n) 3 3)
  | _ => setSubVec p (Node.stateOffset n) (Node.dTheta n)
  end.

Definition getAccel (p : RVec) (n : Node.t) : RVec :=
  match Node.cls n with
  | RBGroundBody => p
  | RBNodeRotate3 =>
      getBallAccel (vec3_of_list (Node.ddTheta n)) (Node.stateOffset n) p
                   (Node.ball n)
  | RBNodeTranslateRotate3 =>
      let p := getBallAccel (vec3_of_list (subVec (Node.ddTheta n) 0 3))
                            (Node.stateOffset n) p (Node.ball n) in
      setSubVec p (Node.stateOffset n + getBallDim (Node.ball n))
                (subVec (Node.ddTheta n) 3 3)
  | _ => setSubVec p (Node.stateOffset n) (Node.ddTheta n)
  end.

(** [getBallInternalForce]; [None] is the failure of [assert(useEuler)].
    [calcR_PB] must have been called: the trigonometric members are
    read. *)
Definition getBallInternalForce (forceInternal : CDSVec3) (offset : nat)
  (v : RVec) (bl : Ball.t) : option RVec :=
  if Ball.useEuler bl then
    let torque := forceInternal in
    let M := mkMat33 0 0 1
                     (- Ball.sPhi bl) (Ball.cPhi bl) 0
                     (Ball.cPhi bl * Ball.cTheta bl)
                     (Ball.sPhi bl * Ball.cTheta bl) (- Ball.sTheta bl) in
    let eTorque := mulMV33 (mscale33 DEG2RAD M) torque in
    Some (setSubVec v offset (list_of_vec3 eTorque))
  else None.

Definition getInternalForce (t : RVec) (n : Node.t) : option RVec :=
  match Node.cls n with
  | RBGroundBody => Some t
  | RBNodeRotate3 =>
      getBallInternalForce (vec3_of_list (Node.forceInternal n))
                           (Node.stateOffset n) t (Node.ball n)
  | RBNodeTranslateRotate3 =>
      let torque := vec3_of_list (subVec (Node.forceInternal n) 0 3) in
      match getBallInternalForce torque (Node.stateOffset n) t (Node.ball n)
      with
      | Some t =>
          Some (setSubVec t (Node.stateOffset n + getBallDim (Node.ball n))
                          (subVec (Node.forceInternal n) 3 3))
      | None => None
      end
  | _ => Some (setSubVec t (Node.stateOffset n) (Node.forceInternal n))
  end.

(** *** Predicates used to state the properties *)

(** A rotation matrix: both products with its transpose are the
    identity. *)
Definition orthogonal33 (Rm : CDSMat33) : Prop :=
  mmul33 Rm (transpose33 Rm) = ident33 /\
  mmul33 (transpose33 Rm) Rm = ident33.

(** A rotation matrix is an orthogonal matrix of determinant 1. *)
Definition det33 (A : CDSMat33) : R :=
  m00 A * (m11 A * m22 A - m12 A * m21 A)
  - m01 A * (m10 A * m22 A - m12 A * m20 A)
  + m02 A * (m10 A * m21 A - m11 A * m20 A).
Definition rotation33 (Rm : CDSMat33) : Prop :=
  orthogonal33 Rm /\ det33 Rm = 1.

Definition symmetric33 (A : CDSMat33) : Prop := transpose33 A = A.
Definition symmetric66 (A : CDSMat66) : Prop := transpose66 A = A.

(** The Gram matrix [H * transpose(H)] of the rows of [H]. *)
Definition gram (H : list CDSVec6) : FixedMatrixNN :=
  map (fun hi => map (fun hj => dot6 hi hj) H) H.

(** The rows of [H] are images of the basis vectors. *)
Definition e_z : CDSVec3 := mkVec3 0 0 1.
Definition angRow (Q : CDSMat33) (e : CDSVec3) : CDSVec6 :=
  blockVec (mulMV33 Q e) vec3_0.
Definition linRow (Q : CDSMat33) (e : CDSVec3) : CDSVec6 :=
  blockVec vec3_0 (mulMV33 Q e).

(** The rotations about the coordinate axes, from a cosine and a sine. *)
Definition Rz (c s : R) : CDSMat33 := mkMat33 c (- s) 0  s c 0  0 0 1.
Definition Ry (c s : R) : CDSMat33 := mkMat33 c 0 s  0 1 0  (- s) 0 c.
Definition Rx (c s : R) : CDSMat33 := mkMat33 1 0 0  0 c (- s)  0 s c.

(** [transpose(A) * x] for a square matrix given by its rows. *)
Definition mulTNv (A : FixedMatrixNN) (x : FixedVector) : FixedVector :=
  map (fun j => dotN (colN j A) x) (seq 0 (length A)).

(* ================================================================== *)
(** ** Constructors and the node factory *)
(* ================================================================== *)

(** Modelled from the spec: the constructor of the base class is in
    RigidBodyNode.h, which is not part of src/.  It stores its four
    arguments.  The spec asks that the ground's spatial acceleration be
    zero, and no method of the ground assigns it, so [sAcc] starts at
    zero; the other members start at zero and the rotations at the
    identity. *)
Definition RigidBodyNode_ctor (c : NodeClass) (mProps_B : RBMassProperties)
  (originOfB_P : CDSVec3) (rot_BJ : CDSMat33) (originOfJ_B : CDSVec3)
  : Node.t :=
  Node.mk c 0%Z 0%nat mProps_B rot_BJ originOfJ_B
          originOfB_P originOfB_P ident33 ident33
          vec3_0 vec3_0 vec3_0 zero33
          zero66 (mkPhi vec3_0) vec6_0 vec6_0 vec6_0
          zero66 vec6_0 zero66 zero66 vec6_0
          [] [] [] [] [] [] [] [] []
          (fst (ContainedBallJoint 0 true)).

(** Modelled from the spec: the default constructors [RBMassProperties()]
    and [RBFrame()] are in headers that are not part of src/; a massless
    body and the identity frame. *)
Definition RBMassProperties_default : RBMassProperties :=
  mkMassProps 0 vec3_0 zero33.
Definition RBFrame_default : RBFrame := mkFrame ident33 vec3_0.

(** [RBGroundBody()] *)
Definition RBGroundBody_ctor : Node.t :=
  RigidBodyNode_ctor RBGroundBody RBMassProperties_default
                     vec3_0 ident33 vec3_0.

(** [RigidBodyNodeSpec<dof>(mProps_B, jointFrame, cnt)]: the node takes
    the next [dof] slots of the state vector.  The counter, an [int&] of
    the source, is a natural number here: the model covers counters from
    0 for which [cnt + dof] stays at most [INT_MAX], where the [int] does
    not overflow. *)
Definition RigidBodyNodeSpec_ctor (c : NodeClass) (mProps_B : RBMassProperties)
  (jointFrame : RBFrame) (cnt : nat) : Node.t * nat :=
  let dof := dofOf c in
  let n := RigidBodyNode_ctor c mProps_B vec3_0
             (getRot_RF jointFrame) (getLoc_RF jointFrame) in
  (* members of fixed size that the constructor does not initialise *)
  let n := Node.set_H (repeat vec6_0 dof) n in
  let n := Node.set_DI (repeat (zeroN dof) dof) n in
  let n := Node.set_G (repeat vec6_0 dof) n in
  let n := Node.set_nu (zeroN dof) n in
  let n := Node.set_epsilon (zeroN dof) n in
  (* theta(0.), dTheta(0.), ddTheta(0.), forceInternal(0.) *)
  let n := Node.set_theta (zeroN dof) n in
  let n := Node.set_dTheta (zeroN dof) n in
  let n := Node.set_ddTheta (zeroN dof) n in
  let n := Node.set_forceInternal (zeroN dof) n in
  (* stateOffset = cnt; cnt += dof; *)
  (Node.set_stateOffset cnt n, (cnt + dof)%nat).

(** The classes with a ball construct it after their base, on the counter
    the base has advanced. *)
Definition withBall_ctor (c : NodeClass) (mProps_B : RBMassProperties)
  (nextStateOffset : nat) (useEuler : bool) : Node.t * nat :=
  let '(n, cnt) := RigidBodyNodeSpec_ctor c mProps_B RBFrame_default
                     nextStateOffset in
  let '(bl, cnt) := ContainedBallJoint cnt useEuler in
  (Node.set_ball bl n, cnt).

(** Modelled from the spec: [enum JointType] is declared in a header that
    is not part of src/.  These are the enumerators the factory names;
    [UnknownJointType] stands for every other value, which the switch
    sends to [default:]. *)
Inductive JointType :=
| UnknownJointType
| ThisIsGround
| TorsionJoint
| UJoint
| OrientationJoint
| CartesianJoint
| FreeLineJoint
| FreeJoint
| SlidingJoint
| CylinderJoint
| PlanarJoint
| GimbalJoint
| WeldJoint.

(** The joint types the spec lists as supported. *)
Definition supported (type : JointType) : bool :=
  match type with
  | ThisIsGround | TorsionJoint | UJoint | OrientationJoint
  | CartesianJoint | FreeLineJoint | FreeJoint => true
  | _ => false
  end.

(** The class each supported joint type is built as. *)
Definition classOf (type : JointType) : option NodeClass :=
  match type with
  | ThisIsGround => Some RBGroundBody
  | TorsionJoint => Some RBNodeTorsion
  | UJoint => Some RBNodeRotate2
  | OrientationJoint => Some RBNodeRotate3
  | CartesianJoint => Some RBNodeTranslate
  | FreeLineJoint => Some RBNodeTranslateRotate2
  | FreeJoint => Some RBNodeTranslateRotate3
  | _ => None
  end.

(** How [RigidBodyNode::create] ends: an [assert] fails, or it returns the
    new node and leaves the state-offset counter advanced. *)
Inductive Created :=
| AssertionFailed
| NewNode (n : Node.t) (nxtStateOffset : nat).

Definition returned (r : Node.t * nat) : Created := NewNode (fst r) (snd r).

(** [RigidBodyNode::create], with assertions enabled. *)
Definition create (m : RBMassProperties) (jointFrame : RBFrame)
  (type : JointType) (isReversed useEuler : bool) (nxtStateOffset : nat)
  : Created :=
  if isReversed then AssertionFailed (* assert(!isReversed) *)
  else
    match type with
    | ThisIsGround => NewNode RBGroundBody_ctor nxtStateOffset
    | TorsionJoint =>
        returned (RigidBodyNodeSpec_ctor RBNodeTorsion m jointFrame
                                         nxtStateOffset)
    | UJoint =>
        returned (RigidBodyNodeSpec_ctor RBNodeRotate2 m jointFrame
                                         nxtStateOffset)
    | OrientationJoint =>
        returned (withBall_ctor RBNodeRotate3 m nxtStateOffset useEuler)
    | CartesianJoint =>
        returned (RigidBodyNodeSpec_ctor RBNodeTranslate m RBFrame_default
                                         nxtStateOffset)
    | FreeLineJoint =>
        returned (RigidBodyNodeSpec_ctor RBNodeTranslateRotate2 m jointFrame
                                         nxtStateOffset)
    | FreeJoint =>
        returned (withBall_ctor RBNodeTranslateRotate3 m nxtStateOffset
                                useEuler)
    | SlidingJoint | CylinderJoint | PlanarJoint | GimbalJoint | WeldJoint
    | UnknownJointType => AssertionFailed (* default: assert(false) *)
    end.

(* ================================================================== *)
(** ** The complex gesdd wrappers of the LAPACK interface *)
(* ================================================================== *)

Inductive LapackRoutine := cgesdd_ | zgesdd_.

(** One call of the FORTRAN routine, as far as the wrapper decides it. *)
Record LapackCall := mkCall {
  call_routine : LapackRoutine;
  call_jobz : ascii;
  call_m : Z;
  call_n : Z;
  call_lwork : Z;
  call_rwork_size : Z;
  call_iwork_size : Z }.

(** [if (c)] on a [char]: any value but 0 is true. *)
Definition char_true (c : ascii) : bool := negb (Nat.eqb (nat_of_ascii c) 0).

(** The body shared by [gesdd<std::complex<float> >] (on [cgesdd_]) and
    [gesdd<std::complex<double> >] (on [zgesdd_]).  [query] is the size
    the workspace query leaves in [work[0]].  The condition of the source
    is the assignment [jobz = 'N']: it stores ['N'] in [jobz] and tests
    the stored value.  Returns the size given to [rwork] and the two
    calls. *)
Definition gesdd_complex (routine : LapackRoutine)
  (query : ascii -> Z -> Z -> Z) (jobz : ascii) (m n : Z)
  : Z * list LapackCall :=
  let mn := if (m <? n)%Z then m else n in
  let jobz := "N"%char in
  let rwork :=
    if char_true jobz then (5*mn)%Z else (5*mn*mn + 7*mn)%Z in
  let iwork := (8*mn)%Z in
  let lwork := query jobz m n in
  (rwork,
   [ mkCall routine jobz m n (-1) rwork iwork;
     mkCall routine jobz m n lwork rwork iwork ]).

Definition gesdd_cfloat := gesdd_complex cgesdd_.
Definition gesdd_cdouble := gesdd_complex zgesdd_.

(** What the spec asks of the wrappers: compare [jobz] with ['N']. *)
Definition rwork_size_spec (jobz : ascii) (m n : Z) : Z :=
  let mn := Z.min m n in
  if Ascii.eqb jobz "N" then (5*mn)%Z else (5*mn*mn + 7*mn)%Z.

(* ================================================================== *)
(** ** geev for real matrices: unpacking the eigenvectors *)
(* ================================================================== *)

(** [std::complex<double>(re, im)]. *)
Record Complex := complex { real : R; imag : R }.
Definition cconj (c : Complex) : Complex := complex (real c) (- imag c).

(** [static const double EPS = .000001;] *)
Definition EPS : R := 0.000001.

(** An array is a list; reading or writing outside it has no result. *)
Definition aget {A : Type} (l : list A) (k : nat) : option A := nth_error l k.
Definition aset {A : Type} (l : list A) (k : nat) (x : A) : option (list A) :=
  if (k <? length l)%nat then Some (firstn k l ++ x :: skipn (S k) l)
  else None.

Definition obind {A B : Type} (o : option A) (f : A -> option B) : option B :=
  match o with
  | Some a => f a
  | None => None
  end.
Notation "x <- e ;; k" := (obind e (fun x => k))
  (at level 61, e at next level, right associativity).

(** [for (i = i0; i < i0 + cnt; i++) body]. *)
Fixpoint forUp {St : Type} (cnt i : nat) (body : nat -> St -> option St)
  (s : St) : option St :=
  match cnt with
  | O => Some s
  | S cnt' => s' <- body i s ;; forUp cnt' (S i) body s'
  end.

(** The first loop: [values[i] = complex(wr[i], wi[i])] for [i < n]. *)
Definition geev_values (n : nat) (wr wi : list R) (values : list Complex)
  : option (list Complex) :=
  forUp n 0
    (fun i values =>
       re <- aget wr i ;; im <- aget wi i ;; aset values i (complex re im))
    values.

(** Column [j] of a real eigenvalue:
    [rightVectors[j*n+i] = complex(vr[j*n+i], 0.0)]. *)
Definition realColumn (n j : nat) (vr : list R) (rightVectors : list Complex)
  : option (list Complex) :=
  forUp n 0
    (fun i rv => x <- aget vr (j*n+i) ;; aset rv (j*n+i) (complex x 0))
    rightVectors.

(** Columns [j] and [j+1] of a conjugate pair:
    [rightVectors[j*n+i] = complex(vr[j*n+i], vr[(j+1)*n+i])] and
    [rightVectors[(j+1)*n+i] = complex(vr[j*n+i], -vr[(j+1)*n+i])]. *)
Definition pairColumn (n j : nat) (vr : list R) (rightVectors : list Complex)
  : option (list Complex) :=
  forUp n 0
    (fun i rv =>
       x <- aget vr (j*n+i) ;;
       y <- aget vr ((j+1)*n+i) ;;
       rv <- aset rv (j*n+i) (complex x y) ;;
       aset rv ((j+1)*n+i) (complex x (- y)))
    rightVectors.

(** The loop over the columns, [for (j = 0; j < n; j++)], on the entries
    [wi[j], wi[j+1], ...] still to visit: a real eigenvalue
    ([fabs(wi[j]) < EPS]) takes one column, any other takes two (the
    [j++] of the else branch skips the entry after it). *)
Fixpoint repackColumns (n j : nat) (wi_from_j : list R) (vr : list R)
  (rightVectors : list Complex) : option (list Complex) :=
  match wi_from_j with
  | [] => Some rightVectors
  | w :: rest =>
      if Rlt_dec (Rabs w) EPS then
        rv <- realColumn n j vr rightVectors ;;
        repackColumns n (S j) rest vr rv
      else
        rv <- pairColumn n j vr rightVectors ;;
        match rest with
        | [] => Some rv
        | _ :: rest' => repackColumns n (S (S j)) rest' vr rv
        end
  end.

(** What [geev<double>] and [geev<float>] do after the LAPACK call has
    filled [wr], [wi] (of [n] entries each) and [vr] (of [n*n]): returns
    the caller's [values] and [rightVectors]. *)
Definition geev_unpack (wr wi vr : list R) (values rightVectors : list Complex)
  : option (list Complex * list Complex) :=
  let n := length wi in
  values <- geev_values n wr wi values ;;
  rv <- repackColumns n 0 wi vr rightVectors ;;
  Some (values, rv).

(** Column [j] of the column-major [n]x[n] array [vr]. *)
Definition column (n j : nat) (vr : list R) : list R :=
  map (fun i => nth (j*n+i) vr 0) (seq 0 n).

(** The columns the spec asks for: a real eigenvalue keeps its column with
    zero imaginary part; a conjugate pair at columns [j], [j+1] gives
    [vr[:,j] + i vr[:,j+1]] and its conjugate. *)
Fixpoint unpackedColumns (n j : nat) (wi_from_j : list R) (vr : list R)
  : list (list Complex) :=
  match wi_from_j with
  | [] => []
  | w :: rest =>
      if Rlt_dec (Rabs w) EPS then
        map (fun x => complex x 0) (column n j vr) ::
        unpackedColumns n (S j) rest vr
      else
        let c := zipWith complex (column n j vr)
                         (column n (S j) vr) in
        c :: map cconj c ::
        match rest with
        | [] => []
        | _ :: rest' => unpackedColumns n (S (S j)) rest' vr
        end
  end.

(** The imaginary parts come the way LAPACK returns them: every entry
    that is not real is followed by its partner. *)
Inductive wellPaired : list R -> Prop :=
| wp_nil : wellPaired []
| wp_real (w : R) (rest : list R) :
    Rabs w < EPS -> wellPaired rest -> wellPaired (w :: rest)
| wp_pair (w w' : R) (rest : list R) :
    ~ Rabs w < EPS -> wellPaired rest -> wellPaired (w :: w' :: rest).

(* ================================================================== *)
(** ** Double precision *)
(* ================================================================== *)

(** [enforceBallConstraints] once more, on IEEE 754 binary64 numbers, for
    the statements about rounding: every operation is the correctly
    rounded one of the machine ([PrimFloat]). *)
Module Binary64.

#[local] Set Warnings "-inexact-float".
Local Open Scope float_scope.

Record Vec4 := mkVec4 { q0 : float; q1 : float; q2 : float; q3 : float }.

Definition vec4_of_list (l : list float) : Vec4 :=
  mkVec4 (nth 0 l 0) (nth 1 l 0) (nth 2 l 0) (nth 3 l 0).
Definition list_of_vec4 (v : Vec4) : list float := [q0 v; q1 v; q2 v; q3 v].

(** Modelled from the spec: the operators of [CDSVec4] are in a header
    that is not part of src/.  The dot product adds the four products in
    the order of the index, the norm is its square root, and division,
    scaling and subtraction work entry by entry. *)
Definition dot4 (u v : Vec4) : float :=
  q0 u * q0 v + q1 u * q1 v + q2 u * q2 v + q3 u * q3 v.
Definition norm4 (u : Vec4) : float := PrimFloat.sqrt (dot4 u u).
Definition vdiv4 (u : Vec4) (s : float) : Vec4 :=
  mkVec4 (q0 u / s) (q1 u / s) (q2 u / s) (q3 u / s).
Definition vscale4 (s : float) (u : Vec4) : Vec4 :=
  mkVec4 (s * q0 u) (s * q1 u) (s * q2 u) (s * q3 u).
Definition vsub4 (u v : Vec4) : Vec4 :=
  mkVec4 (q0 u - q0 v) (q1 u - q1 v) (q2 u - q2 v) (q3 u - q3 v).

Definition subVec (v : list float) (off n : nat) : list float :=
  firstn n (skipn off v).
Definition setSubVec (v : list float) (off : nat) (vals : list float)
  : list float :=
  firstn off v ++ vals ++ skipn (off + length vals) v.

(** [enforceBallConstraints(offset, posv, velv)] on a ball that holds
    [q] and [dq]: returns the two members and the two vectors. *)
Definition enforceBallConstraints (offset : nat) (posv velv : list float)
  (useEuler : bool) (q dq : Vec4) : Vec4 * Vec4 * list float * list float :=
  if negb useEuler then
    let q := vec4_of_list (subVec posv offset 4) in
    let dq := vec4_of_list (subVec velv offset 4) in
    let q := vdiv4 q (norm4 q) in
    let dq := vsub4 dq (vscale4 (dot4 q dq) q) in
    (q, dq,
     setSubVec posv offset (list_of_vec4 q),
     setSubVec velv offset (list_of_vec4 dq))
  else (q, dq, posv, velv).

(** The rational number a finite binary64 number stands for. *)
Definition exact (x : float) : option Q :=
  match Prim2SF x with
  | S754_zero _ => Some 0%Q
  | S754_finite s m e =>
      Some ((if s then -1 else 1) * inject_Z (Zpos m) * Qpower 2 e)%Q
  | _ => None
  end.

Definition oplus (a b : option Q) : option Q :=
  match a, b with
  | Some x, Some y => Some (x + y)%Q
  | _, _ => None
  end.
Definition otimes (a b : option Q) : option Q :=
  match a, b with
  | Some x, Some y => Some (x * y)%Q
  | _, _ => None
  end.

(** The dot product of two vectors of binary64 numbers, without
    rounding. *)
Definition exactDot4 (u v : Vec4) : option Q :=
  oplus (oplus (oplus (otimes (exact (q0 u)) (exact (q0 v)))
                      (otimes (exact (q1 u)) (exact (q1 v))))
               (otimes (exact (q2 u)) (exact (q2 v))))
        (otimes (exact (q3 u)) (exact (q3 v))).

(** [|q| = 1] and [q . dq = 0] to within [tol], for [0 <= tol < 1]: the
    entries are finite, [(1 - tol)^2 <= q . q <= (1 + tol)^2] and
    [- tol <= q . dq <= tol]. *)
Definition unitTangentWithin (tol : Q) (q dq : Vec4) : Prop :=
  exists n2 d : Q,
    exactDot4 q q = Some n2 /\ exactDot4 q dq = Some d /\
    ((1 - tol) * (1 - tol) <= n2)%Q /\ (n2 <= (1 + tol) * (1 + tol))%Q /\
    (- tol <= d)%Q /\ (d <= tol)%Q.

Definition tol12 : Q := (1 # 1000000000000)%Q.

End Binary64.

(** The largest value of an [int], the type of the state-offset counter
    of the constructors. *)
Definition INT_MAX : Z := 2147483647%Z.

(* ================================================================== *)
(** ** The formulas of the specification *)
(* ================================================================== *)

(** Sums as the spec writes them, over the list of children. *)
Definition sum6 (l : list CDSVec6) : CDSVec6 := fold_right vadd6 vec6_0 l.
Definition sum66 (l : list CDSMat66) : CDSMat66 :=
  fold_right madd66 zero66 l.

(** The conjugation [Phi * M * transpose(Phi)] of a 6x6 matrix by a shift
    operator, with the 6x6 matrix product. *)
Definition shiftConj (phi : PhiMatrix) (M : CDSMat66) : CDSMat66 :=
  mmul66 (mmul66 (phi66 phi) M) (transpose66 (phi66 phi)).

(** The node a [Result] leaves behind. *)
Definition resultNode (r : Result) : Node.t :=
  match r with
  | Normal n => n
  | Throws _ _ n => n
  end.

(** [calcZ] has run on a node. *)
Definition calcZ_done (c : Node.t) : Prop :=
  exists grandchildren f c0,
    Node.cls c0 <> RBGroundBody /\ c = calcZ grandchildren f c0.

(** The position pass has run on [c] as the child of a parent that had
    the body origin [n] has now. *)
Definition positioned_under (n c : Node.t) : Prop :=
  exists p c0,
    Node.OB_G p = Node.OB_G n /\ c = calcJointIndependentKinematicsPos p c0.

(** The residual that [calcInternalForce] leaves in [z]:
    [- f + sum over the children of Phi_child * z_child]. *)
Definition internalForce_z (children : list Node.t) (f : CDSVec6) : CDSVec6 :=
  vadd6 (vneg6 f)
        (sum6 (map (fun c => phi_mul (Node.phi c) (Node.z c)) children)).

(** A pass of [calcInternalForce] calls on one node, each with the
    children's states and the spatial force of that call. *)
Definition calcInternalForce_calls
  (calls : list (list Node.t * CDSVec6)) (n : Node.t) : Node.t :=
  fold_left (fun nd call => calcInternalForce (fst call) (snd call) nd)
            calls n.

Definition e_x : CDSVec3 := mkVec3 1 0 0.
Definition e_y : CDSVec3 := mkVec3 0 1 0.

(** The classes that contain a ball joint. *)
Definition hasBall (n : Node.t) : Prop :=
  Node.cls n = RBNodeRotate3 \/ Node.cls n = RBNodeTranslateRotate3.

(* ================================================================== *)
(** ** Concrete nodes *)
(* ================================================================== *)

(** A unit-mass body with unit inertia about its origin. *)
Definition unitBody : RBMassProperties := mkMassProps 1 vec3_0 ident33.

Definition theGround : Node.t := RBGroundBody_ctor.

(** A torsion node as the factory's constructor leaves it, and the same
    node after the position pass under the ground. *)
Definition torsion0 : Node.t :=
  fst (RigidBodyNodeSpec_ctor RBNodeTorsion unitBody RBFrame_default 0).
Definition torsion1 : Node.t := setPos vec3_0 theGround [0] torsion0.

(** A child of [torsion1], positioned under it. *)
Definition torsionChild : Node.t :=
  calcJointIndependentKinematicsPos torsion1 torsion0.

(** A quaternion ball node and an Euler ball. *)
Definition quatBallNode : Node.t :=
  fst (withBall_ctor RBNodeRotate3 unitBody 0 false).
Definition eulerBall : Ball.t := fst (ContainedBallJoint 0 true).
Definition quatBall : Ball.t := fst (ContainedBallJoint 0 false).

(** A torsion node about the z axis with unit articulated inertia, and
    one whose joint matrix [H] is zero. *)
Definition torsionUnit : Node.t :=
  Node.set_Mk ident66
    (Node.set_H [blockVec (mkVec3 0 0 1) vec3_0] torsion0).
Definition torsionDegenerate : Node.t :=
  Node.set_Mk ident66 (Node.set_H [vec6_0] torsion0).

(** A quaternion ball node whose joint matrix has the three angular unit
    rows, and its parent's velocities at rest. *)
Definition ballUnit : Node.t :=
  Node.set_H [angRow ident33 e_x; angRow ident33 e_y; angRow ident33 e_z]
             quatBallNode.
Definition atRest : Vel.t := Vel.mk vec6_0 vec6_0.


(** The state [calcP] leaves in [torsionUnit] as a tip: [P] is the unit
    inertia and [tau] removes the joint's axis. *)
Definition torsionTip : Node.t :=
  Node.set_tau
    (msub66 ident66 (outer6 (blockVec (mkVec3 0 0 1) vec3_0)
                            (blockVec (mkVec3 0 0 1) vec3_0)))
    (Node.set_P ident66 torsionUnit).
(** *** Tactics for the componentwise identities *)

Ltac destruct_alg :=
  repeat match goal with
         | v : CDSVec3 |- _ => destruct v
         | m : CDSMat33 |- _ => destruct m
         | v : CDSVec6 |- _ => destruct v
         | m : CDSMat66 |- _ => destruct m
         | p : PhiMatrix |- _ => destruct p
         end.

Ltac alg_unfold :=
  cbv beta iota zeta delta
    [mul_phiT phi66 phi_mul phiT_mul mulMV66 transpose66 mmul66
     msub66 madd66 dot6 vscale6 vneg6 vsub6 vadd6 ident66 zero66
     vec6_0 orthoTransform33 mulMV33 transpose33 mmul33 mscale33
     mneg33 msub33 madd33 crossMat cross dot3 vscale3 vneg3 vsub3
     vadd3 ident33 makeIdentity33 zero33 vec3_0
     vx vy vz m00 m01 m02 m10 m11 m12 m20 m21 m22
     ang lin b11 b12 b21 b22 phi_l] in *.

Ltac split_eq :=
  repeat match goal with
         | |- @eq ?T _ _ =>
             lazymatch T with
             | R => fail
             | _ => f_equal
             end
         end.

Ltac alg := intros; destruct_alg; alg_unfold; split_eq; ring.

Lemma crossMat_mul (v w : CDSVec3) : mulMV33 (crossMat v) w = cross v w.
Proof. alg. Qed.

Lemma crossMat_transpose (v : CDSVec3) :
  transpose33 (crossMat v) = mneg33 (crossMat v).
Proof. alg. Qed.

Lemma phi66_mul (phi : PhiMatrix) (v : CDSVec6) :
  mulMV66 (phi66 phi) v = phi_mul phi v.
Proof. alg. Qed.

Lemma phi66T_mul (phi : PhiMatrix) (v : CDSVec6) :
  mulMV66 (transpose66 (phi66 phi)) v = phiT_mul phi v.
Proof. alg. Qed.

Lemma vadd6_assoc (a b c : CDSVec6) :
  vadd6 (vadd6 a b) c = vadd6 a (vadd6 b c).
Proof. alg. Qed.

Lemma vadd6_0_r (a : CDSVec6) : vadd6 a vec6_0 = a.
Proof. alg. Qed.

Lemma madd66_assoc (a b c : CDSMat66) :
  madd66 (madd66 a b) c = madd66 a (madd66 b c).
Proof. alg. Qed.

Lemma madd66_0_r (a : CDSMat66) : madd66 a zero66 = a.
Proof. alg. Qed.

(** *** The list-based products are the matrix products *)

Lemma outer6_mul (g h v : CDSVec6) :
  mulMV66 (outer6 g h) v = vscale6 (dot6 h v) g.
Proof.
  destruct g as [[g0 g1 g2] [g3 g4 g5]], h as [[h0 h1 h2] [h3 h4 h5]],
           v as [[v0 v1 v2] [v3 v4 v5]].
  unfold mulMV66, outer6, outer3, vscale6, vscale3, dot6, dot3, mulMV33, vadd3.
  simpl. f_equal; f_equal; ring.
Qed.

Lemma mulMV66_madd (A B : CDSMat66) (v : CDSVec6) :
  mulMV66 (madd66 A B) v = vadd6 (mulMV66 A v) (mulMV66 B v).
Proof. alg. Qed.

Lemma mulMV66_zero (v : CDSVec6) : mulMV66 zero66 v = vec6_0.
Proof. alg. Qed.

(** [(G * H) * v = G * (H * v)]: [mulGH] is the product of the 6x[dof]
    matrix [G] and the [dof]x6 matrix [H]. *)
Lemma mulGH_mul (G H : list CDSVec6) (v : CDSVec6) :
  length G = length H ->
  mulMV66 (mulGH G H) v = mulGv G (mulHv H v).
Proof.
  revert H. unfold mulGv, mulHv.
  induction G as [|g G IH]; intros [|h H] Hlen; try discriminate Hlen; simpl.
  - apply mulMV66_zero.
  - rewrite mulMV66_madd, outer6_mul, IH by (simpl in Hlen; lia).
    reflexivity.
Qed.

(** [transpose(phi) * V] adds [w x l] to the linear part and [phi * F]
    adds [l x f] to the moment, as the spec asks of the shift operator. *)
Lemma shift_operator_action (l w v f m : CDSVec3) :
  phiT_mul (mkPhi l) (blockVec w v) = blockVec w (vadd3 v (cross w l)) /\
  phi_mul (mkPhi l) (blockVec m f) = blockVec (vadd3 m (cross l f)) f.
Proof. split; reflexivity. Qed.

Lemma lincomb_nil_r (X : list CDSVec6) : lincomb X [] = vec6_0.
Proof. destruct X; reflexivity. Qed.

Lemma mulMV66_lincomb (P : CDSMat66) (X : list CDSVec6) (c : FixedVector) :
  mulMV66 P (lincomb X c) = lincomb (map (mulMV66 P) X) c.
Proof.
  revert c. induction X as [|x X IH]; intros [|a c]; simpl;
    try (destruct_alg; alg_unfold; split_eq; ring).
  rewrite <- IH.
  generalize (lincomb X c). intros y. alg.
Qed.

(** The columns [r_j * x], combined with the coefficients [e], give
    [(row . e) * x]. *)
Lemma lincomb_scaled_columns (x : CDSVec6) (row e : list R) :
  length row = length e ->
  lincomb (map (fun r => vscale6 r x) row) e = vscale6 (dotN row e) x.
Proof.
  revert e. unfold dotN, sumN.
  induction row as [|r row IH]; intros [|a e] Hlen; try discriminate Hlen;
    simpl.
  - alg.
  - rewrite IH by (simpl in Hlen; lia).
    generalize (fold_right Rplus 0 (zipWith Rmult row e)). intros s. alg.
Qed.

Lemma lincomb_add_columns (A B : list CDSVec6) (e : list R) :
  length A = length B ->
  lincomb (zipWith vadd6 A B) e = vadd6 (lincomb A e) (lincomb B e).
Proof.
  revert B e.
  induction A as [|a A IH]; intros [|b B] e Hlen; try discriminate Hlen.
  - simpl. alg.
  - destruct e as [|x e]; simpl; [alg|].
    rewrite IH by (simpl in Hlen; lia).
    generalize (lincomb A e) (lincomb B e). intros u v. alg.
Qed.

Lemma map_nth_seq (row : list R) :
  map (fun j => nth j row 0) (seq 0 (length row)) = row.
Proof.
  induction row as [|r row IH]; [reflexivity|].
  simpl. f_equal. rewrite <- seq_shift, map_map. exact IH.
Qed.

(** The columns of [X * DI], for generators [X] and the rows of [DI]. *)
Lemma columns_cons (x : CDSVec6) (X : list CDSVec6) (row : list R)
  (DI : FixedMatrixNN) (m : nat) :
  length row = m ->
  map (fun j => lincomb (x :: X) (colN j (row :: DI))) (seq 0 m) =
  zipWith vadd6 (map (fun r => vscale6 r x) row)
                (map (fun j => lincomb X (colN j DI)) (seq 0 m)).
Proof.
  intros Hlen. subst m.
  rewrite <- (map_nth_seq row) at 2.
  rewrite map_map.
  generalize (seq 0 (length row)). intros js.
  induction js as [|j js IH]; [reflexivity|].
  cbn [map zipWith]. rewrite <- IH. reflexivity.
Qed.

(** [G * e = P * (transpose(H) * (DI * e))]: [mulP_HT_DI] is the product
    [P * transpose(H) * DI]. *)
Lemma mulP_HT_DI_mul (P : CDSMat66) (H : list CDSVec6) (DI : FixedMatrixNN)
  (e : FixedVector) :
  squareN (length H) DI -> length e = length H ->
  mulGv (mulP_HT_DI P H DI) e = mulMV66 P (mulHTv H (mulNv DI e)).
Proof.
  intros [HlenDI Hrows] Hlen.
  unfold mulGv, mulHTv, mulP_HT_DI, mulNv.
  rewrite mulMV66_lincomb.
  generalize (map (mulMV66 P) H) (eq_sym (length_map (mulMV66 P) H)).
  intros X HX. rewrite HX in HlenDI, Hrows, Hlen.
  assert (Hgen : forall m, length e = m ->
            Forall (fun row => length row = m) DI ->
            length DI = length X ->
            lincomb (map (fun j => lincomb X (colN j DI)) (seq 0 m)) e =
            lincomb X (map (fun row => dotN row e) DI)).
  { clear. intros m Hm. revert DI.
    induction X as [|x X IH]; intros [|row DI] Hrows HlenDI;
      try discriminate HlenDI.
    - simpl. clear. revert e. generalize 0%nat.
      induction m as [|m IHm]; intros s [|a e]; simpl; try reflexivity.
      rewrite IHm. alg.
    - inversion Hrows as [|? ? Hrow Hrows']; subst.
      rewrite columns_cons by exact Hrow.
      rewrite lincomb_add_columns
        by (rewrite !length_map, length_seq; exact Hrow).
      rewrite lincomb_scaled_columns by congruence.
      rewrite IH by (try assumption; simpl in HlenDI; lia).
      reflexivity. }
  rewrite HX. apply Hgen; assumption.
Qed.
Lemma sum6_fold_left (f : CDSVec6 -> Node.t -> CDSVec6) (g : Node.t -> CDSVec6)
  (children : list Node.t) (z0 : CDSVec6) :
  (forall z c, f z c = vadd6 z (g c)) ->
  fold_left f children z0 = vadd6 z0 (sum6 (map g children)).
Proof.
  intros Hf. revert z0.
  induction children as [|c cs IH]; intros z0; simpl.
  - now rewrite vadd6_0_r.
  - rewrite IH, Hf, vadd6_assoc. reflexivity.
Qed.

Lemma sum66_fold_left (f : CDSMat66 -> Node.t -> CDSMat66)
  (g : Node.t -> CDSMat66) (children : list Node.t) (P0 : CDSMat66) :
  (forall P c, f P c = madd66 P (g c)) ->
  fold_left f children P0 = madd66 P0 (sum66 (map g children)).
Proof.
  intros Hf. revert P0.
  induction children as [|c cs IH]; intros P0; simpl.
  - now rewrite madd66_0_r.
  - rewrite IH, Hf, madd66_assoc. reflexivity.
Qed.

(** *** calcP: the block-wise accumulation is the shift conjugation *)

(** The four block updates of one turn of the loop add
    [Phi(r) * M * transpose(Phi(r))] to [P], for the offset
    [r = OB_G child - OB_G] and [M = tau_child * P_child]. *)
Lemma calcP_child_shiftConj (n : Node.t) (P : CDSMat66) (child : Node.t) :
  calcP_child n P child =
  madd66 P (shiftConj (mkPhi (vsub3 (getOB_G child) (getOB_G n)))
                      (mmul66 (Node.tau child) (Node.P child))).
Proof.
  unfold calcP_child, shiftConj.
  generalize (mmul66 (Node.tau child) (Node.P child)).
  generalize (vsub3 (getOB_G child) (getOB_G n)).
  intros r M. alg.
Qed.

(** After the position pass of a child under [n], the child's [phi] is
    the shift by the offset between the two body origins. *)
Lemma positioned_phi (n c : Node.t) :
  positioned_under n c ->
  Node.phi c = mkPhi (vsub3 (getOB_G c) (getOB_G n)).
Proof.
  intros (p & c0 & Hp & ->).
  unfold calcJointIndependentKinematicsPos, getOB_G, getOP_G.
  simpl. rewrite <- Hp. f_equal.
  generalize (mulMV33 (getR_GP p) (Node.OB_P c0)). generalize (Node.OB_G p).
  alg.
Qed.

Lemma calcP_stores_sum (children : list Node.t) (n : Node.t) :
  Node.cls n <> RBGroundBody ->
  Node.P (resultNode (calcP children n)) = calcP_sum children n.
Proof.
  intros Hc. unfold calcP.
  destruct (Node.cls n) eqn:E; try congruence;
    unfold calcD_G; simpl;
    destruct (inverse _); reflexivity.
Qed.

(** The block product [mmul66] is the 6x6 matrix product. *)
Lemma mmul66_entry (A B : CDSMat66) (i j : nat) :
  (i < 6)%nat -> (j < 6)%nat ->
  get66 (mmul66 A B) i j =
  sumN (map (fun k => get66 A i k * get66 B k j) (seq 0 6)).
Proof.
  intros Hi Hj. destruct_alg.
  do 6 (destruct i as [|i]; [
    do 6 (destruct j as [|j]; [cbn; ring|]); exfalso; lia |]).
  exfalso; lia.
Qed.

(** C3.  The block-wise accumulation of [calcP] is the conjugation by the
    shift operator: one turn of the loop adds
    [Phi(r) * (tau_child * P_child) * transpose(Phi(r))] for the offset
    [r = OB_G child - OB_G]; so [calcP] leaves
    [P = Mk + sum over the children of Phi(r) * (tau * P) * transpose(Phi(r))],
    and [Phi(r)] is the [phi] the child stores once the position pass has
    run on it. *)
Theorem calcP_blockwise_is_shift_conjugation
  (n : Node.t) (children : list Node.t) :
  (forall P child,
      calcP_child n P child =
      madd66 P (shiftConj (mkPhi (vsub3 (getOB_G child) (getOB_G n)))
                          (mmul66 (Node.tau child) (Node.P child)))) /\
  (Node.cls n <> RBGroundBody ->
   Node.P (resultNode (calcP children n)) =
   madd66 (Node.Mk n)
     (sum66 (map (fun c =>
                    shiftConj (mkPhi (vsub3 (getOB_G c) (getOB_G n)))
                              (mmul66 (Node.tau c) (Node.P c)))
                 children))) /\
  (Node.cls n <> RBGroundBody ->
   Forall (positioned_under n) children ->
   Node.P (resultNode (calcP children n)) =
   madd66 (Node.Mk n)
     (sum66 (map (fun c =>
                    shiftConj (Node.phi c)
                              (mmul66 (Node.tau c) (Node.P c)))
                 children))).
Proof.
  assert (Hsum : Node.cls n <> RBGroundBody ->
    Node.P (resultNode (calcP children n)) =
    madd66 (Node.Mk n)
      (sum66 (map (fun c =>
                     shiftConj (mkPhi (vsub3 (getOB_G c) (getOB_G n)))
                               (mmul66 (Node.tau c) (Node.P c)))
                  children))).
  { intros Hc. rewrite calcP_stores_sum by assumption.
    unfold calcP_sum. apply sum66_fold_left.
    intros P c. apply calcP_child_shiftConj. }
  split; [|split].
  - intros P child. apply calcP_child_shiftConj.
  - exact Hsum.
  - intros Hc Hpos. rewrite Hsum by assumption. f_equal. f_equal.
    apply map_ext_in. intros c Hin.
    rewrite Forall_forall in Hpos.
    now rewrite (positioned_phi n c (Hpos c Hin)).
Qed.

Lemma calcP_blockwise_is_shift_conjugation_witness :
  Node.P (resultNode (calcP [torsionChild] torsion1)) =
  madd66 (Node.Mk torsion1)
    (sum66 (map (fun c =>
                   shiftConj (Node.phi c) (mmul66 (Node.tau c) (Node.P c)))
                [torsionChild])).
Proof.
  apply (proj2 (proj2
           (calcP_blockwise_is_shift_conjugation torsion1 [torsionChild]))).
  - simpl. discriminate.
  - constructor; [|constructor].
    exists torsion1, torsion0. split; reflexivity.
Defined.

(** *** calcZ *)

Lemma calcZ_Gepsilon (c : Node.t) :
  calcZ_done c -> Node.Gepsilon c = mulGv (Node.G c) (Node.epsilon c).
Proof.
  intros (gc & f & c0 & Hc & ->). unfold calcZ.
  destruct (Node.cls c0); try congruence; reflexivity.
Qed.

(** C1.  On a node that is not the ground and whose children have been
    through [calcZ], [calcZ(f)] leaves
    [z = P*a + b - f + sum over the children of
         Phi_child * (z_child + G_child * epsilon_child)],
    [epsilon = forceInternal - H*z], [nu = DI*epsilon] and
    [Gepsilon = G*epsilon]. *)
Theorem calcZ_residual (n : Node.t) (children : list Node.t) (f : CDSVec6) :
  Node.cls n <> RBGroundBody ->
  Forall calcZ_done children ->
  let n' := calcZ children f n in
  Node.z n' =
    vadd6 (vsub6 (vadd6 (mulMV66 (Node.P n) (Node.a n)) (Node.b n)) f)
          (sum6 (map (fun c =>
                        phi_mul (Node.phi c)
                          (vadd6 (Node.z c)
                                 (mulGv (Node.G c) (Node.epsilon c))))
                     children)) /\
  Node.epsilon n' = vsubN (Node.forceInternal n) (mulHv (Node.H n) (Node.z n')) /\
  Node.nu n' = mulNv (Node.DI n) (Node.epsilon n') /\
  Node.Gepsilon n' = mulGv (Node.G n) (Node.epsilon n').
Proof.
  intros Hc Hdone n'.
  assert (Hz : Node.z n' =
    fold_left calcZ_child children
      (vsub6 (vadd6 (mulMV66 (Node.P n) (Node.a n)) (Node.b n)) f)).
  { subst n'. unfold calcZ. destruct (Node.cls n); try congruence; reflexivity. }
  split; [|subst n'; unfold calcZ;
            destruct (Node.cls n); try congruence; repeat split].
  rewrite Hz.
  rewrite (sum6_fold_left calcZ_child
             (fun c => phi_mul (Node.phi c)
                         (vadd6 (Node.z c) (Node.Gepsilon c))))
    by reflexivity.
  f_equal. f_equal. apply map_ext_in. intros c Hin.
  rewrite Forall_forall in Hdone.
  now rewrite (calcZ_Gepsilon c (Hdone c Hin)).
Qed.

Lemma calcZ_residual_witness :
  let n' := calcZ [calcZ [] vec6_0 torsionChild] vec6_0 torsion1 in
  Node.nu n' = mulNv (Node.DI torsion1) (Node.epsilon n').
Proof.
  apply (calcZ_residual torsion1 [calcZ [] vec6_0 torsionChild] vec6_0).
  - simpl. discriminate.
  - constructor; [|constructor].
    exists [], vec6_0, torsionChild. split; [simpl; discriminate|reflexivity].
Defined.

(** *** calcAccel *)

Lemma vec3_of_list_firstn (l : list R) :
  vec3_of_list (subVec l 0 3) = vec3_of_list l.
Proof.
  unfold subVec, vec3_of_list. simpl skipn.
  destruct l as [|x0 [|x1 [|x2 l]]]; reflexivity.
Qed.

(** The 4x3 matrix of [calcBallAccel] and [setBallDerivs] is the transpose
    of the 3x4 matrix [M(q)] of [setBallVel]. *)
Lemma Mq43_transpose (q : CDSVec4) : Mq43 q = transpose34 (Mq34 q).
Proof. destruct q. reflexivity. Qed.

(** [Mq43] is linear in [q]: along a trajectory its time derivative is
    [Mq43] of the derivative of [q]. *)
Lemma Mq43_linear (s t : R) (p q : CDSVec4) (w : CDSVec3) :
  mul43 (Mq43 (vadd4 (vscale4 s p) (vscale4 t q))) w =
  vadd4 (vscale4 s (mul43 (Mq43 p) w)) (vscale4 t (mul43 (Mq43 q) w)).
Proof.
  destruct p, q, w. unfold mul43, Mq43, vadd4, vscale4, dot3. simpl.
  f_equal; ring.
Qed.

(** C2.  On a node that is not the ground, [calcAccel] shifts the parent's
    spatial acceleration, [alphap = transpose(phi) * sAcc_parent], and
    leaves [ddTheta = nu - transpose(G) * alphap] and
    [sAcc = alphap + transpose(H) * ddTheta + a]; a quaternion ball also
    gets [ddq = 1/2 * (M(dq) * omega + M(q) * dOmega)] from the angular
    velocity [omega] and the new angular acceleration [dOmega]; on the
    ground [calcAccel] does nothing, and the ground's [sAcc] is zero. *)
Theorem calcAccel_equations (parent n : Node.t) :
  let alphap := phiT_mul (Node.phi n) (Node.sAcc parent) in
  let n' := calcAccel parent n in
  (Node.cls n <> RBGroundBody ->
   Node.ddTheta n' = vsubN (Node.nu n) (mulGTv (Node.G n) alphap) /\
   Node.sAcc n' =
     vadd6 (vadd6 alphap (mulHTv (Node.H n) (Node.ddTheta n'))) (Node.a n)) /\
  (hasBall n -> Ball.useEuler (Node.ball n) = false ->
   Ball.ddq (Node.ball n') =
     vscale4 (1/2)
       (vadd4 (mul43 (Mq43 (Ball.dq (Node.ball n)))
                     (vec3_of_list (Node.dTheta n)))
              (mul43 (Mq43 (Ball.q (Node.ball n)))
                     (vec3_of_list (Node.ddTheta n'))))) /\
  (Node.cls n = RBGroundBody -> n' = n) /\
  Node.sAcc (calcAccel parent theGround) = vec6_0.
Proof.
  intros alphap n'. subst alphap n'. unfold calcAccel, calcJointAccel.
  repeat split.
  - destruct (Node.cls n) eqn:E; try congruence; simpl; rewrite E; reflexivity.
  - destruct (Node.cls n) eqn:E; try congruence; simpl; rewrite E; reflexivity.
  - intros [E|E] Hq; rewrite E; simpl; rewrite E; simpl;
      unfold calcBallAccel; rewrite Hq; simpl;
      rewrite ?vec3_of_list_firstn; reflexivity.
  - intros E. rewrite E. reflexivity.
Qed.

Lemma calcAccel_equations_witness :
  let n' := calcAccel theGround quatBallNode in
  Ball.ddq (Node.ball n') =
    vscale4 (1/2)
      (vadd4 (mul43 (Mq43 (Ball.dq (Node.ball quatBallNode)))
                    (vec3_of_list (Node.dTheta quatBallNode)))
             (mul43 (Mq43 (Ball.q (Node.ball quatBallNode)))
                    (vec3_of_list (Node.ddTheta n')))).
Proof.
  apply (proj1 (proj2 (calcAccel_equations theGround quatBallNode))).
  - left. reflexivity.
  - reflexivity.
Defined.

(** *** setPos and calcInternalForce *)

(** The assignments of the position pass to members other than
    [forceInternal] leave [forceInternal] and the class alone. *)
Lemma calcJointIndependentKinematicsPos_keeps (parent n : Node.t) :
  let n' := calcJointIndependentKinematicsPos parent n in
  Node.forceInternal n' = Node.forceInternal n /\
  Node.H n' = Node.H n /\ Node.cls n' = Node.cls n.
Proof. repeat split. Qed.

Lemma calcR_PB_cases (th : CDSVec3) (bl : Ball.t) :
  exists bl' R, calcR_PB th bl = (bl', R).
Proof. destruct (calcR_PB th bl) as [bl' R]. now exists bl', R. Qed.

Lemma calcJointKinematicsPos_keeps (parent n : Node.t) :
  let n' := calcJointKinematicsPos parent n in
  Node.forceInternal n' = Node.forceInternal n /\
  Node.cls n' = Node.cls n /\
  length (Node.H n') =
    match Node.cls n with
    | RBGroundBody => length (Node.H n)
    | c => dofOf c
    end.
Proof.
  unfold calcJointKinematicsPos, rotate2_xy.
  destruct (Node.cls n) eqn:E; simpl; try (repeat split; assumption).
  - destruct (calcR_PB _ _) as [bl R]. repeat split; assumption.
  - destruct (calcR_PB _ _) as [bl R]. repeat split; assumption.
Qed.

Lemma setJointPos_keeps (th0 : CDSVec3) (posv : RVec) (n : Node.t) :
  let n' := setJointPos th0 posv n in
  Node.forceInternal n' = Node.forceInternal n /\
  Node.cls n' = Node.cls n.
Proof.
  unfold setJointPos.
  destruct (Node.cls n) eqn:E; simpl; try (repeat split; assumption).
  - destruct (setBallPos _ _ _ _) as [bl th]. repeat split; assumption.
  - destruct (setBallPos _ _ _ _) as [bl th]. repeat split; assumption.
Qed.

Lemma setPos_forceInternal (th0 : CDSVec3) (parent : Node.t) (posv : RVec)
  (n : Node.t) :
  Node.cls n <> RBGroundBody ->
  let n' := setPos th0 parent posv n in
  Node.forceInternal n' = zeroN (dofOf (Node.cls n)) /\
  length (Node.H n') = dofOf (Node.cls n) /\
  Node.cls n' = Node.cls n.
Proof.
  intros Hc n'. subst n'. unfold setPos.
  set (n1 := Node.set_forceInternal (zeroN (dofOf (Node.cls n))) n).
  assert (H1 : Node.cls n1 = Node.cls n) by reflexivity.
  assert (F1 : Node.forceInternal n1 = zeroN (dofOf (Node.cls n)))
    by reflexivity.
  destruct (setJointPos_keeps th0 posv n1) as [F2 C2].
  destruct (calcJointKinematicsPos_keeps parent (setJointPos th0 posv n1))
    as (F3 & C3 & L3).
  destruct (calcJointIndependentKinematicsPos_keeps parent
              (calcJointKinematicsPos parent (setJointPos th0 posv n1)))
    as (F4 & H4 & C4).
  cbv zeta in *.
  assert (Goal' :
    let n' := calcJointIndependentKinematicsPos parent
                (calcJointKinematicsPos parent (setJointPos th0 posv n1)) in
    Node.forceInternal n' = zeroN (dofOf (Node.cls n)) /\
    length (Node.H n') = dofOf (Node.cls n) /\ Node.cls n' = Node.cls n).
  { cbv zeta. repeat split.
    - congruence.
    - rewrite H4, L3, C2, H1. destruct (Node.cls n); congruence.
    - congruence. }
  destruct (Node.cls n) eqn:E; try congruence; exact Goal'.
Qed.

Lemma setPos_forgets (th0 : CDSVec3) (parent : Node.t) (posv : RVec)
  (v : FixedVector) (n : Node.t) :
  Node.cls n <> RBGroundBody ->
  setPos th0 parent posv (Node.set_forceInternal v n) =
  setPos th0 parent posv n.
Proof.
  intros Hc. unfold setPos.
  change (Node.cls (Node.set_forceInternal v n)) with (Node.cls n).
  change (Node.set_forceInternal (zeroN (dofOf (Node.cls n)))
            (Node.set_forceInternal v n))
    with (Node.set_forceInternal (zeroN (dofOf (Node.cls n))) n).
  destruct (Node.cls n); try congruence; reflexivity.
Qed.

Lemma vaddN_zero_l (x : FixedVector) : vaddN (zeroN (length x)) x = x.
Proof.
  unfold vaddN, zeroN. induction x as [|a x IH]; simpl; [reflexivity|].
  rewrite IH. f_equal. ring.
Qed.

Lemma calcInternalForce_step (children : list Node.t) (f : CDSVec6)
  (n : Node.t) :
  Node.cls n <> RBGroundBody ->
  let n' := calcInternalForce children f n in
  Node.z n' = internalForce_z children f /\
  Node.forceInternal n' =
    vaddN (Node.forceInternal n) (mulHv (Node.H n) (internalForce_z children f)) /\
  Node.H n' = Node.H n /\ Node.cls n' = Node.cls n.
Proof.
  intros Hc n'.
  assert (Hz : fold_left calcInternalForce_child children (vneg6 f) =
               internalForce_z children f).
  { unfold internalForce_z.
    now apply (sum6_fold_left calcInternalForce_child
                 (fun c => phi_mul (Node.phi c) (Node.z c))). }
  subst n'. unfold calcInternalForce.
  destruct (Node.cls n) eqn:E; try congruence; simpl; rewrite Hz;
    repeat split; assumption.
Qed.

Lemma calcInternalForce_calls_sum (calls : list (list Node.t * CDSVec6))
  (n : Node.t) :
  Node.cls n <> RBGroundBody ->
  Node.forceInternal (calcInternalForce_calls calls n) =
  fold_left (fun acc call =>
               vaddN acc (mulHv (Node.H n)
                                (internalForce_z (fst call) (snd call))))
            calls (Node.forceInternal n).
Proof.
  unfold calcInternalForce_calls. revert n.
  induction calls as [|[cs f] calls IH]; intros n Hc; simpl; [reflexivity|].
  destruct (calcInternalForce_step cs f n Hc) as (_ & HF & HH & HC).
  rewrite IH by congruence. rewrite HF, HH. reflexivity.
Qed.

(** C10.  On a node that is not the ground, [setPos] zeroes
    [forceInternal] before it recomputes the kinematics, whatever
    [forceInternal] held; so after [setPos] a pass of [calcInternalForce]
    calls, each adding [H * z] for its residual
    [z = - f + sum over the children of Phi_child * z_child], leaves in
    [forceInternal] the sum of those terms only, and a single call leaves
    [H * z]. *)
Theorem setPos_resets_forceInternal (th0 : CDSVec3) (parent : Node.t)
  (posv : RVec) (n : Node.t) :
  Node.cls n <> RBGroundBody ->
  let n1 := setPos th0 parent posv n in
  Node.forceInternal n1 = zeroN (dofOf (Node.cls n)) /\
  (forall v, setPos th0 parent posv (Node.set_forceInternal v n) = n1) /\
  (forall calls,
      Node.forceInternal (calcInternalForce_calls calls n1) =
      fold_left (fun acc call =>
                   vaddN acc (mulHv (Node.H n1)
                                    (internalForce_z (fst call) (snd call))))
                calls (zeroN (dofOf (Node.cls n)))) /\
  (forall children f,
      Node.forceInternal (calcInternalForce children f n1) =
      mulHv (Node.H n1) (internalForce_z children f)).
Proof.
  intros Hc n1.
  destruct (setPos_forceInternal th0 parent posv n Hc) as (HF & HL & HC).
  fold n1 in HF, HL, HC.
  assert (Hc1 : Node.cls n1 <> RBGroundBody) by congruence.
  repeat split.
  - exact HF.
  - intros v. now apply setPos_forgets.
  - intros calls. rewrite calcInternalForce_calls_sum by assumption.
    now rewrite HF.
  - intros children f.
    destruct (calcInternalForce_step children f n1 Hc1) as (_ & HF' & _).
    rewrite HF', HF, <- HL.
    replace (length (Node.H n1))
      with (length (mulHv (Node.H n1) (internalForce_z children f)))
      by (unfold mulHv; apply length_map).
    apply vaddN_zero_l.
Qed.

Lemma setPos_resets_forceInternal_witness :
  Node.forceInternal
    (setPos vec3_0 theGround [0] (Node.set_forceInternal [5] torsion0)) =
  zeroN (dofOf (Node.cls (Node.set_forceInternal [5] torsion0))).
Proof.
  refine (proj1 (setPos_resets_forceInternal vec3_0 theGround [0]
                   (Node.set_forceInternal [5] torsion0) _)).
  simpl. discriminate.
Defined.

#[local] Set Warnings "-inexact-float".

(** *** Slices *)

Lemma subVec_setSubVec (v : RVec) (off : nat) (vals : list R) :
  (off + length vals <= length v)%nat ->
  subVec (setSubVec v off vals) off (length vals) = vals.
Proof.
  intros Hlen. unfold subVec, setSubVec.
  rewrite skipn_app.
  rewrite (skipn_all2 (firstn off v))
    by (rewrite length_firstn; lia).
  rewrite length_firstn. replace (off - Nat.min off (length v))%nat with 0%nat
    by lia.
  simpl. rewrite firstn_app, Nat.sub_diag, firstn_all. simpl.
  now rewrite app_nil_r.
Qed.

Lemma vec4_of_list_of_vec4 (q : CDSVec4) : vec4_of_list (list_of_vec4 q) = q.
Proof. destruct q. reflexivity. Qed.

Lemma slice4_written (v : RVec) (off : nat) (q : CDSVec4) :
  (off + 4 <= length v)%nat ->
  vec4_of_list (subVec (setSubVec v off (list_of_vec4 q)) off 4) = q.
Proof.
  intros Hlen.
  change (subVec (setSubVec v off (list_of_vec4 q)) off 4)
    with (subVec (setSubVec v off (list_of_vec4 q)) off
                 (length (list_of_vec4 q))).
  rewrite subVec_setSubVec by exact Hlen.
  apply vec4_of_list_of_vec4.
Qed.

(** *** The quaternion constraints *)

Lemma dot4_pos (q : CDSVec4) : q <> mkVec4 0 0 0 0 -> 0 < dot4 q q.
Proof.
  destruct q as [a b c d]. intros Hq. unfold dot4. simpl.
  assert (Hn : a * a + b * b + c * c + d * d <> 0).
  { intros H0. apply Hq.
    assert (a = 0) by nra. assert (b = 0) by nra.
    assert (c = 0) by nra. assert (d = 0) by nra. now subst. }
  nra.
Qed.

Lemma normalize_unit (q : CDSVec4) :
  q <> mkVec4 0 0 0 0 ->
  dot4 (vdiv4 q (norm4 q)) (vdiv4 q (norm4 q)) = 1.
Proof.
  intros Hq. pose proof (dot4_pos q Hq) as Hpos.
  assert (Hn : 0 < norm4 q) by (unfold norm4; now apply sqrt_lt_R0).
  assert (Hsq : norm4 q * norm4 q = dot4 q q)
    by (unfold norm4; apply sqrt_sqrt; lra).
  destruct q as [a b c d]. unfold vdiv4, dot4 in *. simpl in *.
  set (s := norm4 _) in *.
  replace (a / s * (a / s) + b / s * (b / s) + c / s * (c / s) + d / s * (d / s))
    with ((a * a + b * b + c * c + d * d) / (s * s))
    by (field; lra).
  rewrite Hsq. field. lra.
Qed.

Lemma project_tangent (q dq : CDSVec4) :
  dot4 q q = 1 -> dot4 q (vsub4 dq (vscale4 (dot4 q dq) q)) = 0.
Proof.
  destruct q as [a b c d], dq as [a' b' c' d'].
  unfold dot4, vsub4, vscale4. simpl. intros H1.
  replace (a * (a' - (a * a' + b * b' + c * c' + d * d') * a) +
           b * (b' - (a * a' + b * b' + c * c' + d * d') * b) +
           c * (c' - (a * a' + b * b' + c * c' + d * d') * c) +
           d * (d' - (a * a' + b * b' + c * c' + d * d') * d))
    with ((a * a' + b * b' + c * c' + d * d') *
          (1 - (a * a + b * b + c * c + d * d))) by ring.
  rewrite H1. ring.
Qed.

Lemma enforceBallConstraints_quat (offset : nat) (posv velv : RVec)
  (bl : Ball.t) :
  Ball.useEuler bl = false ->
  (offset + 4 <= length posv)%nat ->
  (offset + 4 <= length velv)%nat ->
  let q := vec4_of_list (subVec posv offset 4) in
  let dq := vec4_of_list (subVec velv offset 4) in
  let q' := vdiv4 q (norm4 q) in
  let dq' := vsub4 dq (vscale4 (dot4 q' dq) q') in
  let r := enforceBallConstraints offset posv velv bl in
  vec4_of_list (subVec (snd (fst r)) offset 4) = q' /\
  vec4_of_list (subVec (snd r) offset 4) = dq' /\
  Ball.q (fst (fst r)) = q' /\ Ball.dq (fst (fst r)) = dq'.
Proof.
  intros Hq Hp Hv q dq q' dq' r. subst r.
  unfold enforceBallConstraints. rewrite Hq. simpl.
  repeat split; now apply slice4_written.
Qed.

Lemma norm4_2000 : norm4 (mkVec4 2 0 0 0) = 2.
Proof.
  unfold norm4, dot4. simpl.
  replace (2 * 2 + 0 * 0 + 0 * 0 + 0 * 0) with (2 * 2) by ring.
  apply sqrt_square. lra.
Qed.

(** C5.  For a node with a ball joint in quaternion mode and vectors whose
    quaternion slice [q] is not zero, [enforceConstraints] rewrites the two
    slices with [q' = q / |q|] and with [dq' = dq - (q' . dq) q'], [dq]
    minus its component along the new [q]; computed without rounding these
    have [|q'| = 1] and [q' . dq' = 0].  Entering with [q = (2,0,0,0)] and
    [dq = (0.1,0.1,0.1,0.1)] leaves [q = (1,0,0,0)] and
    [dq = (0,0.1,0.1,0.1)], without rounding and also in double
    precision, where every step of this case is exact and the two
    constraints hold to within 1e-12. *)
Theorem enforceConstraints_unit_quaternion :
  (forall (n : Node.t) (posv velv : RVec),
      hasBall n ->
      Ball.useEuler (Node.ball n) = false ->
      (Node.stateOffset n + 4 <= length posv)%nat ->
      (Node.stateOffset n + 4 <= length velv)%nat ->
      let q := vec4_of_list (subVec posv (Node.stateOffset n) 4) in
      let dq := vec4_of_list (subVec velv (Node.stateOffset n) 4) in
      q <> mkVec4 0 0 0 0 ->
      let r := enforceConstraints posv velv n in
      let q' := vec4_of_list (subVec (snd (fst r)) (Node.stateOffset n) 4) in
      let dq' := vec4_of_list (subVec (snd r) (Node.stateOffset n) 4) in
      q' = vdiv4 q (norm4 q) /\
      dq' = vsub4 dq (vscale4 (dot4 q' dq) q') /\
      norm4 q' = 1 /\ dot4 q' dq' = 0 /\
      Ball.q (Node.ball (fst (fst r))) = q' /\
      Ball.dq (Node.ball (fst (fst r))) = dq') /\
  enforceBallConstraints 0 [2; 0; 0; 0] [0.1; 0.1; 0.1; 0.1] quatBall =
    (Ball.set_dq (mkVec4 0 0.1 0.1 0.1) (Ball.set_q (mkVec4 1 0 0 0) quatBall),
     [1; 0; 0; 0], [0; 0.1; 0.1; 0.1]) /\
  (forall q dq : Binary64.Vec4,
      Binary64.enforceBallConstraints
        0 [2; 0; 0; 0]%float [0.1; 0.1; 0.1; 0.1]%float false q dq =
      (Binary64.mkVec4 1 0 0 0, Binary64.mkVec4 0 0.1 0.1 0.1,
       [1; 0; 0; 0]%float, [0; 0.1; 0.1; 0.1]%float)) /\
  Binary64.unitTangentWithin Binary64.tol12
    (Binary64.mkVec4 1 0 0 0) (Binary64.mkVec4 0 0.1 0.1 0.1).
Proof.
  split; [|split; [|split]].
  - intros n posv velv Hb Hq Hp Hv q dq Hq0 r q' dq'.
    destruct (enforceBallConstraints_quat (Node.stateOffset n) posv velv
                (Node.ball n) Hq Hp Hv) as (E1 & E2 & E3 & E4).
    assert (Hr : r = (Node.set_ball
                        (fst (fst (enforceBallConstraints
                                     (Node.stateOffset n) posv velv
                                     (Node.ball n)))) n,
                      snd (fst (enforceBallConstraints
                                  (Node.stateOffset n) posv velv
                                  (Node.ball n))),
                      snd (enforceBallConstraints
                             (Node.stateOffset n) posv velv (Node.ball n)))).
    { subst r. unfold enforceConstraints.
      destruct (enforceBallConstraints _ _ _ _) as [[bl p'] v'].
      destruct Hb as [E|E]; rewrite E; reflexivity. }
    assert (Q1 : q' = vdiv4 q (norm4 q))
      by (subst q'; rewrite Hr; exact E1).
    assert (Q2 : dq' = vsub4 dq (vscale4 (dot4 q' dq) q'))
      by (rewrite Q1; subst dq'; rewrite Hr; exact E2).
    assert (U : dot4 q' q' = 1) by (rewrite Q1; now apply normalize_unit).
    assert (N : norm4 q' = 1) by (unfold norm4; rewrite U; apply sqrt_1).
    assert (T : dot4 q' dq' = 0)
      by (rewrite Q2; now apply project_tangent).
    repeat split; try assumption.
    + rewrite Q1, Hr. exact E3.
    + rewrite Q2, Q1, Hr. exact E4.
  - unfold enforceBallConstraints. simpl.
    unfold vec4_of_list, subVec. simpl. rewrite norm4_2000.
    unfold vsub4, vscale4, vdiv4, dot4, list_of_vec4, setSubVec,
      Ball.set_dq, Ball.set_q. simpl.
    replace (2 / 2) with 1 by lra.
    replace (0 / 2) with 0 by lra.
    replace (0.1 - (1 * 0.1 + 0 * 0.1 + 0 * 0.1 + 0 * 0.1) * 1) with 0 by lra.
    replace (0.1 - (1 * 0.1 + 0 * 0.1 + 0 * 0.1 + 0 * 0.1) * 0) with 0.1 by lra.
    reflexivity.
  - intros q dq. vm_compute. reflexivity.
  - eexists. eexists.
    split; [vm_compute; reflexivity|].
    split; [vm_compute; reflexivity|].
    repeat split; vm_compute; discriminate.
Qed.

Lemma enforceConstraints_unit_quaternion_witness :
  let n := quatBallNode in
  let r := enforceConstraints [2; 0; 0; 0] [0.1; 0.1; 0.1; 0.1] n in
  norm4 (vec4_of_list (subVec (snd (fst r)) (Node.stateOffset n) 4)) = 1.
Proof.
  intros n r.
  refine (proj1 (proj2 (proj2
            (proj1 enforceConstraints_unit_quaternion quatBallNode
               [2; 0; 0; 0] [0.1; 0.1; 0.1; 0.1] _ _ _ _ _)))).
  - left. reflexivity.
  - reflexivity.
  - simpl. lia.
  - simpl. lia.
  - unfold vec4_of_list, subVec. simpl. intros H.
    apply (f_equal q0) in H. simpl in H. lra.
Defined.

(** In double precision the two constraints do not hold to within 1e-12
    for every nonzero [q].  With [q = (1e200,0,0,0)] the squares overflow,
    the norm is infinite and the quaternion written back is zero; with
    [q = (1,2,3,4)] and [dq = (1e6,-2e6,3e6,7e6)] the exact dot product of
    the two vectors written back is about 1.4e-9. *)
Lemma enforceConstraints_double_counterexample :
  (let r := Binary64.enforceBallConstraints
              0 [1e200; 0; 0; 0]%float [1; 2; 3; 4]%float false
              (Binary64.mkVec4 1 0 0 0) (Binary64.mkVec4 0 0 0 0) in
   fst (fst (fst r)) = Binary64.mkVec4 0 0 0 0 /\
   ~ Binary64.unitTangentWithin Binary64.tol12
       (fst (fst (fst r))) (snd (fst (fst r)))) /\
  (let r := Binary64.enforceBallConstraints
              0 [1; 2; 3; 4]%float [1e6; -2e6; 3e6; 7e6]%float false
              (Binary64.mkVec4 1 0 0 0) (Binary64.mkVec4 0 0 0 0) in
   ~ Binary64.unitTangentWithin Binary64.tol12
       (fst (fst (fst r))) (snd (fst (fst r)))).
Proof.
  cbv zeta. split; [split|].
  - vm_compute. reflexivity.
  - intros (n2 & d & E1 & _ & H1 & _).
    vm_compute in E1. injection E1 as <-.
    vm_compute in H1. apply H1. reflexivity.
  - intros (n2 & d & _ & E2 & _ & _ & _ & H).
    vm_compute in E2. injection E2 as <-.
    vm_compute in H. apply H. reflexivity.
Qed.

(** *** The quaternion velocity map *)

Lemma Mq34_Mq43 (q : CDSVec4) :
  mul34_43 (Mq34 q) (Mq43 q) = mscale33 (dot4 q q) ident33.
Proof.
  destruct q as [a b c d].
  unfold mul34_43, Mq34, Mq43, mscale33, ident33, makeIdentity33, dot4.
  simpl. f_equal; ring.
Qed.

Lemma mul34_mul43 (q : CDSVec4) (w : CDSVec3) :
  mul34 (Mq34 q) (mul43 (Mq43 q) w) = vscale3 (dot4 q q) w.
Proof.
  destruct q as [a b c d], w as [x y z].
  unfold mul34, mul43, Mq34, Mq43, vscale3, dot4, dot3. simpl.
  f_equal; ring.
Qed.

Lemma norm4_1_dot (q : CDSVec4) : norm4 q = 1 -> dot4 q q = 1.
Proof.
  unfold norm4. intros H.
  assert (Hnn : 0 <= dot4 q q).
  { destruct q as [a b c d]. unfold dot4. simpl. nra. }
  rewrite <- (sqrt_sqrt (dot4 q q)) by exact Hnn. rewrite H. ring.
Qed.

(** C6.  The 3x4 matrix [M(q)] of [setBallVel] satisfies
    [M(q) * transpose(M(q)) = |q|^2 * I]; so for a unit quaternion,
    [setBallDerivs] ([dq = 1/2 * transpose(M(q)) * omega]) followed by the
    quaternion branch of [setBallVel] on the velocity vector that holds
    that [dq] ([dTheta = 2 * M(q) * dq]) gives back [omega]. *)
Theorem quaternion_velocity_round_trip :
  (forall q : CDSVec4,
      mul34_43 (Mq34 q) (transpose34 (Mq34 q)) =
      mscale33 (dot4 q q) ident33) /\
  (forall (bl : Ball.t) (omega dTheta0 dTheta1 : CDSVec3)
          (stateOffset : nat) (velv : RVec),
      Ball.useEuler bl = false ->
      norm4 (Ball.q bl) = 1 ->
      (stateOffset + 4 <= length velv)%nat ->
      exists bl1,
        setBallDerivs omega bl = Some bl1 /\
        Ball.dq bl1 =
          vscale4 (1/2) (mul43 (transpose34 (Mq34 (Ball.q bl))) omega) /\
        snd (setBallVel stateOffset
               (getBallVel dTheta0 stateOffset velv bl1) dTheta1 bl1) =
        omega).
Proof.
  split.
  - intros q. rewrite <- Mq43_transpose. apply Mq34_Mq43.
  - intros bl omega dTheta0 dTheta1 off velv Hq Hn Hlen.
    unfold setBallDerivs. rewrite Hq. eexists. split; [reflexivity|].
    assert (Hdq : mul43 (scale43 (1/2) (Mq43 (Ball.q bl))) omega =
                  vscale4 (1/2) (mul43 (Mq43 (Ball.q bl)) omega)).
    { destruct (Ball.q bl) as [a b c d], omega as [x y z].
      unfold mul43, scale43, Mq43, vscale4, vscale3, dot3. simpl.
      f_equal; ring. }
    split.
    + rewrite <- Mq43_transpose. destruct bl; simpl in *. exact Hdq.
    + unfold setBallVel, getBallVel.
      destruct bl as [q dq ddq c1 s1 c2 s2 c3 s3 ue]. simpl in *. subst ue.
      simpl. rewrite slice4_written by exact Hlen.
      rewrite Hdq.
      pose proof (norm4_1_dot q Hn) as H1.
      pose proof (mul34_mul43 q omega) as HM. rewrite H1 in HM.
      destruct q as [a b c d], omega as [x y z].
      unfold mul34, mul43, Mq34, Mq43, vscale4, vscale3, dot4, dot3 in *.
      simpl in *. injection HM as Hx Hy Hz.
      f_equal; lra.
Qed.

Lemma quaternion_velocity_round_trip_witness :
  exists bl1,
    setBallDerivs (mkVec3 0 1 0) quatBall = Some bl1 /\
    Ball.dq bl1 =
      vscale4 (1/2)
        (mul43 (transpose34 (Mq34 (Ball.q quatBall))) (mkVec3 0 1 0)) /\
    snd (setBallVel 0 (getBallVel vec3_0 0 [0; 0; 0; 0] bl1) vec3_0 bl1) =
    mkVec3 0 1 0.
Proof.
  refine (proj2 quaternion_velocity_round_trip quatBall (mkVec3 0 1 0)
            vec3_0 vec3_0 0%nat [0; 0; 0; 0] _ _ _).
  - reflexivity.
  - unfold norm4, dot4. simpl.
    replace (1 * 1 + 0 * 0 + 0 * 0 + 0 * 0) with 1 by ring. apply sqrt_1.
  - simpl. lia.
Defined.

(** *** The Euler branch of calcR_PB *)

(** With the last two angles zero the Euler matrix is the rotation by the
    first angle, taken in degrees, about the z axis. *)
Lemma calcR_PB_euler_z (phi : R) (bl : Ball.t) :
  Ball.useEuler bl = true ->
  snd (calcR_PB (mkVec3 phi 0 0) bl) =
  mkMat33 (cos (phi * DEG2RAD)) (- sin (phi * DEG2RAD)) 0
          (sin (phi * DEG2RAD)) (cos (phi * DEG2RAD))   0
          0                     0                       1.
Proof.
  intros He. unfold calcR_PB. rewrite He. unfold setTrig.
  destruct bl; simpl. rewrite Rmult_0_l, cos_0, sin_0.
  f_equal; ring.
Qed.

Lemma deg90 : 90 * DEG2RAD = PI / 2.
Proof. unfold DEG2RAD. field. Qed.

Lemma halfpi_deg_range :
  0 < PI / 2 * DEG2RAD /\ PI / 2 * DEG2RAD < PI / 2.
Proof.
  unfold DEG2RAD. pose proof PI_RGT_0. pose proof PI_4. split; nra.
Qed.

(** C7, as the source has it.  In Euler mode [calcR_PB] takes its angles
    in degrees (each is multiplied by [DEG2RAD]).  With
    [theta = (0,0,0)] it produces the identity; with [theta = (90,0,0)]
    the matrix it produces maps [e_x] to [e_y] and [e_y] to [- e_x], and
    its transpose maps [e_y] to [e_x]. *)
Theorem calcR_PB_euler_degrees (bl : Ball.t) :
  Ball.useEuler bl = true ->
  snd (calcR_PB (mkVec3 0 0 0) bl) = ident33 /\
  let Rm := snd (calcR_PB (mkVec3 90 0 0) bl) in
  mulMV33 Rm e_x = e_y /\
  mulMV33 Rm e_y = vneg3 e_x /\
  mulMV33 (transpose33 Rm) e_y = e_x.
Proof.
  intros He. split.
  - rewrite calcR_PB_euler_z by exact He.
    rewrite Rmult_0_l, cos_0, sin_0.
    unfold ident33, makeIdentity33. f_equal; ring.
  - cbv zeta. rewrite calcR_PB_euler_z by exact He.
    rewrite deg90, cos_PI2, sin_PI2.
    unfold mulMV33, transpose33, e_x, e_y, vneg3. simpl.
    repeat split; f_equal; ring.
Qed.

Lemma calcR_PB_euler_degrees_witness :
  snd (calcR_PB (mkVec3 0 0 0) eulerBall) = ident33.
Proof.
  refine (proj1 (calcR_PB_euler_degrees eulerBall _)). reflexivity.
Defined.

(** The claim read in radians fails: with [theta = (PI/2, 0, 0)] the
    matrix of [calcR_PB] does not map [e_y] to [e_x], nor does its
    transpose; and with [theta = (90, 0, 0)] the matrix maps [e_y] to
    [- e_x], not to [e_x]. *)
Lemma calcR_PB_halfpi_counterexample :
  ~ (snd (calcR_PB (mkVec3 0 0 0) eulerBall) = ident33 /\
     mulMV33 (snd (calcR_PB (mkVec3 (PI / 2) 0 0) eulerBall)) e_y = e_x) /\
  mulMV33 (transpose33 (snd (calcR_PB (mkVec3 (PI / 2) 0 0) eulerBall))) e_y
    <> e_x /\
  mulMV33 (snd (calcR_PB (mkVec3 90 0 0) eulerBall)) e_y <> e_x.
Proof.
  destruct halfpi_deg_range as [Hlo Hhi]. pose proof PI_RGT_0 as Hpi.
  repeat split.
  - intros [_ H].
    rewrite calcR_PB_euler_z in H by reflexivity.
    unfold mulMV33, e_x, e_y in H. simpl in H.
    apply (f_equal vx) in H. simpl in H.
    assert (0 < sin (PI / 2 * DEG2RAD)) by (apply sin_gt_0; lra).
    lra.
  - rewrite calcR_PB_euler_z by reflexivity.
    unfold mulMV33, transpose33, e_x, e_y. simpl. intros H.
    apply (f_equal vy) in H. simpl in H.
    assert (0 < cos (PI / 2 * DEG2RAD)) by (apply cos_gt_0; lra).
    lra.
  - rewrite calcR_PB_euler_z by reflexivity.
    rewrite deg90, cos_PI2, sin_PI2.
    unfold mulMV33, e_x, e_y. simpl. intros H.
    apply (f_equal vx) in H. simpl in H. lra.
Qed.

(** *** The node factory *)

Lemma RigidBodyNodeSpec_ctor_cls (c : NodeClass) (m : RBMassProperties)
  (fr : RBFrame) (cnt : nat) :
  Node.cls (fst (RigidBodyNodeSpec_ctor c m fr cnt)) = c /\
  Node.stateOffset (fst (RigidBodyNodeSpec_ctor c m fr cnt)) = cnt /\
  snd (RigidBodyNodeSpec_ctor c m fr cnt) = (cnt + dofOf c)%nat.
Proof. repeat split. Qed.

Lemma withBall_ctor_cls (c : NodeClass) (m : RBMassProperties)
  (cnt : nat) (useEuler : bool) :
  Node.cls (fst (withBall_ctor c m cnt useEuler)) = c /\
  Node.stateOffset (fst (withBall_ctor c m cnt useEuler)) = cnt /\
  Ball.useEuler (Node.ball (fst (withBall_ctor c m cnt useEuler))) = useEuler /\
  snd (withBall_ctor c m cnt useEuler) =
    (cnt + dofOf c + if useEuler then 0 else 1)%nat.
Proof.
  unfold withBall_ctor, ContainedBallJoint. simpl.
  destruct useEuler; repeat split; simpl; lia.
Qed.

(** C8.  [RigidBodyNode::create] fails its assertion when [isReversed] is
    true, and when the joint type is not one of Ground, Torsion, UJoint,
    Orientation, Cartesian, FreeLine, Free; for each of these seven, with
    [isReversed] false, it returns a node of the class of that joint
    type, placed at the state offset it was given. *)
Theorem create_precondition (m : RBMassProperties) (jointFrame : RBFrame)
  (type : JointType) (useEuler : bool) (nxtStateOffset : nat) :
  create m jointFrame type true useEuler nxtStateOffset = AssertionFailed /\
  (supported type = false ->
   forall isReversed,
     create m jointFrame type isReversed useEuler nxtStateOffset =
     AssertionFailed) /\
  (supported type = true ->
   exists c n cnt,
     classOf type = Some c /\
     create m jointFrame type false useEuler nxtStateOffset = NewNode n cnt /\
     Node.cls n = c /\
     (c <> RBGroundBody -> Node.stateOffset n = nxtStateOffset) /\
     (nxtStateOffset + dofOf c <= cnt)%nat).
Proof.
  split; [reflexivity|]. split.
  - intros Hs [|]; [reflexivity|].
    destruct type; try discriminate Hs; reflexivity.
  - intros Hs.
    destruct type; try discriminate Hs; unfold create, returned;
      eexists _, _, _; (split; [reflexivity|]);
      (split; [reflexivity|]).
    + repeat split; simpl; try lia; intros; congruence.
    + repeat split; simpl; try lia; intros; congruence.
    + repeat split; simpl; try lia; intros; congruence.
    + destruct (withBall_ctor_cls RBNodeRotate3 m nxtStateOffset useEuler)
        as (A & B & _ & D).
      repeat split; try assumption. rewrite D. simpl. lia.
    + repeat split; simpl; try lia; intros; congruence.
    + repeat split; simpl; try lia; intros; congruence.
    + destruct (withBall_ctor_cls RBNodeTranslateRotate3 m nxtStateOffset
                                  useEuler) as (A & B & _ & D).
      repeat split; try assumption. rewrite D. simpl. lia.
Qed.

Lemma create_precondition_witness :
  (forall isReversed,
      create unitBody RBFrame_default WeldJoint isReversed false 0 =
      AssertionFailed) /\
  exists c n cnt,
    classOf FreeJoint = Some c /\
    create unitBody RBFrame_default FreeJoint false false 0 = NewNode n cnt /\
    Node.cls n = c /\
    (c <> RBGroundBody -> Node.stateOffset n = 0%nat) /\
    (0 + dofOf c <= cnt)%nat.
Proof.
  split.
  - refine (proj1 (proj2 (create_precondition unitBody RBFrame_default
                            WeldJoint false 0)) _).
    reflexivity.
  - refine (proj2 (proj2 (create_precondition unitBody RBFrame_default
                            FreeJoint false 0)) _).
    reflexivity.
Defined.

(** *** The complex gesdd wrappers *)

(** Whatever [jobz] the caller gives, both wrappers size [rwork] as
    [5 * min(m,n)] and call LAPACK with ['N']. *)
Lemma gesdd_complex_always_N (routine : LapackRoutine)
  (query : ascii -> Z -> Z -> Z) (jobz : ascii) (m n : Z) :
  fst (gesdd_complex routine query jobz m n) = (5 * Z.min m n)%Z /\
  map call_jobz (snd (gesdd_complex routine query jobz m n)) =
  ["N"%char; "N"%char].
Proof.
  split; [|reflexivity].
  unfold gesdd_complex. cbn [fst].
  change (char_true "N") with true. cbv iota.
  destruct (Z.ltb_spec m n); lia.
Qed.

(** C9 at the input [jobz = 'A'], [m = n = 2]: the spec asks for an
    [rwork] of [5*2*2 + 7*2 = 34] entries and for LAPACK to be called with
    ['A']; both wrappers allocate 10 entries and call LAPACK with ['N']. *)
Theorem gesdd_complex_jobz_A (query : ascii -> Z -> Z -> Z) :
  rwork_size_spec "A" 2 2 = 34%Z /\
  fst (gesdd_cfloat query "A" 2 2) = 10%Z /\
  fst (gesdd_cdouble query "A" 2 2) = 10%Z /\
  map call_jobz (snd (gesdd_cfloat query "A" 2 2)) = ["N"%char; "N"%char] /\
  map call_jobz (snd (gesdd_cdouble query "A" 2 2)) = ["N"%char; "N"%char].
Proof. repeat split. Qed.

(** *** calcD_G: the singular configuration *)

Lemma inverse_Some (D DI : FixedMatrixNN) :
  inverse D = Some DI -> isInverse D DI.
Proof.
  unfold inverse.
  destruct (excluded_middle_informative (invertible D)) as [pf|npf];
    [|discriminate].
  intros H. injection H as <-.
  exact (proj2_sig (constructive_indefinite_description _ pf)).
Qed.

Lemma inverse_None (D : FixedMatrixNN) :
  inverse D = None -> ~ invertible D.
Proof.
  unfold inverse.
  destruct (excluded_middle_informative (invertible D)) as [pf|npf];
    [discriminate|].
  intros _. exact npf.
Qed.

Lemma inverse_cases (D : FixedMatrixNN) :
  (invertible D /\ exists DI, inverse D = Some DI /\ isInverse D DI) \/
  (~ invertible D /\ inverse D = None).
Proof.
  destruct (inverse D) as [DI|] eqn:E.
  - left. pose proof (inverse_Some D DI E) as HI.
    split; [now exists DI|]. now exists DI.
  - right. split; [now apply inverse_None|reflexivity].
Qed.

(** [D = H * P * transpose(H)] entry by entry. *)
Lemma orthoTransformPH_entry (P : CDSMat66) (H : list CDSVec6) (i j : nat) :
  (i < length H)%nat -> (j < length H)%nat ->
  nth j (nth i (orthoTransformPH P H) []) 0 =
  dot6 (nth i H vec6_0) (mulMV66 P (nth j H vec6_0)).
Proof.
  intros Hi Hj. unfold orthoTransformPH.
  rewrite (nth_indep _ [] (map (fun hj => dot6 vec6_0 (mulMV66 P hj)) H))
    by (rewrite length_map; exact Hi).
  rewrite (map_nth (fun hi => map (fun hj => dot6 hi (mulMV66 P hj)) H)).
  rewrite (nth_indep _ 0 (dot6 (nth i H vec6_0) (mulMV66 P vec6_0)))
    by (rewrite length_map; exact Hj).
  now rewrite (map_nth (fun hj => dot6 (nth i H vec6_0) (mulMV66 P hj))).
Qed.

Lemma orthoTransformPH_square (P : CDSMat66) (H : list CDSVec6) :
  squareN (length H) (orthoTransformPH P H).
Proof.
  unfold squareN, orthoTransformPH. split.
  - apply length_map.
  - apply Forall_forall. intros row Hin.
    apply in_map_iff in Hin. destruct Hin as (h & <- & _).
    apply length_map.
Qed.

(** C4.  In [calcP] on a node that is not the ground, with [P] the
    accumulated articulated inertia and [D = H * P * transpose(H)]: if [D]
    is not invertible, [calcP] throws, after reporting [D], the node's
    [H], its level and its number of children; if [D] is invertible,
    [calcP] returns with [DI] an inverse of [D], [G = P * transpose(H) * DI],
    [tau = I - G * H] and [psiT = transpose(tau) * transpose(phi)]. *)
Theorem calcP_singular_configuration (n : Node.t) (children : list Node.t) :
  Node.cls n <> RBGroundBody ->
  let Pn := calcP_sum children n in
  let D := orthoTransformPH Pn (Node.H n) in
  (~ invertible D ->
   exists what n',
     calcP children n =
       Throws what
              (mkDiag D (Node.H n) (Node.level n) (length children)) n' /\
     Node.P n' = Pn) /\
  (invertible D ->
   exists n',
     calcP children n = Normal n' /\
     Node.P n' = Pn /\
     isInverse D (Node.DI n') /\
     Node.G n' = mulP_HT_DI Pn (Node.H n) (Node.DI n') /\
     Node.tau n' = msub66 ident66 (mulGH (Node.G n') (Node.H n)) /\
     Node.psiT n' = mul_phiT (transpose66 (Node.tau n')) (Node.phi n)).
Proof.
  intros Hc Pn D.
  assert (Hcalc : calcP children n =
    match calcD_G children Pn (Node.set_P Pn n) with
    | Normal n2 =>
        let n3 := Node.set_tau
                    (msub66 ident66 (mulGH (Node.G n2) (Node.H n2))) n2 in
        Normal (Node.set_psiT
                  (mul_phiT (transpose66 (Node.tau n3)) (Node.phi n3)) n3)
    | Throws what cerr n2 => Throws what cerr n2
    end).
  { unfold calcP. subst Pn.
    destruct (Node.cls n); try congruence; reflexivity. }
  rewrite Hcalc. unfold calcD_G.
  change (Node.H (Node.set_P Pn n)) with (Node.H n).
  fold D.
  destruct (inverse_cases D) as [(Hinv & DI & E & HI)|(Hninv & E)];
    rewrite E; split; intros Hyp; try contradiction.
  - exists (Node.set_psiT
              (mul_phiT
                 (transpose66
                    (msub66 ident66
                       (mulGH (mulP_HT_DI Pn (Node.H n) DI) (Node.H n))))
                 (Node.phi n))
              (Node.set_tau
                 (msub66 ident66
                    (mulGH (mulP_HT_DI Pn (Node.H n) DI) (Node.H n)))
                 (Node.set_G (mulP_HT_DI Pn (Node.H n) DI)
                    (Node.set_DI DI (Node.set_P Pn n))))).
    split; [reflexivity|]. split; [reflexivity|].
    split; [exact HI|]. repeat split.
  - eexists _, _. split; reflexivity.
Qed.

Lemma degenerate_not_invertible :
  ~ invertible (orthoTransformPH (calcP_sum [] torsionDegenerate)
                                 (Node.H torsionDegenerate)).
Proof.
  intros (DI & (Hlen & Hrows) & Hmul & _).
  cbn in Hlen, Hrows, Hmul.
  destruct DI as [|row [|]]; try discriminate Hlen.
  inversion Hrows as [|? ? Hrow _]; subst.
  destruct row as [|x [|]]; try discriminate Hrow.
  unfold mmulN, identN, colN, dotN, sumN in Hmul. cbn in Hmul.
  injection Hmul as Hmul. alg_unfold. lra.
Qed.

Lemma unit_invertible :
  invertible (orthoTransformPH (calcP_sum [] torsionUnit)
                               (Node.H torsionUnit)).
Proof.
  exists [[1]]. split; [|split].
  - split; [reflexivity|]. constructor; [reflexivity|constructor].
  - unfold mmulN, identN, colN, dotN, sumN. cbn. alg_unfold.
    do 2 f_equal. ring.
  - unfold mmulN, identN, colN, dotN, sumN. cbn. alg_unfold.
    do 2 f_equal. ring.
Qed.

Lemma calcP_singular_configuration_witness :
  (exists what n',
      calcP [] torsionDegenerate =
        Throws what
          (mkDiag (orthoTransformPH (calcP_sum [] torsionDegenerate)
                                    (Node.H torsionDegenerate))
                  (Node.H torsionDegenerate) (Node.level torsionDegenerate)
                  (length (@nil Node.t))) n' /\
      Node.P n' = calcP_sum [] torsionDegenerate) /\
  (exists n',
      calcP [] torsionUnit = Normal n' /\
      Node.P n' = calcP_sum [] torsionUnit /\
      isInverse (orthoTransformPH (calcP_sum [] torsionUnit)
                                  (Node.H torsionUnit)) (Node.DI n') /\
      Node.G n' =
        mulP_HT_DI (calcP_sum [] torsionUnit) (Node.H torsionUnit)
                   (Node.DI n') /\
      Node.tau n' =
        msub66 ident66 (mulGH (Node.G n') (Node.H torsionUnit)) /\
      Node.psiT n' =
        mul_phiT (transpose66 (Node.tau n')) (Node.phi torsionUnit)).
Proof.
  split.
  - refine (proj1 (calcP_singular_configuration torsionDegenerate [] _) _).
    + simpl. discriminate.
    + exact degenerate_not_invertible.
  - refine (proj2 (calcP_singular_configuration torsionUnit [] _) _).
    + simpl. discriminate.
    + exact unit_invertible.
Defined.

(* ================================================================== *)
(** ** Further properties of the node code *)
(* ================================================================== *)

(** *** 3x3 matrix algebra *)

Lemma mmul33_assoc (A B C : CDSMat33) :
  mmul33 (mmul33 A B) C = mmul33 A (mmul33 B C).
Proof. alg. Qed.

Lemma mmul33_1_l (A : CDSMat33) : mmul33 ident33 A = A.
Proof. alg. Qed.

Lemma mmul33_1_r (A : CDSMat33) : mmul33 A ident33 = A.
Proof. alg. Qed.

Lemma transpose33_mul (A B : CDSMat33) :
  transpose33 (mmul33 A B) = mmul33 (transpose33 B) (transpose33 A).
Proof. alg. Qed.

Lemma transpose33_invol (A : CDSMat33) : transpose33 (transpose33 A) = A.
Proof. alg. Qed.

Lemma mulMV33_mul (A B : CDSMat33) (v : CDSVec3) :
  mulMV33 (mmul33 A B) v = mulMV33 A (mulMV33 B v).
Proof. alg. Qed.

Lemma mulMV33_1 (v : CDSVec3) : mulMV33 ident33 v = v.
Proof. alg. Qed.

Lemma dot3_mulMV33 (A : CDSMat33) (u v : CDSVec3) :
  dot3 (mulMV33 A u) v = dot3 u (mulMV33 (transpose33 A) v).
Proof. alg. Qed.

Lemma orthogonal33_ident : orthogonal33 ident33.
Proof. split; alg. Qed.

Lemma orthogonal33_transpose (A : CDSMat33) :
  orthogonal33 A -> orthogonal33 (transpose33 A).
Proof.
  intros [H1 H2]. split; rewrite transpose33_invol; assumption.
Qed.

Lemma orthogonal33_mul (A B : CDSMat33) :
  orthogonal33 A -> orthogonal33 B -> orthogonal33 (mmul33 A B).
Proof.
  intros [A1 A2] [B1 B2]. split; rewrite transpose33_mul.
  - rewrite mmul33_assoc, <- (mmul33_assoc B), B1, mmul33_1_l. exact A1.
  - rewrite mmul33_assoc, <- (mmul33_assoc (transpose33 A)), A2, mmul33_1_l.
    exact B2.
Qed.

Lemma orthogonal33_orthoTransform (M Rm : CDSMat33) :
  orthogonal33 M -> orthogonal33 Rm -> orthogonal33 (orthoTransform33 M Rm).
Proof.
  intros HM HR. unfold orthoTransform33.
  apply orthogonal33_mul; [apply orthogonal33_mul; assumption|].
  now apply orthogonal33_transpose.
Qed.

(** A rotation matrix keeps dot products. *)
Lemma orthogonal33_dot (A : CDSMat33) (u v : CDSVec3) :
  orthogonal33 A -> dot3 (mulMV33 A u) (mulMV33 A v) = dot3 u v.
Proof.
  intros [_ H2].
  now rewrite dot3_mulMV33, <- mulMV33_mul, H2, mulMV33_1.
Qed.

(** *** The rotations the joints build *)

Lemma sin_cos_1 (x : R) : sin x * sin x + cos x * cos x = 1.
Proof. pose proof (sin2_cos2 x) as H. unfold Rsqr in H. exact H. Qed.

Ltac trig_ident :=
  unfold orthogonal33, Rz, Ry, Rx, mmul33, transpose33, ident33,
    makeIdentity33; simpl;
  split; f_equal; try ring;
  match goal with
  | |- context [sin ?x] => pose proof (sin_cos_1 x); nra
  end.

Lemma orthogonal33_Rz (x : R) : orthogonal33 (Rz (cos x) (sin x)).
Proof. trig_ident. Qed.

Lemma orthogonal33_Ry (x : R) : orthogonal33 (Ry (cos x) (sin x)).
Proof. trig_ident. Qed.

Lemma orthogonal33_Rx (x : R) : orthogonal33 (Rx (cos x) (sin x)).
Proof. trig_ident. Qed.

Lemma rotate2_R_JiJ_factors (theta : FixedVector) :
  rotate2_R_JiJ theta =
  mmul33 (Ry (cos (1 * nth 1 theta 0)) (sin (1 * nth 1 theta 0)))
         (Rx (cos (1 * nth 0 theta 0)) (sin (1 * nth 0 theta 0))).
Proof.
  unfold rotate2_R_JiJ, Ry, Rx, mmul33. simpl. f_equal; ring.
Qed.

Lemma calcR_PB_euler_factors (th : CDSVec3) (bl : Ball.t) :
  Ball.useEuler bl = true ->
  snd (calcR_PB th bl) =
  mmul33 (mmul33 (Rz (cos (vx th * DEG2RAD)) (sin (vx th * DEG2RAD)))
                 (Ry (cos (vy th * DEG2RAD)) (sin (vy th * DEG2RAD))))
         (Rx (cos (vz th * DEG2RAD)) (sin (vz th * DEG2RAD))).
Proof.
  intros He. unfold calcR_PB. rewrite He. unfold setTrig.
  destruct bl, th. unfold Rz, Ry, Rx, mmul33. simpl. f_equal; ring.
Qed.

Lemma calcR_PB_quat_gram (th : CDSVec3) (bl : Ball.t) :
  Ball.useEuler bl = false ->
  let Rm := snd (calcR_PB th bl) in
  let s := dot4 (Ball.q bl) (Ball.q bl) in
  mmul33 Rm (transpose33 Rm) = mscale33 (s * s) ident33 /\
  mmul33 (transpose33 Rm) Rm = mscale33 (s * s) ident33.
Proof.
  intros He. unfold calcR_PB. rewrite He.
  destruct bl as [[a b c d] dq ddq c1 s1 c2 s2 c3 s3 ue]. simpl.
  unfold mmul33, transpose33, mscale33, ident33, makeIdentity33, dot4, sq.
  simpl. split; f_equal; ring.
Qed.

Lemma mscale33_1_ident : mscale33 (1 * 1) ident33 = ident33.
Proof. alg. Qed.

(** *** Determinants *)

Lemma det33_mul (A B : CDSMat33) :
  det33 (mmul33 A B) = det33 A * det33 B.
Proof. destruct A, B. unfold det33, mmul33. simpl. ring. Qed.

Lemma det33_transpose (A : CDSMat33) : det33 (transpose33 A) = det33 A.
Proof. destruct A. unfold det33, transpose33. simpl. ring. Qed.

Lemma det33_ident : det33 ident33 = 1.
Proof. unfold det33, ident33, makeIdentity33. simpl. ring. Qed.

(** The determinant of an orthogonal matrix is 1 or -1. *)
Lemma orthogonal33_det_sq (A : CDSMat33) :
  orthogonal33 A -> det33 A * det33 A = 1.
Proof.
  intros [H1 _]. apply (f_equal det33) in H1.
  now rewrite det33_mul, det33_transpose, det33_ident in H1.
Qed.

Lemma rotation33_ident : rotation33 ident33.
Proof. split; [apply orthogonal33_ident|apply det33_ident]. Qed.

Lemma rotation33_mul (A B : CDSMat33) :
  rotation33 A -> rotation33 B -> rotation33 (mmul33 A B).
Proof.
  intros [OA DA] [OB DB]. split; [now apply orthogonal33_mul|].
  rewrite det33_mul, DA, DB. ring.
Qed.

(** [orthoTransform(M, R) = R * M * transpose(R)] is a rotation when [M]
    is one and [R] is orthogonal, of either determinant. *)
Lemma rotation33_orthoTransform (M Rm : CDSMat33) :
  rotation33 M -> orthogonal33 Rm -> rotation33 (orthoTransform33 M Rm).
Proof.
  intros [OM DM] OR. split; [now apply orthogonal33_orthoTransform|].
  unfold orthoTransform33.
  rewrite !det33_mul, det33_transpose, DM.
  pose proof (orthogonal33_det_sq Rm OR) as Hsq. nra.
Qed.

Lemma rotation33_Rz (x : R) : rotation33 (Rz (cos x) (sin x)).
Proof.
  split; [apply orthogonal33_Rz|].
  unfold det33, Rz. simpl. pose proof (sin_cos_1 x). nra.
Qed.

Lemma rotation33_Ry (x : R) : rotation33 (Ry (cos x) (sin x)).
Proof.
  split; [apply orthogonal33_Ry|].
  unfold det33, Ry. simpl. pose proof (sin_cos_1 x). nra.
Qed.

Lemma rotation33_Rx (x : R) : rotation33 (Rx (cos x) (sin x)).
Proof.
  split; [apply orthogonal33_Rx|].
  unfold det33, Rx. simpl. pose proof (sin_cos_1 x). nra.
Qed.

Lemma calcR_PB_quat_det (th : CDSVec3) (bl : Ball.t) :
  Ball.useEuler bl = false ->
  let s := dot4 (Ball.q bl) (Ball.q bl) in
  det33 (snd (calcR_PB th bl)) = s * s * s.
Proof.
  intros He. unfold calcR_PB. rewrite He.
  destruct bl as [[a b c d] dq ddq c1 s1 c2 s2 c3 s3 ue]. simpl.
  unfold det33, dot4, sq. simpl. ring.
Qed.

Lemma calcR_PB_rotation_euler (th : CDSVec3) (bl : Ball.t) :
  Ball.useEuler bl = true -> rotation33 (snd (calcR_PB th bl)).
Proof.
  intros He. rewrite calcR_PB_euler_factors by exact He.
  apply rotation33_mul; [apply rotation33_mul|].
  - apply rotation33_Rz.
  - apply rotation33_Ry.
  - apply rotation33_Rx.
Qed.

Lemma calcR_PB_rotation_quat (th : CDSVec3) (bl : Ball.t) :
  Ball.useEuler bl = false -> dot4 (Ball.q bl) (Ball.q bl) = 1 ->
  rotation33 (snd (calcR_PB th bl)).
Proof.
  intros He Hs. destruct (calcR_PB_quat_gram th bl He) as [G1 G2].
  pose proof (calcR_PB_quat_det th bl He) as D.
  cbv zeta in G1, G2, D. split.
  - unfold orthogonal33. rewrite G1, G2, Hs. split; apply mscale33_1_ident.
  - rewrite D, Hs. ring.
Qed.

(** X1.  [calcR_PB] always produces a rotation matrix (an orthogonal
    matrix of determinant 1) in Euler mode, for any three angles; in
    quaternion mode the matrix [R] it produces has
    [R * transpose(R) = transpose(R) * R = |q|^4 * I] and determinant
    [|q|^6], so it is a rotation matrix when [q] has unit norm. *)
Theorem calcR_PB_rotation (th : CDSVec3) (bl : Ball.t) :
  (Ball.useEuler bl = true -> rotation33 (snd (calcR_PB th bl))) /\
  (Ball.useEuler bl = false ->
   let Rm := snd (calcR_PB th bl) in
   let s := dot4 (Ball.q bl) (Ball.q bl) in
   mmul33 Rm (transpose33 Rm) = mscale33 (s * s) ident33 /\
   mmul33 (transpose33 Rm) Rm = mscale33 (s * s) ident33 /\
   det33 Rm = s * s * s /\
   (s = 1 -> rotation33 Rm)).
Proof.
  split.
  - apply calcR_PB_rotation_euler.
  - intros He Rm s.
    destruct (calcR_PB_quat_gram th bl He) as [G1 G2].
    fold Rm in G1, G2. fold s in G1, G2.
    split; [exact G1|]. split; [exact G2|].
    split; [apply (calcR_PB_quat_det th bl He)|].
    intros Hs. now apply calcR_PB_rotation_quat.
Qed.

Lemma calcR_PB_rotation_witness :
  rotation33 (snd (calcR_PB (mkVec3 30 45 60) eulerBall)) /\
  rotation33 (snd (calcR_PB vec3_0 quatBall)).
Proof.
  split.
  - refine (proj1 (calcR_PB_rotation (mkVec3 30 45 60) eulerBall) _).
    reflexivity.
  - refine (proj2 (proj2 (proj2 (proj2
              (calcR_PB_rotation vec3_0 quatBall) _))) _).
    + reflexivity.
    + unfold dot4. simpl. ring.
Defined.

(** *** What the position pass computes, class by class *)

Lemma calcJointKinematicsPos_R_PB (parent n : Node.t) :
  Node.R_PB (calcJointKinematicsPos parent n) =
  match Node.cls n with
  | RBGroundBody => Node.R_PB n
  | RBNodeTranslate => ident33
  | RBNodeTorsion =>
      orthoTransform33
        (Rz (cos (1 * nth 0 (Node.theta n) 0))
            (sin (1 * nth 0 (Node.theta n) 0))) (Node.R_BJ n)
  | RBNodeRotate3 =>
      snd (calcR_PB (vec3_of_list (Node.theta n)) (Node.ball n))
  | RBNodeTranslateRotate3 =>
      snd (calcR_PB (vec3_of_list (subVec (Node.theta n) 0 3)) (Node.ball n))
  | RBNodeRotate2 | RBNodeTranslateRotate2 =>
      orthoTransform33 (rotate2_R_JiJ (Node.theta n)) (Node.R_BJ n)
  end.
Proof.
  unfold calcJointKinematicsPos, rotate2_xy.
  destruct (Node.cls n); try reflexivity;
    destruct (calcR_PB _ _); reflexivity.
Qed.

Lemma rows33_transpose (A : CDSMat33) :
  rows33 (transpose33 A) = [mulMV33 A e_x; mulMV33 A e_y; mulMV33 A e_z].
Proof.
  destruct A. unfold rows33, transpose33, mulMV33, e_x, e_y, e_z. simpl.
  repeat f_equal; ring.
Qed.

Lemma vscale3_1 (v : CDSVec3) : vscale3 1 v = v.
Proof. alg. Qed.

Lemma blockMat12_33_lin (A : CDSMat33) :
  blockMat12_33 zero33 (transpose33 A) =
  [linRow A e_x; linRow A e_y; linRow A e_z].
Proof. unfold blockMat12_33. rewrite rows33_transpose. reflexivity. Qed.

Lemma blockMat12_33_ang (A : CDSMat33) :
  blockMat12_33 (transpose33 A) zero33 =
  [angRow A e_x; angRow A e_y; angRow A e_z].
Proof. unfold blockMat12_33. rewrite rows33_transpose. reflexivity. Qed.

Lemma calcJointKinematicsPos_H (parent n : Node.t) :
  let Rp := getR_GP parent in
  let Rb := mmul33 Rp (Node.R_PB (calcJointKinematicsPos parent n)) in
  Node.H (calcJointKinematicsPos parent n) =
  match Node.cls n with
  | RBGroundBody => Node.H n
  | RBNodeTranslate => [linRow Rp e_x; linRow Rp e_y; linRow Rp e_z]
  | RBNodeTorsion => [angRow Rp (mulMV33 (Node.R_BJ n) e_z)]
  | RBNodeRotate3 => [angRow Rp e_x; angRow Rp e_y; angRow Rp e_z]
  | RBNodeTranslateRotate3 =>
      [angRow Rp e_x; angRow Rp e_y; angRow Rp e_z;
       linRow Rp e_x; linRow Rp e_y; linRow Rp e_z]
  | RBNodeRotate2 =>
      [angRow Rb (mulMV33 (Node.R_BJ n) e_x);
       angRow Rb (mulMV33 (Node.R_BJ n) e_y)]
  | RBNodeTranslateRotate2 =>
      [angRow Rb (mulMV33 (Node.R_BJ n) e_x);
       angRow Rb (mulMV33 (Node.R_BJ n) e_y);
       linRow Rp e_x; linRow Rp e_y; linRow Rp e_z]
  end.
Proof.
  intros Rp Rb. subst Rb. rewrite calcJointKinematicsPos_R_PB. subst Rp.
  unfold calcJointKinematicsPos, rotate2_xy.
  rewrite !blockMat12_33_lin, !blockMat12_33_ang.
  destruct (Node.cls n); try reflexivity.
  - destruct (calcR_PB _ _). reflexivity.
  - destruct (calcR_PB _ _). reflexivity.
  - cbn. rewrite !vscale3_1. reflexivity.
  - cbn. rewrite !vscale3_1. reflexivity.
Qed.

(** What [setJointPos] and [calcJointKinematicsPos] leave alone. *)
Lemma setJointPos_frame (th0 : CDSVec3) (posv : RVec) (n : Node.t) :
  let n' := setJointPos th0 posv n in
  Node.cls n' = Node.cls n /\ Node.R_BJ n' = Node.R_BJ n /\
  Node.massProps_B n' = Node.massProps_B n /\
  Node.stateOffset n' = Node.stateOffset n /\
  Ball.useEuler (Node.ball n') = Ball.useEuler (Node.ball n).
Proof.
  unfold setJointPos, setBallPos.
  destruct (Node.cls n) eqn:E; simpl; try (repeat split; assumption);
    destruct (Ball.useEuler (Node.ball n)) eqn:U; simpl;
    repeat split; try assumption;
    destruct (Node.ball n); simpl in *; assumption.
Qed.

Lemma calcJointKinematicsPos_frame (parent n : Node.t) :
  let n' := calcJointKinematicsPos parent n in
  Node.cls n' = Node.cls n /\ Node.R_BJ n' = Node.R_BJ n /\
  Node.massProps_B n' = Node.massProps_B n /\
  Node.stateOffset n' = Node.stateOffset n /\
  Node.theta n' = Node.theta n.
Proof.
  unfold calcJointKinematicsPos, rotate2_xy.
  destruct (Node.cls n) eqn:E; simpl; try (repeat split; assumption);
    destruct (calcR_PB _ _); simpl; repeat split; assumption.
Qed.

(** [setPos] on a node that is not the ground, as the composition of its
    three steps on the node with [forceInternal] zeroed. *)
Lemma setPos_steps (th0 : CDSVec3) (parent : Node.t) (posv : RVec)
  (n : Node.t) :
  Node.cls n <> RBGroundBody ->
  setPos th0 parent posv n =
  calcJointIndependentKinematicsPos parent
    (calcJointKinematicsPos parent
       (setJointPos th0 posv
          (Node.set_forceInternal (zeroN (dofOf (Node.cls n))) n))).
Proof.
  intros Hc. unfold setPos. destruct (Node.cls n); try congruence; reflexivity.
Qed.

Lemma setJointPos_ball_q (th0 : CDSVec3) (posv : RVec) (n : Node.t) :
  hasBall n -> Ball.useEuler (Node.ball n) = false ->
  Ball.q (Node.ball (setJointPos th0 posv n)) =
  vec4_of_list (subVec posv (Node.stateOffset n) 4).
Proof.
  intros [E|E] Hq; unfold setJointPos, setBallPos; rewrite E, Hq; reflexivity.
Qed.

(** X2.  The position pass keeps the frames rotations: if the parent's
    [R_GB] is a rotation matrix (orthogonal, of determinant 1) and the
    joint frame [R_BJ] is orthogonal (and, for a quaternion ball, the
    quaternion read from the position vector has unit norm), then after
    [setPos] the node's [R_PB] and [R_GB = R_GP * R_PB] are rotation
    matrices, for every joint class. *)
Theorem setPos_keeps_rotations (th0 : CDSVec3) (parent : Node.t)
  (posv : RVec) (n : Node.t) :
  Node.cls n <> RBGroundBody ->
  rotation33 (Node.R_GB parent) ->
  orthogonal33 (Node.R_BJ n) ->
  (hasBall n -> Ball.useEuler (Node.ball n) = false ->
   let q := vec4_of_list (subVec posv (Node.stateOffset n) 4) in
   dot4 q q = 1) ->
  let n' := setPos th0 parent posv n in
  rotation33 (Node.R_PB n') /\
  rotation33 (Node.R_GB n') /\
  Node.R_GB n' = mmul33 (Node.R_GB parent) (Node.R_PB n').
Proof.
  intros Hc Hp Hb Hq n'. subst n'. rewrite setPos_steps by exact Hc.
  set (n0 := Node.set_forceInternal (zeroN (dofOf (Node.cls n))) n).
  set (n1 := setJointPos th0 posv n0).
  destruct (setJointPos_frame th0 posv n0) as (C1 & B1 & _ & _ & U1).
  fold n1 in C1, B1, U1.
  change (Node.cls n0) with (Node.cls n) in C1.
  change (Node.R_BJ n0) with (Node.R_BJ n) in B1.
  change (Node.ball n0) with (Node.ball n) in U1.
  assert (HR : rotation33 (Node.R_PB (calcJointKinematicsPos parent n1))).
  { rewrite calcJointKinematicsPos_R_PB, C1, B1.
    destruct (Node.cls n) eqn:E; try congruence.
    - apply rotation33_ident.
    - apply rotation33_orthoTransform; [apply rotation33_Rz|exact Hb].
    - destruct (Ball.useEuler (Node.ball n)) eqn:U.
      + apply calcR_PB_rotation_euler. congruence.
      + apply calcR_PB_rotation_quat; [congruence|].
        unfold n1. rewrite setJointPos_ball_q; [|left; exact E|exact U].
        apply Hq; [left; exact E|reflexivity].
    - destruct (Ball.useEuler (Node.ball n)) eqn:U.
      + apply calcR_PB_rotation_euler. congruence.
      + apply calcR_PB_rotation_quat; [congruence|].
        unfold n1. rewrite setJointPos_ball_q; [|right; exact E|exact U].
        apply Hq; [right; exact E|reflexivity].
    - apply rotation33_orthoTransform; [|exact Hb].
      rewrite rotate2_R_JiJ_factors.
      apply rotation33_mul; [apply rotation33_Ry|apply rotation33_Rx].
    - apply rotation33_orthoTransform; [|exact Hb].
      rewrite rotate2_R_JiJ_factors.
      apply rotation33_mul; [apply rotation33_Ry|apply rotation33_Rx]. }
  change (Node.R_PB (calcJointIndependentKinematicsPos parent
                       (calcJointKinematicsPos parent n1)))
    with (Node.R_PB (calcJointKinematicsPos parent n1)).
  change (Node.R_GB (calcJointIndependentKinematicsPos parent
                       (calcJointKinematicsPos parent n1)))
    with (mmul33 (Node.R_GB parent)
                 (Node.R_PB (calcJointKinematicsPos parent n1))).
  split; [exact HR|]. split; [|reflexivity].
  now apply rotation33_mul.
Qed.

Lemma setPos_keeps_rotations_witness :
  rotation33
    (Node.R_GB (setPos vec3_0 theGround [1; 0; 0; 0] quatBallNode)).
Proof.
  refine (proj1 (proj2 (setPos_keeps_rotations vec3_0 theGround [1; 0; 0; 0]
                          quatBallNode _ _ _ _))).
  - simpl. discriminate.
  - apply rotation33_ident.
  - apply orthogonal33_ident.
  - intros _ _. unfold dot4, vec4_of_list, subVec. simpl. ring.
Defined.

(** *** The spatial inertia *)

Lemma symmetric33_orthoTransform (M Rm : CDSMat33) :
  symmetric33 M -> symmetric33 (orthoTransform33 M Rm).
Proof.
  unfold symmetric33, orthoTransform33. intros HM.
  rewrite !transpose33_mul, transpose33_invol, HM.
  now rewrite mmul33_assoc.
Qed.

Lemma Mk_blocks_symmetric (I : CDSMat33) (m : R) (s : CDSVec3) :
  symmetric33 I ->
  symmetric66
    (blockMat22 I (mscale33 m (crossMat s))
                (mneg33 (mscale33 m (crossMat s))) (mscale33 m ident33)).
Proof.
  unfold symmetric33, symmetric66, transpose66. simpl. intros HI.
  rewrite HI. f_equal; alg.
Qed.

(** X3.  After [setPos] the spatial inertia [Mk] of a node that is not
    the ground is a symmetric 6x6 matrix, whatever the orientation, as
    long as the body's inertia tensor is symmetric; its lower-right block
    is [mass * I] and its off-diagonal blocks are
    [mass * crossMat(COMstation_G)] and the negation of that. *)
Theorem setPos_Mk_symmetric (th0 : CDSVec3) (parent : Node.t)
  (posv : RVec) (n : Node.t) :
  Node.cls n <> RBGroundBody ->
  symmetric33 (getInertia_OB_B (Node.massProps_B n)) ->
  let n' := setPos th0 parent posv n in
  symmetric66 (Node.Mk n') /\
  symmetric33 (Node.inertia_OB_G n') /\
  b11 (Node.Mk n') = Node.inertia_OB_G n' /\
  b12 (Node.Mk n') =
    mscale33 (getMass (Node.massProps_B n)) (crossMat (Node.COMstation_G n')) /\
  b21 (Node.Mk n') = mneg33 (b12 (Node.Mk n')) /\
  b22 (Node.Mk n') = mscale33 (getMass (Node.massProps_B n)) ident33 /\
  Node.COMstation_G n' =
    mulMV33 (Node.R_GB n') (getCOM_B (Node.massProps_B n)).
Proof.
  intros Hc HI n'. subst n'. rewrite setPos_steps by exact Hc.
  set (n0 := Node.set_forceInternal (zeroN (dofOf (Node.cls n))) n).
  set (n1 := setJointPos th0 posv n0).
  set (n2 := calcJointKinematicsPos parent n1).
  destruct (setJointPos_frame th0 posv n0) as (_ & _ & M1 & _).
  destruct (calcJointKinematicsPos_frame parent n1) as (_ & _ & M2 & _).
  fold n1 in M1. fold n2 in M2.
  change (Node.massProps_B n0) with (Node.massProps_B n) in M1.
  assert (HM : Node.massProps_B n2 = Node.massProps_B n) by congruence.
  unfold calcJointIndependentKinematicsPos, getR_GB. simpl.
  rewrite HM.
  split; [apply Mk_blocks_symmetric; now apply symmetric33_orthoTransform|].
  split; [now apply symmetric33_orthoTransform|].
  repeat split.
Qed.

Lemma setPos_Mk_symmetric_witness :
  symmetric66 (Node.Mk (setPos vec3_0 theGround [0] torsion0)).
Proof.
  refine (proj1 (setPos_Mk_symmetric vec3_0 theGround [0] torsion0 _ _)).
  - simpl. discriminate.
  - reflexivity.
Defined.

(** *** Products of the [dof]-sized matrices *)

Lemma dot6_vadd6_r (h u v : CDSVec6) :
  dot6 h (vadd6 u v) = dot6 h u + dot6 h v.
Proof. alg. Qed.

Lemma dot6_vscale6_r (h u : CDSVec6) (x : R) :
  dot6 h (vscale6 x u) = x * dot6 h u.
Proof. alg. Qed.

Lemma dot6_0_r (h : CDSVec6) : dot6 h vec6_0 = 0.
Proof. alg. Qed.

Lemma dot6_lincomb (h : CDSVec6) (X : list CDSVec6) (c : FixedVector) :
  dot6 h (lincomb X c) = dotN (map (dot6 h) X) c.
Proof.
  unfold dotN, sumN. revert c.
  induction X as [|x X IH]; intros [|a c]; simpl; try apply dot6_0_r.
  rewrite dot6_vadd6_r, dot6_vscale6_r, IH. ring.
Qed.

(** [H * (sum_k c_k X_k)] is the matrix of the dot products [H_i . X_k]
    applied to [c]. *)
Lemma mulHv_lincomb (H X : list CDSVec6) (c : FixedVector) :
  mulHv H (lincomb X c) = mulNv (map (fun h => map (dot6 h) X) H) c.
Proof.
  unfold mulHv, mulNv. rewrite map_map. apply map_ext.
  intros h. apply dot6_lincomb.
Qed.

Lemma dotN_delta (i : nat) (c : list R) (s : nat) :
  dotN (map (fun j => if Nat.eqb i j then 1 else 0) (seq s (length c))) c =
  if andb (s <=? i)%nat (i <? s + length c)%nat then nth (i - s) c 0 else 0.
Proof.
  unfold dotN, sumN. revert s.
  induction c as [|a c IH]; intros s; simpl.
  - destruct (s <=? i)%nat eqn:A, (i <? s + 0)%nat eqn:B; simpl; try reflexivity.
    apply Nat.leb_le in A. apply Nat.ltb_lt in B. lia.
  - rewrite IH.
    destruct (Nat.eqb_spec i s) as [->|Hne].
    + rewrite Nat.sub_diag.
      replace (S s <=? s)%nat with false by (symmetry; apply Nat.leb_gt; lia).
      replace (s <=? s)%nat with true by (symmetry; apply Nat.leb_le; lia).
      replace (s <? s + S (length c))%nat with true
        by (symmetry; apply Nat.ltb_lt; lia).
      simpl. ring.
    + destruct (S s <=? i)%nat eqn:A.
      * apply Nat.leb_le in A.
        replace (s <=? i)%nat with true by (symmetry; apply Nat.leb_le; lia).
        replace (i <? s + S (length c))%nat with (i <? S s + length c)%nat
          by (f_equal; lia).
        destruct (i <? S s + length c)%nat; simpl; [|ring].
        replace (i - s)%nat with (S (i - S s)) by lia. simpl. ring.
      * apply Nat.leb_gt in A.
        replace (s <=? i)%nat with false by (symmetry; apply Nat.leb_gt; lia).
        simpl. ring.
Qed.

Lemma mulNv_identN (c : FixedVector) : mulNv (identN (length c)) c = c.
Proof.
  unfold mulNv, identN. rewrite map_map.
  apply (nth_ext _ _ 0 0).
  - now rewrite length_map, length_seq.
  - intros i Hi. rewrite length_map, length_seq in Hi.
    rewrite (nth_indep _ 0
               (dotN (map (fun j => if Nat.eqb 0 j then 1 else 0)
                          (seq 0 (length c))) c))
      by (now rewrite length_map, length_seq).
    rewrite (map_nth (fun x =>
               dotN (map (fun j => if Nat.eqb x j then 1 else 0)
                         (seq 0 (length c))) c)).
    rewrite seq_nth by exact Hi. simpl.
    rewrite dotN_delta. simpl.
    replace (i <? length c)%nat with true by (symmetry; apply Nat.ltb_lt; lia).
    now rewrite Nat.sub_0_r.
Qed.

Lemma dotN_add_l (u w v : list R) :
  length u = length w ->
  dotN (zipWith Rplus u w) v = dotN u v + dotN w v.
Proof.
  unfold dotN, sumN. revert w v.
  induction u as [|a u IH]; intros [|b w] v Hlen; try discriminate Hlen.
  - simpl. ring.
  - destruct v as [|x v]; simpl; [ring|].
    rewrite IH by (simpl in Hlen; lia). ring.
Qed.

Lemma dotN_scale_l (r : R) (u v : list R) :
  dotN (map (Rmult r) u) v = r * dotN u v.
Proof.
  unfold dotN, sumN. revert v.
  induction u as [|a u IH]; intros [|x v]; simpl; try ring.
  rewrite IH. ring.
Qed.

Lemma dotN_nil_r (u : list R) : dotN u [] = 0.
Proof. destruct u; reflexivity. Qed.

Lemma dotN_zero_l (m : nat) (js : list nat) (v : list R) :
  dotN (map (fun _ : nat => 0) js) v = 0.
Proof.
  unfold dotN, sumN. revert v.
  induction js as [|j js IH]; intros [|x v]; simpl; try reflexivity.
  rewrite IH. ring.
Qed.

(** The entries [row . col_j (b :: B)] split along the first row of the
    right factor. *)
Lemma row_times_cols_cons (r : R) (row b : list R) (B : FixedMatrixNN)
  (m : nat) :
  length b = m ->
  map (fun j => dotN (r :: row) (colN j (b :: B))) (seq 0 m) =
  zipWith Rplus (map (Rmult r) b)
          (map (fun j => dotN row (colN j B)) (seq 0 m)).
Proof.
  intros Hlen. subst m.
  rewrite <- (map_nth_seq b) at 2. rewrite map_map.
  generalize (seq 0 (length b)). intros js.
  induction js as [|j js IH]; [reflexivity|].
  cbn [map zipWith]. rewrite <- IH. unfold dotN, sumN. reflexivity.
Qed.

(** [(A * B) * v = A * (B * v)] for one row of [A]. *)
Lemma dotN_row_mmulN (row : list R) (B : FixedMatrixNN) (v : FixedVector) :
  Forall (fun b => length b = length v) B ->
  dotN (map (fun j => dotN row (colN j B)) (seq 0 (length v))) v =
  dotN row (mulNv B v).
Proof.
  revert row.
  induction B as [|b B IH]; intros row HB.
  - simpl. rewrite dotN_nil_r.
    replace (map (fun j => dotN row (colN j [])) (seq 0 (length v)))
      with (map (fun _ : nat => 0) (seq 0 (length v)))
      by (apply map_ext; intros j; now rewrite dotN_nil_r).
    now apply (dotN_zero_l 0).
  - inversion HB as [|? ? Hb HB']; subst.
    destruct row as [|r row].
    + replace (map (fun j => dotN [] (colN j (b :: B))) (seq 0 (length v)))
        with (map (fun _ : nat => 0) (seq 0 (length v)))
        by (apply map_ext; intros j; reflexivity).
      rewrite (dotN_zero_l 0). reflexivity.
    + rewrite (row_times_cols_cons r row b B (length v) Hb).
      rewrite dotN_add_l
        by (rewrite !length_map, length_seq; exact Hb).
      rewrite dotN_scale_l, IH by exact HB'.
      unfold mulNv, dotN, sumN. simpl. reflexivity.
Qed.

Lemma mulNv_mmulN (A B : FixedMatrixNN) (v : FixedVector) :
  length B = length v ->
  Forall (fun b => length b = length v) B ->
  mulNv (mmulN A B) v = mulNv A (mulNv B v).
Proof.
  intros HlenB HB. unfold mulNv at 1 3, mmulN. rewrite map_map.
  apply map_ext. intros row. rewrite HlenB.
  now apply dotN_row_mmulN.
Qed.

Lemma vsubN_self (x : FixedVector) : vsubN x x = zeroN (length x).
Proof.
  unfold vsubN, zeroN. induction x as [|a x IH]; simpl; [reflexivity|].
  rewrite IH. f_equal. ring.
Qed.

(** *** The rows of [H] are orthonormal *)

Lemma dot6_ang_ang (Q : CDSMat33) (u v : CDSVec3) :
  orthogonal33 Q -> dot6 (angRow Q u) (angRow Q v) = dot3 u v.
Proof.
  intros HQ. unfold dot6, angRow. simpl.
  rewrite (orthogonal33_dot Q u v HQ). unfold dot3, vec3_0. simpl. ring.
Qed.

Lemma dot6_lin_lin (Q : CDSMat33) (u v : CDSVec3) :
  orthogonal33 Q -> dot6 (linRow Q u) (linRow Q v) = dot3 u v.
Proof.
  intros HQ. unfold dot6, linRow. simpl.
  rewrite (orthogonal33_dot Q u v HQ). unfold dot3, vec3_0. simpl. ring.
Qed.

Lemma dot6_ang_lin (Q Q' : CDSMat33) (u v : CDSVec3) :
  dot6 (angRow Q u) (linRow Q' v) = 0.
Proof. unfold dot6, angRow, linRow, dot3, vec3_0. simpl. ring. Qed.

Lemma dot6_lin_ang (Q Q' : CDSMat33) (u v : CDSVec3) :
  dot6 (linRow Q u) (angRow Q' v) = 0.
Proof. unfold dot6, angRow, linRow, dot3, vec3_0. simpl. ring. Qed.

Lemma dot3_basis :
  dot3 e_x e_x = 1 /\ dot3 e_x e_y = 0 /\ dot3 e_x e_z = 0 /\
  dot3 e_y e_x = 0 /\ dot3 e_y e_y = 1 /\ dot3 e_y e_z = 0 /\
  dot3 e_z e_x = 0 /\ dot3 e_z e_y = 0 /\ dot3 e_z e_z = 1.
Proof. unfold dot3, e_x, e_y, e_z. simpl. repeat split; ring. Qed.

Ltac gram_entries Hp Hb :=
  rewrite ?(dot6_ang_ang _ _ _ Hp), ?(dot6_lin_lin _ _ _ Hp),
    ?dot6_ang_lin, ?dot6_lin_ang,
    ?(orthogonal33_dot _ _ _ Hb);
  destruct dot3_basis as (? & ? & ? & ? & ? & ? & ? & ? & ?);
  repeat match goal with
         | E : dot3 _ _ = _ |- _ => rewrite E; clear E
         end;
  reflexivity.

(** X4.  After [setPos] under a parent whose [R_GB] is a rotation matrix,
    on a node whose joint frame [R_BJ] is a rotation matrix, the rows of
    the joint matrix [H] are orthonormal: [H * transpose(H)] is the
    identity of size [dof], for every joint class. *)
Theorem setPos_H_orthonormal (th0 : CDSVec3) (parent : Node.t)
  (posv : RVec) (n : Node.t) :
  Node.cls n <> RBGroundBody ->
  orthogonal33 (Node.R_GB parent) ->
  orthogonal33 (Node.R_BJ n) ->
  gram (Node.H (setPos th0 parent posv n)) = identN (dofOf (Node.cls n)).
Proof.
  intros Hc Hp Hb. rewrite setPos_steps by exact Hc.
  set (n0 := Node.set_forceInternal (zeroN (dofOf (Node.cls n))) n).
  set (n1 := setJointPos th0 posv n0).
  destruct (setJointPos_frame th0 posv n0) as (C1 & B1 & _).
  fold n1 in C1, B1.
  change (Node.cls n0) with (Node.cls n) in C1.
  change (Node.R_BJ n0) with (Node.R_BJ n) in B1.
  change (Node.H (calcJointIndependentKinematicsPos parent
                    (calcJointKinematicsPos parent n1)))
    with (Node.H (calcJointKinematicsPos parent n1)).
  pose proof (calcJointKinematicsPos_H parent n1) as HH. cbv zeta in HH.
  rewrite HH. clear HH.
  assert (HR2 : Node.cls n = RBNodeRotate2 \/
                Node.cls n = RBNodeTranslateRotate2 ->
                orthogonal33
                  (mmul33 (getR_GP parent)
                     (Node.R_PB (calcJointKinematicsPos parent n1)))).
  { intros Hcls. apply orthogonal33_mul; [exact Hp|].
    rewrite calcJointKinematicsPos_R_PB, C1, B1.
    assert (Ho : orthogonal33
                   (orthoTransform33 (rotate2_R_JiJ (Node.theta n1))
                                     (Node.R_BJ n))).
    { apply orthogonal33_orthoTransform; [|exact Hb].
      rewrite rotate2_R_JiJ_factors.
      apply orthogonal33_mul; [apply orthogonal33_Ry|apply orthogonal33_Rx]. }
    destruct Hcls as [E|E]; rewrite E; exact Ho. }
  rewrite C1, B1. unfold getR_GP in *.
  destruct (Node.cls n) eqn:E; try congruence; unfold gram; cbn [map dofOf].
  - gram_entries Hp Hb.
  - gram_entries Hp Hb.
  - gram_entries Hp Hb.
  - gram_entries Hp Hb.
  - assert (Hr : orthogonal33
                   (mmul33 (Node.R_GB parent)
                      (Node.R_PB (calcJointKinematicsPos parent n1))))
      by (apply HR2; now left).
    rewrite ?(dot6_ang_ang _ _ _ Hr). gram_entries Hp Hb.
  - assert (Hr : orthogonal33
                   (mmul33 (Node.R_GB parent)
                      (Node.R_PB (calcJointKinematicsPos parent n1))))
      by (apply HR2; now right).
    rewrite ?(dot6_ang_ang _ _ _ Hr). gram_entries Hp Hb.
Qed.

Lemma setPos_H_orthonormal_witness :
  gram (Node.H (setPos vec3_0 theGround [1; 0; 0; 0] quatBallNode)) =
  identN (dofOf (Node.cls quatBallNode)).
Proof.
  refine (setPos_H_orthonormal vec3_0 theGround [1; 0; 0; 0]
            quatBallNode _ _ _).
  - simpl. discriminate.
  - apply orthogonal33_ident.
  - apply orthogonal33_ident.
Defined.

(** *** The velocity pass and its inverse *)

Lemma length_subVec (v : RVec) (off k : nat) :
  (off + k <= length v)%nat -> length (subVec v off k) = k.
Proof.
  intros H. unfold subVec. rewrite length_firstn, length_skipn. lia.
Qed.

Lemma length_setSubVec (v : RVec) (off : nat) (vals : list R) :
  (off + length vals <= length v)%nat ->
  length (setSubVec v off vals) = length v.
Proof.
  intros H. unfold setSubVec.
  rewrite !length_app, length_firstn, length_skipn. lia.
Qed.

Lemma vec3_of_list_of_vec3 (v : CDSVec3) : vec3_of_list (list_of_vec3 v) = v.
Proof. destruct v. reflexivity. Qed.

(** The first three entries after the two slice assignments of the free
    joint. *)
Lemma free_joint_slices (l : list R) (w : CDSVec3) (t : list R) :
  length l = 6%nat -> length t = 3%nat ->
  let l' := setSubVec (setSubVec l 0 (list_of_vec3 w)) 3 t in
  length l' = 6%nat /\ vec3_of_list (subVec l' 0 3) = w /\
  subVec l' 3 3 = t.
Proof.
  intros Hl Ht.
  destruct l as [|l0 [|l1 [|l2 [|l3 [|l4 [|l5 [|]]]]]]]; try discriminate Hl.
  destruct t as [|t0 [|t1 [|t2 [|]]]]; try discriminate Ht.
  destruct w. repeat split.
Qed.

Lemma Mq43_Mq34_projection (q d : CDSVec4) :
  mul43 (scale43 (1/2) (Mq43 q)) (vscale3 2 (mul34 (Mq34 q) d)) =
  vsub4 (vscale4 (dot4 q q) d) (vscale4 (dot4 q d) q).
Proof.
  destruct q as [a b c e], d as [x y z w].
  unfold mul43, mul34, scale43, Mq43, Mq34, vscale3, vscale4, vsub4, dot4,
    dot3. simpl. f_equal; field.
Qed.

Lemma vsub6_vadd6_cancel (A V : CDSVec6) : vsub6 (vadd6 A V) A = V.
Proof. alg. Qed.

(** What [setJointVel] leaves alone and what it stores. *)
Lemma setJointVel_frame (velv : RVec) (n : Node.t) :
  let n' := setJointVel velv n in
  Node.cls n' = Node.cls n /\ Node.H n' = Node.H n /\
  Node.phi n' = Node.phi n /\
  Ball.useEuler (Node.ball n') = Ball.useEuler (Node.ball n) /\
  Ball.q (Node.ball n') = Ball.q (Node.ball n).
Proof.
  unfold setJointVel, setBallVel.
  destruct (Node.cls n) eqn:E; simpl; try (repeat split; assumption);
    destruct (Ball.useEuler (Node.ball n)) eqn:U; simpl;
    repeat split; try assumption;
    destruct (Node.ball n); simpl in *; assumption.
Qed.

Lemma setJointVel_length (velv : RVec) (n : Node.t) :
  Node.cls n <> RBGroundBody ->
  (Node.stateOffset n + getDim n <= length velv)%nat ->
  length (Node.dTheta n) = dofOf (Node.cls n) ->
  length (Node.dTheta (setJointVel velv n)) = dofOf (Node.cls n).
Proof.
  intros Hc Hlen Hd. unfold setJointVel, getDim in *.
  destruct (Node.cls n) eqn:E; try congruence.
  1, 2, 5, 6: (simpl in *; apply length_subVec; exact Hlen).
  - destruct (setBallVel _ _ _ _). reflexivity.
  - unfold setBallVel, getBallDim in *.
    destruct (Ball.useEuler (Node.ball n)) eqn:U;
      cbn -[setSubVec subVec list_of_vec3 Nat.add]; rewrite ?U;
      apply free_joint_slices; try exact Hd; apply length_subVec;
      cbn [dofOf] in *; lia.
Qed.

Lemma setJointVel_quat (velv : RVec) (n : Node.t) :
  hasBall n -> Ball.useEuler (Node.ball n) = false ->
  (Node.stateOffset n + getDim n <= length velv)%nat ->
  length (Node.dTheta n) = dofOf (Node.cls n) ->
  let n' := setJointVel velv n in
  let dq := vec4_of_list (subVec velv (Node.stateOffset n) 4) in
  Ball.dq (Node.ball n') = dq /\
  vec3_of_list (subVec (Node.dTheta n') 0 3) =
    vscale3 2 (mul34 (Mq34 (Ball.q (Node.ball n))) dq).
Proof.
  intros Hb Hq Hlen Hd n' dq. subst n' dq.
  unfold setJointVel, setBallVel, getDim, getBallDim in *.
  destruct Hb as [E|E]; rewrite E in *; rewrite Hq in *.
  - cbn -[subVec vec3_of_list vec4_of_list]. split; [reflexivity|].
    rewrite vec3_of_list_firstn. apply vec3_of_list_of_vec3.
  - cbn -[setSubVec subVec list_of_vec3 vec3_of_list vec4_of_list Nat.add
          vscale3 mul34 Mq34].
    split; [reflexivity|].
    apply free_joint_slices; [exact Hd|].
    rewrite Hq. apply length_subVec. cbv iota in Hlen. lia.
Qed.

(** X5.  [setVelFromSVel] undoes [setVel].  On a node whose [H] has
    orthonormal rows (as [setPos] leaves it), feeding the spatial
    velocity that [setVel] computed back to [setVelFromSVel] returns the
    same generalized velocities [dTheta]; a node without a ball is left
    unchanged, and on a quaternion ball the stored quaternion derivative
    becomes [|q|^2 * dq - (q . dq) * q], which is [dq] itself when [q]
    has unit norm and [dq] is tangent ([q . dq = 0]). *)
Theorem setVelFromSVel_inverts_setVel (pv : Vel.t) (velv : RVec)
  (n : Node.t) (v : Vel.t) :
  Node.cls n <> RBGroundBody ->
  (hasBall n -> Ball.useEuler (Node.ball n) = false) ->
  gram (Node.H n) = identN (dofOf (Node.cls n)) ->
  length (Node.dTheta n) = dofOf (Node.cls n) ->
  (Node.stateOffset n + getDim n <= length velv)%nat ->
  let n1 := fst (setVel pv velv n v) in
  let v1 := snd (setVel pv velv n v) in
  exists n2,
    setVelFromSVel pv (Vel.sVel v1) n1 = Some n2 /\
    Node.dTheta n2 = Node.dTheta n1 /\
    (~ hasBall n -> n2 = n1) /\
    (hasBall n ->
     let q := Ball.q (Node.ball n) in
     let dq := vec4_of_list (subVec velv (Node.stateOffset n) 4) in
     Ball.dq (Node.ball n1) = dq /\
     Ball.dq (Node.ball n2) =
       vsub4 (vscale4 (dot4 q q) dq) (vscale4 (dot4 q dq) q) /\
     (dot4 q q = 1 -> dot4 q dq = 0 -> Ball.dq (Node.ball n2) = dq)).
Proof.
  intros Hc Hball Hg Hd Hlen n1 v1.
  set (nj := setJointVel velv n).
  destruct (setJointVel_frame velv n) as (C & HH & HP & HU & HQ).
  fold nj in C, HH, HP, HU, HQ.
  pose proof (setJointVel_length velv n Hc Hlen Hd) as HL. fold nj in HL.
  assert (E1 : n1 = Node_set_a
                      (vadd6 (mulMV66 (blockMat22
                                         (crossMat (getSpatialAngVel pv)) zero33
                                         zero33 (crossMat (getSpatialAngVel pv)))
                                      (mulHTv (Node.H nj) (Node.dTheta nj)))
                             (blockVec vec3_0
                                (cross (getSpatialAngVel pv)
                                   (vsub3 (lin (Vel.sVel v1))
                                          (getSpatialLinVel pv)))))
                      (Node_set_b (Node.b n1) nj)).
  { subst n1 v1 nj. unfold setVel.
    destruct (Node.cls n); try congruence; reflexivity. }
  assert (E2 : Vel.sVel v1 =
               vadd6 (phiT_mul (Node.phi nj) (Vel.sVel pv))
                     (mulHTv (Node.H nj) (Node.dTheta nj))).
  { subst v1 nj. unfold setVel.
    destruct (Node.cls n); try congruence; reflexivity. }
  assert (F : Node.cls n1 = Node.cls n /\ Node.H n1 = Node.H n /\
              Node.phi n1 = Node.phi nj /\ Node.dTheta n1 = Node.dTheta nj /\
              Node.ball n1 = Node.ball nj).
  { rewrite E1. simpl. repeat split; assumption. }
  destruct F as (C1 & H1 & P1 & D1 & B1).
  assert (Hround : mulHv (Node.H n1)
                     (vsub6 (Vel.sVel v1)
                            (phiT_mul (Node.phi n1) (Vel.sVel pv))) =
                   Node.dTheta n1).
  { rewrite E2, P1, vsub6_vadd6_cancel, H1, HH, D1.
    unfold mulHTv. rewrite mulHv_lincomb.
    change (map (fun h => map (dot6 h) (Node.H n)) (Node.H n))
      with (gram (Node.H n)).
    rewrite Hg, <- HL. apply mulNv_identN. }
  assert (Hset : Node.set_dTheta (Node.dTheta n1) n1 = n1)
    by (destruct n1; reflexivity).
  assert (HQ12 : hasBall n ->
            Ball.dq (Node.ball nj) =
              vec4_of_list (subVec velv (Node.stateOffset n) 4) /\
            vec3_of_list (subVec (Node.dTheta nj) 0 3) =
              vscale3 2 (mul34 (Mq34 (Ball.q (Node.ball n)))
                           (vec4_of_list
                              (subVec velv (Node.stateOffset n) 4)))).
  { intros Hb. exact (setJointVel_quat velv n Hb (Hball Hb) Hlen Hd). }
  unfold setVelFromSVel. rewrite Hround, Hset, C1.
  destruct (Node.cls n) eqn:E; try congruence.
  - exists n1. split; [reflexivity|]. split; [reflexivity|].
    split; [reflexivity|]. intros [X|X]; unfold hasBall in *; congruence.
  - exists n1. split; [reflexivity|]. split; [reflexivity|].
    split; [reflexivity|]. intros [X|X]; unfold hasBall in *; congruence.
  - (* RBNodeRotate3 *)
    assert (Hb : hasBall n) by (left; exact E).
    pose proof (Hball Hb) as Hq.
    destruct (HQ12 Hb) as (Q1 & Q2).
    rewrite vec3_of_list_firstn in Q2.
    unfold setBallDerivs. rewrite B1, HU, Hq, D1, Q2, HQ.
    eexists. split; [reflexivity|]. simpl.
    rewrite Mq43_Mq34_projection.
    split; [exact D1|]. split; [intros X; contradiction|].
    intros _. split; [exact Q1|]. split; [reflexivity|].
    intros U T. rewrite U, T.
    destruct (vec4_of_list _) as [x y z w], (Ball.q _) as [a b c e].
    unfold vsub4, vscale4. simpl. f_equal; ring.
  - (* RBNodeTranslateRotate3 *)
    assert (Hb : hasBall n) by (right; exact E).
    pose proof (Hball Hb) as Hq.
    destruct (HQ12 Hb) as (Q1 & Q2).
    unfold setBallDerivs. rewrite B1, HU, Hq, D1, Q2, HQ.
    eexists. split; [reflexivity|]. simpl.
    rewrite Mq43_Mq34_projection.
    split; [exact D1|]. split; [intros X; contradiction|].
    intros _. split; [exact Q1|]. split; [reflexivity|].
    intros U T. rewrite U, T.
    destruct (vec4_of_list _) as [x y z w], (Ball.q _) as [a b c e].
    unfold vsub4, vscale4. simpl. f_equal; ring.
  - exists n1. split; [reflexivity|]. split; [reflexivity|].
    split; [reflexivity|]. intros [X|X]; unfold hasBall in *; congruence.
  - exists n1. split; [reflexivity|]. split; [reflexivity|].
    split; [reflexivity|]. intros [X|X]; unfold hasBall in *; congruence.
Qed.

Lemma ballUnit_gram : gram (Node.H ballUnit) = identN 3.
Proof.
  unfold gram, ballUnit. cbn [Node.H Node.set_H map].
  gram_entries orthogonal33_ident orthogonal33_ident.
Qed.

Lemma setVelFromSVel_inverts_setVel_witness :
  exists n2,
    setVelFromSVel atRest
      (Vel.sVel (snd (setVel atRest [0; 1; 0; 0] ballUnit atRest)))
      (fst (setVel atRest [0; 1; 0; 0] ballUnit atRest)) = Some n2 /\
    Node.dTheta n2 =
      Node.dTheta (fst (setVel atRest [0; 1; 0; 0] ballUnit atRest)).
Proof.
  destruct (setVelFromSVel_inverts_setVel atRest [0; 1; 0; 0] ballUnit atRest)
    as (n2 & H1 & H2 & _).
  - simpl. discriminate.
  - intros _. reflexivity.
  - exact ballUnit_gram.
  - reflexivity.
  - vm_compute. lia.
  - exists n2. split; assumption.
Defined.

(** X6.  A node with a ball joint supports [setVelFromSVel] exactly in
    quaternion mode and [getInternalForce] exactly in Euler mode: in the
    other mode the call fails its assertion, whatever its arguments. *)
Theorem ball_mode_assertions (n : Node.t) :
  hasBall n ->
  (Ball.useEuler (Node.ball n) = true ->
   (forall pv sVel, setVelFromSVel pv sVel n = None) /\
   (forall t, exists t', getInternalForce t n = Some t')) /\
  (Ball.useEuler (Node.ball n) = false ->
   (forall t, getInternalForce t n = None) /\
   (forall pv sVel, exists n', setVelFromSVel pv sVel n = Some n')).
Proof.
  intros Hb. split; intros Hu; split.
  - intros pv sVel. unfold setVelFromSVel, setBallDerivs.
    destruct Hb as [E|E]; rewrite E; simpl; rewrite Hu; reflexivity.
  - intros t. unfold getInternalForce, getBallInternalForce.
    destruct Hb as [E|E]; rewrite E, Hu; eexists; reflexivity.
  - intros t. unfold getInternalForce, getBallInternalForce.
    destruct Hb as [E|E]; rewrite E, Hu; reflexivity.
  - intros pv sVel. unfold setVelFromSVel, setBallDerivs.
    destruct Hb as [E|E]; rewrite E; simpl; rewrite Hu; eexists; reflexivity.
Qed.

Lemma ball_mode_assertions_witness :
  getInternalForce [0; 0; 0; 0] quatBallNode = None /\
  exists n', setVelFromSVel atRest vec6_0 quatBallNode = Some n'.
Proof.
  assert (Hb : hasBall quatBallNode) by (left; reflexivity).
  assert (Hq : Ball.useEuler (Node.ball quatBallNode) = false)
    by reflexivity.
  split.
  - exact (proj1 (proj2 (ball_mode_assertions quatBallNode Hb) Hq)
                 [0; 0; 0; 0]).
  - exact (proj2 (proj2 (ball_mode_assertions quatBallNode Hb) Hq)
                 atRest vec6_0).
Defined.

Lemma Node_set_a_fields (x : CDSVec6) (n : Node.t) :
  Node.a (Node_set_a x n) = x /\ Node.b (Node_set_a x n) = Node.b n /\
  Node.dTheta (Node_set_a x n) = Node.dTheta n.
Proof. repeat split. Qed.

Lemma Node_set_b_fields (x : CDSVec6) (n : Node.t) :
  Node.b (Node_set_b x n) = x /\ Node.a (Node_set_b x n) = Node.a n /\
  Node.dTheta (Node_set_b x n) = Node.dTheta n.
Proof. repeat split. Qed.

(** X7.  After [setVel] on a node that is not the ground, with [w_p],
    [v_p] the parent's angular and linear velocity, [l] the offset of
    [phi] and [V = transpose(H) * dTheta] the joint's relative velocity:
    the spatial velocity is [(w_p + V.ang, v_p + w_p x l + V.lin)]; the
    coriolis acceleration [a] is
    [(w_p x V.ang, 2 * w_p x V.lin + w_p x (w_p x l))]; and both halves
    of the gyroscopic force [b] are orthogonal to the body's angular
    velocity. *)
Theorem setVel_coriolis (pv : Vel.t) (velv : RVec) (n : Node.t) (v : Vel.t) :
  Node.cls n <> RBGroundBody ->
  let n1 := fst (setVel pv velv n v) in
  let v1 := snd (setVel pv velv n v) in
  let V := mulHTv (Node.H n) (Node.dTheta n1) in
  let wp := getSpatialAngVel pv in
  let vp := getSpatialLinVel pv in
  let l := phi_l (Node.phi n) in
  Vel.V_PB_G v1 = V /\
  Vel.sVel v1 =
    blockVec (vadd3 wp (ang V))
             (vadd3 (vadd3 vp (cross wp l)) (lin V)) /\
  Node.a n1 =
    blockVec (cross wp (ang V))
             (vadd3 (vscale3 2 (cross wp (lin V)))
                    (cross wp (cross wp l))) /\
  dot3 (getSpatialAngVel v1) (ang (Node.b n1)) = 0 /\
  dot3 (getSpatialAngVel v1) (lin (Node.b n1)) = 0.
Proof.
  intros Hc n1 v1 V wp vp l.
  destruct (setJointVel_frame velv n) as (_ & HH & HP & _).
  assert (E : setVel pv velv n v =
              calcJointIndependentKinematicsVel pv (setJointVel velv n)
                (calcJointKinematicsVel (setJointVel velv n) v)).
  { unfold setVel. destruct (Node.cls n); try congruence; reflexivity. }
  subst n1 v1 V wp vp l. rewrite E.
  unfold calcJointIndependentKinematicsVel, calcJointKinematicsVel,
    getSpatialVel, getSpatialAngVel, getSpatialLinVel.
  cbn [fst snd Vel.V_PB_G Vel.sVel].
  rewrite !(proj1 (Node_set_a_fields _ _)),
    !(proj1 (proj2 (Node_set_a_fields _ _))),
    !(proj2 (proj2 (Node_set_a_fields _ _))),
    !(proj1 (Node_set_b_fields _ _)),
    !(proj2 (proj2 (Node_set_b_fields _ _))).
  rewrite HH, HP.
  generalize (mulHTv (Node.H n) (Node.dTheta (setJointVel velv n))).
  intros V.
  generalize (Node.inertia_OB_G (setJointVel velv n))
             (Node.COMstation_G (setJointVel velv n))
             (getMass (Node.massProps_B (setJointVel velv n))).
  intros I s m. clear E HH HP Hc.
  destruct pv as [pV [pw pvel]]. destruct (Node.phi n) as [l].
  cbn [Vel.sVel ang lin phi_l]. clear n v velv pV.
  repeat split; alg.
Qed.

Lemma setVel_coriolis_witness :
  Vel.V_PB_G (snd (setVel atRest [0; 1; 0; 0] ballUnit atRest)) =
  mulHTv (Node.H ballUnit)
         (Node.dTheta (fst (setVel atRest [0; 1; 0; 0] ballUnit atRest))).
Proof.
  refine (proj1 (setVel_coriolis atRest [0; 1; 0; 0] ballUnit atRest _)).
  simpl. discriminate.
Defined.

(** *** Reading the coordinates back *)

Lemma list_of_vec3_of_list (l : list R) :
  length l = 3%nat -> list_of_vec3 (vec3_of_list l) = l.
Proof.
  destruct l as [|a [|b [|c [|]]]]; try discriminate. reflexivity.
Qed.

Lemma list_of_vec4_of_list (l : list R) :
  length l = 4%nat -> list_of_vec4 (vec4_of_list l) = l.
Proof.
  destruct l as [|a [|b [|c [|d [|]]]]]; try discriminate. reflexivity.
Qed.

Lemma firstn_plus {A : Type} (a b : nat) (l : list A) :
  firstn (a + b) l = firstn a l ++ firstn b (skipn a l).
Proof.
  revert l. induction a as [|a IH]; intros l; [reflexivity|].
  destruct l as [|x l]; simpl.
  - now rewrite firstn_nil.
  - now rewrite IH.
Qed.

Lemma subVec_plus (v : RVec) (off a b : nat) :
  subVec v off (a + b) = subVec v off a ++ subVec v (off + a) b.
Proof.
  unfold subVec. rewrite firstn_plus, skipn_skipn.
  now rewrite (Nat.add_comm a off).
Qed.

Lemma setSubVec_setSubVec (p : RVec) (off : nat) (A B : list R) :
  (off + length A + length B <= length p)%nat ->
  setSubVec (setSubVec p off A) (off + length A) B = setSubVec p off (A ++ B).
Proof.
  intros Hlen. unfold setSubVec.
  assert (Hf : length (firstn off p) = off)
    by (rewrite length_firstn; lia).
  rewrite firstn_app, Hf.
  replace (off + length A - off)%nat with (length A) by lia.
  rewrite firstn_app, firstn_all, Nat.sub_diag, firstn_O, app_nil_r.
  rewrite (firstn_all2 (n := off + length A) (firstn off p)) by lia.
  rewrite skipn_app, Hf.
  rewrite (skipn_all2 (n := off + length A + length B) (firstn off p)) by lia.
  replace (off + length A + length B - off)%nat
    with (length A + length B)%nat by lia.
  rewrite skipn_app.
  rewrite (skipn_all2 (n := length A + length B) A) by lia.
  replace (length A + length B - length A)%nat with (length B) by lia.
  rewrite skipn_skipn, length_app. simpl.
  rewrite <- !app_assoc. do 3 f_equal. f_equal. lia.
Qed.

Lemma calcJointKinematicsPos_ball (parent n : Node.t) :
  Ball.useEuler (Node.ball (calcJointKinematicsPos parent n)) =
    Ball.useEuler (Node.ball n) /\
  Ball.q (Node.ball (calcJointKinematicsPos parent n)) = Ball.q (Node.ball n).
Proof.
  unfold calcJointKinematicsPos, rotate2_xy, calcR_PB, setTrig.
  destruct (Node.cls n); simpl; try (split; reflexivity);
    destruct (Node.ball n) as [q dq ddq c1 s1 c2 s2 c3 s3 [|]]; simpl;
    split; reflexivity.
Qed.

(** X8.  [getPos] after [setPos] gives back the coordinates: on a node
    that is not the ground, whose block [stateOffset .. stateOffset +
    getDim) lies inside both vectors, [getPos] writes into the caller's
    vector exactly the block of the position vector that [setPos] read
    (3 or 4 slots of it for a ball, Euler angles or quaternion, followed
    by the 3 translations for a free joint) and changes nothing else. *)
Theorem getPos_after_setPos (th0 : CDSVec3) (parent : Node.t)
  (posv p : RVec) (n : Node.t) :
  Node.cls n <> RBGroundBody ->
  length (Node.theta n) = dofOf (Node.cls n) ->
  (Node.stateOffset n + getDim n <= length posv)%nat ->
  (Node.stateOffset n + getDim n <= length p)%nat ->
  getPos p (setPos th0 parent posv n) =
  setSubVec p (Node.stateOffset n)
            (subVec posv (Node.stateOffset n) (getDim n)).
Proof.
  intros Hc Ht Hposv Hp. rewrite setPos_steps by exact Hc.
  set (n0 := Node.set_forceInternal (zeroN (dofOf (Node.cls n))) n).
  set (n1 := setJointPos th0 posv n0).
  set (n2 := calcJointKinematicsPos parent n1).
  destruct (setJointPos_frame th0 posv n0) as (C1 & _ & _ & O1 & U1).
  destruct (calcJointKinematicsPos_frame parent n1) as (C2 & _ & _ & O2 & T2).
  destruct (calcJointKinematicsPos_ball parent n1) as (U2 & Q2).
  fold n1 in C1, O1, U1. fold n2 in C2, O2, T2, U2, Q2.
  change (Node.cls n0) with (Node.cls n) in C1.
  change (Node.stateOffset n0) with (Node.stateOffset n) in O1.
  change (Node.ball n0) with (Node.ball n) in U1.
  assert (G : getPos p (calcJointIndependentKinematicsPos parent n2) =
              getPos p n2) by reflexivity.
  rewrite G. clear G.
  unfold getPos, getBallPos, getBallDim.
  rewrite C2, C1, O2, O1, U2, Q2, U1, T2.
  unfold getDim, getBallDim in *.
  unfold n1, setJointPos, setBallPos.
  change (Node.cls n0) with (Node.cls n).
  change (Node.stateOffset n0) with (Node.stateOffset n).
  change (Node.ball n0) with (Node.ball n).
  change (Node.theta n0) with (Node.theta n).
  destruct (Node.cls n) eqn:E; try congruence; try reflexivity.
  - (* RBNodeRotate3 *)
    destruct (Ball.useEuler (Node.ball n)) eqn:U;
      cbn -[subVec setSubVec vec3_of_list list_of_vec3 vec4_of_list
            list_of_vec4].
    + rewrite vec3_of_list_of_vec3, list_of_vec3_of_list
        by (apply length_subVec; lia).
      reflexivity.
    + rewrite list_of_vec4_of_list by (apply length_subVec; lia).
      reflexivity.
  - (* RBNodeTranslateRotate3 *)
    destruct (Ball.useEuler (Node.ball n)) eqn:U;
      cbn -[subVec setSubVec vec3_of_list list_of_vec3 vec4_of_list
            list_of_vec4 Nat.add];
      unfold getBallDim; cbn [Ball.useEuler Ball.set_q]; rewrite ?U.
    + destruct (free_joint_slices (Node.theta n)
                  (vec3_of_list (subVec posv (Node.stateOffset n) 3))
                  (subVec posv (Node.stateOffset n + 3) 3) Ht)
        as (_ & F1 & F2); [apply length_subVec; lia|].
      cbv zeta in F1, F2. rewrite F1, F2.
      rewrite list_of_vec3_of_list by (apply length_subVec; lia).
      rewrite subVec_plus.
      replace 3%nat with (length (subVec posv (Node.stateOffset n) 3)) at 2
        by (apply length_subVec; lia).
      apply setSubVec_setSubVec.
      rewrite !length_subVec by lia. lia.
    + destruct (free_joint_slices (Node.theta n) th0
                  (subVec posv (Node.stateOffset n + 4) 3) Ht)
        as (_ & F1 & F2); [apply length_subVec; lia|].
      cbv zeta in F1, F2. rewrite F2.
      rewrite list_of_vec4_of_list by (apply length_subVec; lia).
      rewrite subVec_plus.
      replace 4%nat with (length (subVec posv (Node.stateOffset n) 4)) at 2
        by (apply length_subVec; lia).
      apply setSubVec_setSubVec.
      rewrite !length_subVec by lia. lia.
Qed.

Lemma getPos_after_setPos_witness :
  getPos [9; 9; 9; 9] (setPos vec3_0 theGround [1; 0; 0; 0] quatBallNode) =
  setSubVec [9; 9; 9; 9] (Node.stateOffset quatBallNode)
            (subVec [1; 0; 0; 0] (Node.stateOffset quatBallNode)
                    (getDim quatBallNode)).
Proof.
  refine (getPos_after_setPos vec3_0 theGround [1; 0; 0; 0] [9; 9; 9; 9]
            quatBallNode _ _ _ _).
  - simpl. discriminate.
  - reflexivity.
  - vm_compute. lia.
  - vm_compute. lia.
Defined.

(** *** enforceConstraints is a projection *)

Lemma setSubVec_overwrite (p : RVec) (off : nat) (A B : list R) :
  (off + length A <= length p)%nat -> length A = length B ->
  setSubVec (setSubVec p off A) off B = setSubVec p off B.
Proof.
  intros Hlen HAB. unfold setSubVec.
  assert (Hf : length (firstn off p) = off)
    by (rewrite length_firstn; lia).
  rewrite firstn_app, Hf, Nat.sub_diag, firstn_O, app_nil_r.
  rewrite (firstn_all2 (n := off) (firstn off p)) by lia.
  rewrite skipn_app, Hf.
  rewrite (skipn_all2 (n := off + length B) (firstn off p)) by lia.
  replace (off + length B - off)%nat with (length B) by lia.
  rewrite skipn_app, <- HAB, skipn_all, Nat.sub_diag. simpl.
  reflexivity.
Qed.

Lemma vdiv4_1 (q : CDSVec4) : vdiv4 q 1 = q.
Proof. destruct q. unfold vdiv4. simpl. f_equal; field. Qed.

Lemma vsub4_scale_0 (d q : CDSVec4) : vsub4 d (vscale4 0 q) = d.
Proof. destruct d, q. unfold vsub4, vscale4. simpl. f_equal; ring. Qed.

Lemma enforceBallConstraints_idempotent (offset : nat) (posv velv : RVec)
  (bl : Ball.t) :
  Ball.useEuler bl = false ->
  (offset + 4 <= length posv)%nat ->
  (offset + 4 <= length velv)%nat ->
  vec4_of_list (subVec posv offset 4) <> mkVec4 0 0 0 0 ->
  let r := enforceBallConstraints offset posv velv bl in
  enforceBallConstraints offset (snd (fst r)) (snd r) (fst (fst r)) = r.
Proof.
  intros Hq Hp Hv Hq0 r. subst r.
  set (q := vec4_of_list (subVec posv offset 4)) in *.
  set (dq := vec4_of_list (subVec velv offset 4)).
  set (q' := vdiv4 q (norm4 q)).
  set (dq' := vsub4 dq (vscale4 (dot4 q' dq) q')).
  assert (E : enforceBallConstraints offset posv velv bl =
              (Ball.set_dq dq' (Ball.set_q q' bl),
               setSubVec posv offset (list_of_vec4 q'),
               setSubVec velv offset (list_of_vec4 dq'))).
  { unfold enforceBallConstraints. rewrite Hq. reflexivity. }
  rewrite E. cbn [fst snd].
  assert (U : dot4 q' q' = 1) by (now apply normalize_unit).
  assert (N : norm4 q' = 1) by (unfold norm4; rewrite U; apply sqrt_1).
  assert (T : dot4 q' dq' = 0) by (now apply project_tangent).
  unfold enforceBallConstraints.
  replace (Ball.useEuler (Ball.set_dq dq' (Ball.set_q q' bl))) with false
    by (destruct bl; simpl in *; congruence).
  cbn [negb].
  rewrite !slice4_written by assumption.
  rewrite N, vdiv4_1, T, vsub4_scale_0.
  rewrite !setSubVec_overwrite by (try reflexivity; simpl; lia).
  destruct bl; reflexivity.
Qed.

(** X9.  [enforceConstraints] is a projection.  On a quaternion ball node
    (with a nonzero quaternion block) applying it a second time to its own
    results changes nothing; on every other node (an Euler ball, or a
    joint without a ball) it changes neither the node nor the vectors. *)
Theorem enforceConstraints_projection (posv velv : RVec) (n : Node.t) :
  (hasBall n -> Ball.useEuler (Node.ball n) = false ->
   (Node.stateOffset n + 4 <= length posv)%nat ->
   (Node.stateOffset n + 4 <= length velv)%nat ->
   vec4_of_list (subVec posv (Node.stateOffset n) 4) <> mkVec4 0 0 0 0 ->
   let r := enforceConstraints posv velv n in
   enforceConstraints (snd (fst r)) (snd r) (fst (fst r)) = r) /\
  (~ hasBall n \/ Ball.useEuler (Node.ball n) = true ->
   enforceConstraints posv velv n = (n, posv, velv)).
Proof.
  split.
  - intros Hb Hq Hp Hv Hq0 r. subst r.
    pose proof (enforceBallConstraints_idempotent (Node.stateOffset n)
                  posv velv (Node.ball n) Hq Hp Hv Hq0) as HI.
    cbv zeta in HI.
    unfold enforceConstraints.
    destruct (enforceBallConstraints (Node.stateOffset n) posv velv
                (Node.ball n)) as [[bl p'] v'] eqn:E1.
    cbn [fst snd] in HI.
    destruct Hb as [E|E]; rewrite E; cbn [fst snd];
      change (Node.cls (Node.set_ball bl n)) with (Node.cls n);
      change (Node.stateOffset (Node.set_ball bl n))
        with (Node.stateOffset n);
      change (Node.ball (Node.set_ball bl n)) with bl;
      rewrite E, HI; destruct n; reflexivity.
  - intros [Hnb|Hu]; unfold enforceConstraints.
    + destruct (Node.cls n) eqn:E; try reflexivity;
        exfalso; apply Hnb; unfold hasBall; rewrite E; auto.
    + unfold enforceBallConstraints. rewrite Hu.
      destruct (Node.cls n); try reflexivity; destruct n; reflexivity.
Qed.

Lemma enforceConstraints_projection_witness :
  let r := enforceConstraints [2; 0; 0; 0] [0.1; 0.1; 0.1; 0.1]
                              quatBallNode in
  enforceConstraints (snd (fst r)) (snd r) (fst (fst r)) = r.
Proof.
  refine (proj1 (enforceConstraints_projection [2; 0; 0; 0]
                   [0.1; 0.1; 0.1; 0.1] quatBallNode) _ _ _ _ _).
  - left. reflexivity.
  - reflexivity.
  - simpl. lia.
  - simpl. lia.
  - unfold vec4_of_list, subVec. simpl. intros H.
    apply (f_equal q0) in H. simpl in H. lra.
Defined.

(** *** State-vector blocks handed out by the factory *)

Lemma create_NewNode_cases (m : RBMassProperties) (fr : RBFrame)
  (type : JointType) (useEuler : bool) (off : nat) (n : Node.t) (cnt : nat) :
  create m fr type false useEuler off = NewNode n cnt ->
  (n = RBGroundBody_ctor /\ cnt = off) \/
  (exists c fr', (n, cnt) = RigidBodyNodeSpec_ctor c m fr' off /\
                 c <> RBGroundBody /\ c <> RBNodeRotate3 /\
                 c <> RBNodeTranslateRotate3) \/
  (exists c, (n, cnt) = withBall_ctor c m off useEuler /\
             (c = RBNodeRotate3 \/ c = RBNodeTranslateRotate3)).
Proof.
  unfold create, returned.
  destruct type; intros H; try discriminate H; injection H as <- <-.
  - left. split; reflexivity.
  - right. left. exists RBNodeTorsion, fr.
    repeat split; try discriminate; apply surjective_pairing.
  - right. left. exists RBNodeRotate2, fr.
    repeat split; try discriminate; apply surjective_pairing.
  - right. right. exists RBNodeRotate3.
    split; [apply surjective_pairing|now left].
  - right. left. exists RBNodeTranslate, RBFrame_default.
    repeat split; try discriminate; apply surjective_pairing.
  - right. left. exists RBNodeTranslateRotate2, fr.
    repeat split; try discriminate; apply surjective_pairing.
  - right. right. exists RBNodeTranslateRotate3.
    split; [apply surjective_pairing|now right].
Qed.

(** X10.  The source counts state slots in an [int].  As long as the end
    of the block, [off + getDim], is at most [INT_MAX], so that the
    counter does not overflow, a node returned by [RigidBodyNode::create]
    owns the block of [getDim] slots that starts at the offset [off] it
    was given, and the counter is advanced to the end of that block (3
    slots for an Euler ball, 4 for a quaternion ball, 3 more for the free
    joint, [dof] otherwise, none for the ground) and is still at most
    [INT_MAX]; the node's [theta], [dTheta], [ddTheta] and [forceInternal]
    are zero vectors of length [dof].  So nodes created one after the
    other on the same counter get adjacent blocks that do not overlap. *)
Theorem create_allocates_block (m : RBMassProperties) (fr : RBFrame)
  (type : JointType) (useEuler : bool) (off : nat) (n : Node.t) (cnt : nat) :
  create m fr type false useEuler off = NewNode n cnt ->
  (Z.of_nat off + Z.of_nat (getDim n) <= INT_MAX)%Z ->
  cnt = (off + getDim n)%nat /\
  (Z.of_nat cnt <= INT_MAX)%Z /\
  (Node.cls n <> RBGroundBody -> Node.stateOffset n = off) /\
  Node.theta n = zeroN (dofOf (Node.cls n)) /\
  Node.dTheta n = zeroN (dofOf (Node.cls n)) /\
  Node.ddTheta n = zeroN (dofOf (Node.cls n)) /\
  Node.forceInternal n = zeroN (dofOf (Node.cls n)) /\
  (hasBall n -> Ball.useEuler (Node.ball n) = useEuler) /\
  (forall m' fr' type' useEuler' n' cnt',
      create m' fr' type' false useEuler' cnt = NewNode n' cnt' ->
      Node.cls n <> RBGroundBody -> Node.cls n' <> RBGroundBody ->
      Node.stateOffset n' = (Node.stateOffset n + getDim n)%nat).
Proof.
  intros Hcr Hrange.
  assert (Main :
    cnt = (off + getDim n)%nat /\
    (Node.cls n <> RBGroundBody -> Node.stateOffset n = off) /\
    Node.theta n = zeroN (dofOf (Node.cls n)) /\
    Node.dTheta n = zeroN (dofOf (Node.cls n)) /\
    Node.ddTheta n = zeroN (dofOf (Node.cls n)) /\
    Node.forceInternal n = zeroN (dofOf (Node.cls n)) /\
    (hasBall n -> Ball.useEuler (Node.ball n) = useEuler)).
  { clear Hrange.
    destruct (create_NewNode_cases m fr type useEuler off n cnt Hcr)
      as [[-> ->]|[(c & fr' & E & N1 & N2 & N3)|(c & E & Hc)]].
    - unfold getDim, hasBall. cbn.
      split; [lia|]. split; [intros X; now elim X|].
      repeat (split; [reflexivity|]).
      intros [X|X]; discriminate X.
    - unfold RigidBodyNodeSpec_ctor in E. injection E as -> ->.
      unfold getDim, hasBall. cbn.
      split; [destruct c; try congruence; reflexivity|].
      split; [intros _; reflexivity|].
      repeat (split; [reflexivity|]).
      intros [X|X]; congruence.
    - unfold withBall_ctor, RigidBodyNodeSpec_ctor, ContainedBallJoint in E.
      cbn in E. injection E as -> ->.
      unfold getDim, getBallDim, hasBall. cbn.
      destruct Hc as [-> | ->]; destruct useEuler; cbn;
        (split; [lia|]); (split; [intros _; reflexivity|]);
        repeat (split; [reflexivity|]); intros _; reflexivity. }
  destruct Main as (M1 & M2 & M3 & M4 & M5 & M6 & M7).
  assert (M0 : (Z.of_nat cnt <= INT_MAX)%Z) by (rewrite M1; lia).
  refine (conj M1 (conj M0 (conj M2 (conj M3 (conj M4 (conj M5 (conj M6
            (conj M7 _)))))))).
  - intros m' fr' type' useEuler' n' cnt' Hcr' Hn Hn'.
    destruct (create_NewNode_cases m' fr' type' useEuler' cnt n' cnt' Hcr')
      as [[-> _]|[(c & fr'' & E & _)|(c & E & _)]].
    + now elim Hn'.
    + unfold RigidBodyNodeSpec_ctor in E. injection E as -> _.
      cbn. rewrite (M2 Hn). exact M1.
    + unfold withBall_ctor, RigidBodyNodeSpec_ctor, ContainedBallJoint in E.
      cbn in E. injection E as -> _. cbn. rewrite (M2 Hn). exact M1.
Qed.

Lemma create_allocates_block_witness :
  let r := withBall_ctor RBNodeTranslateRotate3 unitBody 5 false in
  snd r = (5 + getDim (fst r))%nat /\ (Z.of_nat (snd r) <= INT_MAX)%Z.
Proof.
  intros r.
  assert (H := create_allocates_block unitBody RBFrame_default FreeJoint
                 false 5 (fst r) (snd r)).
  refine ((fun X => conj (proj1 X) (proj1 (proj2 X))) (H _ _)).
  - reflexivity.
  - vm_compute. discriminate.
Defined.

(** *** What calcP leaves when it returns *)

Lemma calcP_Normal_fields (children : list Node.t) (n n' : Node.t) :
  Node.cls n <> RBGroundBody ->
  calcP children n = Normal n' ->
  let Pn := calcP_sum children n in
  Node.H n' = Node.H n /\ Node.P n' = Pn /\ Node.phi n' = Node.phi n /\
  isInverse (orthoTransformPH Pn (Node.H n)) (Node.DI n') /\
  Node.G n' = mulP_HT_DI Pn (Node.H n) (Node.DI n') /\
  Node.tau n' = msub66 ident66 (mulGH (Node.G n') (Node.H n)) /\
  Node.psiT n' = mul_phiT (transpose66 (Node.tau n')) (Node.phi n).
Proof.
  intros Hc Hcalc Pn.
  assert (E : calcP children n =
    match calcD_G children Pn (Node.set_P Pn n) with
    | Normal n2 =>
        let n3 := Node.set_tau
                    (msub66 ident66 (mulGH (Node.G n2) (Node.H n2))) n2 in
        Normal (Node.set_psiT
                  (mul_phiT (transpose66 (Node.tau n3)) (Node.phi n3)) n3)
    | Throws what cerr n2 => Throws what cerr n2
    end).
  { unfold calcP. subst Pn.
    destruct (Node.cls n); try congruence; reflexivity. }
  rewrite E in Hcalc. unfold calcD_G in Hcalc.
  change (Node.H (Node.set_P Pn n)) with (Node.H n) in Hcalc.
  destruct (inverse (orthoTransformPH Pn (Node.H n))) as [DI|] eqn:EI;
    [|discriminate Hcalc].
  injection Hcalc as <-. cbn.
  repeat (split; [reflexivity|]).
  split; [now apply inverse_Some|]. repeat split.
Qed.

Lemma mulHv_vsub6 (H : list CDSVec6) (u v : CDSVec6) :
  mulHv H (vsub6 u v) = vsubN (mulHv H u) (mulHv H v).
Proof.
  unfold mulHv, vsubN. induction H as [|h H IH]; simpl; [reflexivity|].
  rewrite IH. f_equal. alg.
Qed.

Lemma tau_mul (GH : CDSMat66) (v : CDSVec6) :
  mulMV66 (msub66 ident66 GH) v = vsub6 v (mulMV66 GH v).
Proof. alg. Qed.

(** [H * (P * (transpose(H) * y)) = D * y] for [D = H * P * transpose(H)]. *)
Lemma mulHv_P_HT (P : CDSMat66) (H : list CDSVec6) (y : FixedVector) :
  mulHv H (mulMV66 P (mulHTv H y)) = mulNv (orthoTransformPH P H) y.
Proof.
  unfold mulHTv. rewrite mulMV66_lincomb, mulHv_lincomb.
  f_equal. unfold orthoTransformPH. apply map_ext. intros h.
  now rewrite map_map.
Qed.

Lemma length_mulP_HT_DI (P : CDSMat66) (H : list CDSVec6)
  (DI : FixedMatrixNN) :
  length (mulP_HT_DI P H DI) = length H.
Proof. unfold mulP_HT_DI. now rewrite length_map, length_seq. Qed.

Lemma length_orthoTransformPH (P : CDSMat66) (H : list CDSVec6) :
  length (orthoTransformPH P H) = length H.
Proof. unfold orthoTransformPH. apply length_map. Qed.

(** With [DI] an inverse of [D = H * P * transpose(H)] and
    [G = P * transpose(H) * DI]: [H * G] is the identity. *)
Lemma H_G_identity (P : CDSMat66) (H : list CDSVec6) (DI : FixedMatrixNN)
  (e : FixedVector) :
  isInverse (orthoTransformPH P H) DI -> length e = length H ->
  mulHv H (mulGv (mulP_HT_DI P H DI) e) = e.
Proof.
  intros ((HlenDI & Hrows) & HDDI & _) Hlen.
  rewrite length_orthoTransformPH in *.
  rewrite mulP_HT_DI_mul by (try split; assumption).
  rewrite mulHv_P_HT.
  rewrite <- mulNv_mmulN.
  - rewrite HDDI, <- Hlen. apply mulNv_identN.
  - congruence.
  - rewrite Hlen. exact Hrows.
Qed.

(** X11.  When [calcP] returns on a node that is not the ground, the
    matrices it leaves satisfy [H * G = I] and [H * tau = 0]: for every
    [dof]-vector [e], [H * (G * e) = e], and for every spatial vector [v],
    [H * (tau * v)] is the zero vector.  So what [tau * P] passes to the
    parent has no component along the joint's own directions. *)
Theorem calcP_tau_annihilates_H (children : list Node.t) (n n' : Node.t) :
  Node.cls n <> RBGroundBody ->
  calcP children n = Normal n' ->
  (forall e, length e = length (Node.H n') ->
             mulHv (Node.H n') (mulGv (Node.G n') e) = e) /\
  (forall v, mulHv (Node.H n') (mulMV66 (Node.tau n') v) =
             zeroN (length (Node.H n'))).
Proof.
  intros Hc Hcalc.
  destruct (calcP_Normal_fields children n n' Hc Hcalc)
    as (HH & _ & _ & HI & HG & HT & _).
  assert (HGI : forall e, length e = length (Node.H n') ->
                  mulHv (Node.H n') (mulGv (Node.G n') e) = e).
  { intros e He. rewrite HG, HH in *. now apply H_G_identity. }
  split; [exact HGI|].
  intros v. rewrite HT, tau_mul, mulHv_vsub6.
  rewrite <- HH, mulGH_mul
    by (rewrite HG, length_mulP_HT_DI; now rewrite HH).
  rewrite HGI by (unfold mulHv; apply length_map).
  rewrite vsubN_self. unfold mulHv. now rewrite length_map.
Qed.

Lemma calcP_returns (children : list Node.t) (n : Node.t) :
  Node.cls n <> RBGroundBody ->
  invertible (orthoTransformPH (calcP_sum children n) (Node.H n)) ->
  exists n', calcP children n = Normal n'.
Proof.
  intros Hc Hinv.
  set (Pn := calcP_sum children n) in *.
  assert (E : calcP children n =
    match calcD_G children Pn (Node.set_P Pn n) with
    | Normal n2 =>
        let n3 := Node.set_tau
                    (msub66 ident66 (mulGH (Node.G n2) (Node.H n2))) n2 in
        Normal (Node.set_psiT
                  (mul_phiT (transpose66 (Node.tau n3)) (Node.phi n3)) n3)
    | Throws what cerr n2 => Throws what cerr n2
    end).
  { unfold calcP. subst Pn.
    destruct (Node.cls n); try congruence; reflexivity. }
  rewrite E. unfold calcD_G.
  change (Node.H (Node.set_P Pn n)) with (Node.H n).
  destruct (inverse_cases (orthoTransformPH Pn (Node.H n)))
    as [(_ & DI & EI & _)|(Hn & _)]; [|contradiction].
  rewrite EI. eexists. reflexivity.
Qed.

Lemma calcP_tau_annihilates_H_witness :
  exists n',
    calcP [] torsionUnit = Normal n' /\
    forall v, mulHv (Node.H n') (mulMV66 (Node.tau n') v) =
              zeroN (length (Node.H n')).
Proof.
  assert (Hc : Node.cls torsionUnit <> RBGroundBody)
    by (simpl; discriminate).
  destruct (calcP_returns [] torsionUnit Hc unit_invertible) as [n' E].
  exists n'. split; [exact E|].
  exact (proj2 (calcP_tau_annihilates_H [] torsionUnit n' Hc E)).
Defined.

(** *** The equation of motion at one joint *)

Lemma dotN_comm (u v : list R) : dotN u v = dotN v u.
Proof.
  unfold dotN, sumN. revert v.
  induction u as [|a u IH]; intros [|b v]; simpl; try reflexivity.
  rewrite IH. ring.
Qed.

Lemma dotN_add_r (u v w : list R) :
  length v = length w ->
  dotN u (zipWith Rplus v w) = dotN u v + dotN u w.
Proof.
  intros H. rewrite dotN_comm, dotN_add_l by exact H.
  now rewrite (dotN_comm v), (dotN_comm w).
Qed.

Lemma dotN_scale_r (r : R) (u v : list R) :
  dotN u (map (Rmult r) v) = r * dotN u v.
Proof. now rewrite dotN_comm, dotN_scale_l, dotN_comm. Qed.

Lemma dot6_lincomb_l (X : list CDSVec6) (c : FixedVector) (v : CDSVec6) :
  dot6 (lincomb X c) v = dotN (map (fun x => dot6 x v) X) c.
Proof.
  unfold dotN, sumN. revert c.
  induction X as [|x X IH]; intros [|a c]; simpl; try (alg; fail).
  rewrite <- IH. generalize (lincomb X c). intros y. alg.
Qed.

Lemma dot6_mulMV66_transpose (P : CDSMat66) (u v : CDSVec6) :
  dot6 (mulMV66 P u) v = dot6 u (mulMV66 (transpose66 P) v).
Proof. alg. Qed.

(** The entries [col_j (a :: A) . (y0 :: y)] split along the first row. *)
Lemma cols_cons_dot (a : list R) (A : FixedMatrixNN) (y0 : R) (y : list R) :
  map (fun j => dotN (colN j (a :: A)) (y0 :: y)) (seq 0 (length a)) =
  zipWith Rplus (map (Rmult y0) a)
          (map (fun j => dotN (colN j A) y) (seq 0 (length a))).
Proof.
  transitivity
    (zipWith Rplus (map (fun j => y0 * nth j a 0) (seq 0 (length a)))
             (map (fun j => dotN (colN j A) y) (seq 0 (length a)))).
  - generalize (seq 0 (length a)). intros js.
    induction js as [|j js IH]; [reflexivity|].
    cbn [map zipWith]. rewrite <- IH. unfold dotN, sumN. simpl.
    f_equal. ring.
  - f_equal. rewrite <- (map_map (fun j => nth j a 0) (Rmult y0)).
    now rewrite map_nth_seq.
Qed.

(** [u . (transpose(A) * y) = (A * u) . y], with the columns of [A]
    counted up to [m]. *)
Lemma dotN_adjoint (u : list R) (m : nat) :
  length u = m ->
  forall (A : FixedMatrixNN) (y : list R),
    Forall (fun row => length row = m) A ->
    dotN u (map (fun j => dotN (colN j A) y) (seq 0 m)) =
    dotN (mulNv A u) y.
Proof.
  intros Hu A. induction A as [|a A IH]; intros y HA.
  - simpl. rewrite dotN_comm. apply (dotN_zero_l 0).
  - inversion HA as [|? ? Ha HA']; subst.
    destruct y as [|y0 y].
    + rewrite dotN_nil_r.
      replace (map (fun j => dotN (colN j (a :: A)) []) (seq 0 (length u)))
        with (map (fun _ : nat => 0) (seq 0 (length u)))
        by (apply map_ext; intros j; now rewrite dotN_nil_r).
      rewrite dotN_comm. apply (dotN_zero_l 0).
    + rewrite <- Ha, cols_cons_dot.
      rewrite dotN_add_r by (rewrite !length_map, length_seq; reflexivity).
      rewrite dotN_scale_r, Ha, IH by exact HA'.
      unfold mulNv. cbn [map]. unfold dotN at 4, sumN. cbn [zipWith fold_right].
      rewrite (dotN_comm u a). unfold dotN, sumN. ring.
Qed.

(** [transpose(G) * alpha] for [G = P * transpose(H) * DI]. *)
Lemma mulGTv_mulP_HT_DI (P : CDSMat66) (H : list CDSVec6)
  (DI : FixedMatrixNN) (alpha : CDSVec6) :
  length DI = length H ->
  mulGTv (mulP_HT_DI P H DI) alpha =
  mulTNv DI (mulHv H (mulMV66 (transpose66 P) alpha)).
Proof.
  intros HDI. unfold mulGTv, mulP_HT_DI, mulTNv. rewrite map_map, HDI.
  apply map_ext. intros j.
  rewrite dot6_lincomb_l, map_map, dotN_comm. f_equal.
  unfold mulHv. apply map_ext. intros h. apply dot6_mulMV66_transpose.
Qed.

Lemma colN_mmulN (A B : FixedMatrixNN) (i : nat) :
  (i < length B)%nat -> colN i (mmulN A B) = mulNv A (colN i B).
Proof.
  intros Hi. unfold colN at 1, mmulN, mulNv. rewrite map_map.
  apply map_ext. intros row.
  rewrite (nth_indep _ 0 (dotN row (colN 0 B)))
    by (now rewrite length_map, length_seq).
  rewrite (map_nth (fun j => dotN row (colN j B))).
  now rewrite seq_nth.
Qed.

Lemma colN_identN (n i : nat) :
  (i < n)%nat ->
  colN i (identN n) = map (fun k => if Nat.eqb i k then 1 else 0) (seq 0 n).
Proof.
  intros Hi. unfold colN, identN. rewrite map_map.
  apply map_ext. intros k.
  rewrite (nth_indep _ 0 (if Nat.eqb k 0 then 1 else 0))
    by (now rewrite length_map, length_seq).
  rewrite (map_nth (fun j => if Nat.eqb k j then 1 else 0)).
  rewrite seq_nth by exact Hi. simpl. now rewrite Nat.eqb_sym.
Qed.

(** The matrix [D = H * P * transpose(H)] of a symmetric [P] is
    symmetric: its rows are its columns. *)
Lemma orthoTransformPH_row_col (P : CDSMat66) (H : list CDSVec6) (i : nat) :
  symmetric66 P -> (i < length H)%nat ->
  nth i (orthoTransformPH P H) [] = colN i (orthoTransformPH P H).
Proof.
  intros HP Hi. unfold colN, orthoTransformPH. rewrite map_map.
  rewrite (nth_indep _ []
             (map (fun hj => dot6 vec6_0 (mulMV66 P hj)) H))
    by (now rewrite length_map).
  rewrite (map_nth (fun hi => map (fun hj => dot6 hi (mulMV66 P hj)) H)).
  apply map_ext_in. intros hk _.
  rewrite (nth_indep _ 0 (dot6 hk (mulMV66 P vec6_0)))
    by (now rewrite length_map).
  rewrite (map_nth (fun hj => dot6 hk (mulMV66 P hj))).
  set (hi := nth i H vec6_0).
  transitivity (dot6 (mulMV66 P hk) hi); [|].
  - generalize (mulMV66 P hk). intros u. clear. alg.
  - rewrite dot6_mulMV66_transpose, HP. reflexivity.
Qed.

(** With [D] symmetric and [DI * D = I]: [D * (transpose(DI) * y) = y]. *)
Lemma D_DIT_identity (P : CDSMat66) (H : list CDSVec6) (DI : FixedMatrixNN)
  (y : FixedVector) :
  symmetric66 P ->
  isInverse (orthoTransformPH P H) DI -> length y = length H ->
  mulNv (orthoTransformPH P H) (mulTNv DI y) = y.
Proof.
  intros HP ((HlenDI & Hrows) & _ & HDID) Hy.
  rewrite length_orthoTransformPH in *.
  apply (nth_ext _ _ 0 0).
  - unfold mulNv at 1. rewrite length_map, length_orthoTransformPH.
    symmetry. exact Hy.
  - intros i Hi. unfold mulNv at 1 in Hi.
    rewrite length_map, length_orthoTransformPH in Hi.
    unfold mulNv at 1.
    rewrite (nth_indep _ 0 (dotN [] (mulTNv DI y)))
      by (rewrite length_map, length_orthoTransformPH; exact Hi).
    rewrite (map_nth (fun row => dotN row (mulTNv DI y))).
    rewrite orthoTransformPH_row_col by assumption.
    unfold mulTNv. rewrite HlenDI.
    rewrite dotN_adjoint;
      [|unfold colN; rewrite length_map; apply length_orthoTransformPH
       |exact Hrows].
    rewrite <- colN_mmulN by (rewrite length_orthoTransformPH; exact Hi).
    rewrite HDID, colN_identN by exact Hi.
    rewrite <- Hy, dotN_delta. simpl.
    replace (i <? length y)%nat with true
      by (symmetry; apply Nat.ltb_lt; lia).
    now rewrite Nat.sub_0_r.
Qed.

Lemma mulHv_vadd6 (H : list CDSVec6) (u v : CDSVec6) :
  mulHv H (vadd6 u v) = vaddN (mulHv H u) (mulHv H v).
Proof.
  unfold mulHv, vaddN. induction H as [|h H IH]; simpl; [reflexivity|].
  rewrite IH. f_equal. alg.
Qed.

Lemma mulMV66_vadd6 (P : CDSMat66) (u v : CDSVec6) :
  mulMV66 P (vadd6 u v) = vadd6 (mulMV66 P u) (mulMV66 P v).
Proof. alg. Qed.

Lemma vadd6_vsub6_cancel (u a : CDSVec6) : vsub6 (vadd6 u a) a = u.
Proof. alg. Qed.

Lemma dotN_sub_r (u v w : list R) :
  length v = length w ->
  dotN u (zipWith Rminus v w) = dotN u v - dotN u w.
Proof.
  unfold dotN, sumN. revert v w.
  induction u as [|a u IH]; intros [|b v] [|c w] Hlen;
    try discriminate Hlen; simpl; try ring.
  rewrite IH by (simpl in Hlen; lia). ring.
Qed.

Lemma mulNv_vsubN (A : FixedMatrixNN) (u v : FixedVector) :
  length u = length v ->
  mulNv A (vsubN u v) = vsubN (mulNv A u) (mulNv A v).
Proof.
  intros Hlen. unfold mulNv, vsubN.
  induction A as [|row A IH]; simpl; [reflexivity|].
  rewrite IH. f_equal. now apply dotN_sub_r.
Qed.

Lemma length_mulNv (A : FixedMatrixNN) (v : FixedVector) :
  length (mulNv A v) = length A.
Proof. unfold mulNv. apply length_map. Qed.

Lemma length_mulHv (H : list CDSVec6) (v : CDSVec6) :
  length (mulHv H v) = length H.
Proof. unfold mulHv. apply length_map. Qed.

Lemma length_vsubN (u v : FixedVector) :
  length u = length v -> length (vsubN u v) = length u.
Proof.
  unfold vsubN. revert v.
  induction u as [|a u IH]; intros [|b v] Hlen; try discriminate Hlen;
    [reflexivity|].
  simpl. f_equal. apply IH. simpl in Hlen. lia.
Qed.

(** [(x + ((T - hz) - x)) + hz = T] on vectors of one length. *)
Lemma vaddN_cancel (x T hz : FixedVector) :
  length x = length T -> length hz = length T ->
  vaddN (vaddN x (vsubN (vsubN T hz) x)) hz = T.
Proof.
  unfold vaddN, vsubN. revert x hz.
  induction T as [|t T IH]; intros [|a x] [|b hz] Hx Hz;
    try discriminate Hx; try discriminate Hz; [reflexivity|].
  simpl. rewrite IH by (simpl in *; lia). f_equal. ring.
Qed.

Lemma calcP_Normal_frame (children : list Node.t) (n n' : Node.t) :
  calcP children n = Normal n' ->
  Node.cls n' = Node.cls n /\ Node.forceInternal n' = Node.forceInternal n /\
  Node.a n' = Node.a n.
Proof.
  intros Hcalc. unfold calcP, calcD_G in Hcalc.
  destruct (Node.cls n) eqn:E;
    [injection Hcalc as <-; now rewrite E|..];
    cbn in Hcalc;
    (destruct (inverse _); [|discriminate Hcalc]);
    injection Hcalc as <-; cbn; now rewrite E.
Qed.

(** What [calcZ] leaves in a node. *)
Lemma calcZ_fields (children : list Node.t) (f : CDSVec6) (n : Node.t) :
  Node.cls n <> RBGroundBody ->
  let n2 := calcZ children f n in
  Node.cls n2 = Node.cls n /\ Node.H n2 = Node.H n /\
  Node.P n2 = Node.P n /\ Node.a n2 = Node.a n /\
  Node.phi n2 = Node.phi n /\ Node.G n2 = Node.G n /\
  Node.forceInternal n2 = Node.forceInternal n /\
  Node.nu n2 =
    mulNv (Node.DI n)
          (vsubN (Node.forceInternal n) (mulHv (Node.H n) (Node.z n2))).
Proof.
  intros Hc. unfold calcZ.
  destruct (Node.cls n) eqn:E; try congruence;
    cbn [Node.cls Node.H Node.P Node.a Node.phi Node.G Node.forceInternal
         Node.nu Node.z Node.DI Node.epsilon
         Node.set_z Node.set_epsilon Node.set_nu Node.set_Gepsilon];
    rewrite E; repeat (split; [reflexivity|]); reflexivity.
Qed.

(** What [calcAccel] leaves in a node. *)
Lemma calcAccel_fields (parent n : Node.t) :
  Node.cls n <> RBGroundBody ->
  let n3 := calcAccel parent n in
  let alphap := phiT_mul (Node.phi n) (Node.sAcc parent) in
  Node.H n3 = Node.H n /\ Node.P n3 = Node.P n /\ Node.a n3 = Node.a n /\
  Node.z n3 = Node.z n /\
  Node.forceInternal n3 = Node.forceInternal n /\
  Node.ddTheta n3 = vsubN (Node.nu n) (mulGTv (Node.G n) alphap) /\
  Node.sAcc n3 =
    vadd6 (vadd6 alphap (mulHTv (Node.H n) (Node.ddTheta n3))) (Node.a n).
Proof.
  intros Hc. unfold calcAccel, calcJointAccel.
  destruct (Node.cls n) eqn:E; try congruence;
    cbn [Node.cls Node.H Node.P Node.a Node.z Node.forceInternal
         Node.ddTheta Node.sAcc Node.nu Node.G Node.phi
         Node.set_ddTheta Node.set_sAcc];
    rewrite E;
    cbn [Node.cls Node.H Node.P Node.a Node.z Node.forceInternal
         Node.ddTheta Node.sAcc Node.nu Node.G Node.phi
         Node.set_ddTheta Node.set_sAcc Node.set_ball];
    repeat (split; [reflexivity|]); reflexivity.
Qed.

(** What [calcZ] followed by [calcAccel] leaves in a node. *)
Lemma calcZ_calcAccel_fields (parent : Node.t) (children : list Node.t)
  (f : CDSVec6) (n : Node.t) :
  Node.cls n <> RBGroundBody ->
  let n3 := calcAccel parent (calcZ children f n) in
  let alphap := phiT_mul (Node.phi n) (Node.sAcc parent) in
  Node.H n3 = Node.H n /\ Node.P n3 = Node.P n /\ Node.a n3 = Node.a n /\
  Node.forceInternal n3 = Node.forceInternal n /\
  Node.sAcc n3 =
    vadd6 (vadd6 alphap (mulHTv (Node.H n) (Node.ddTheta n3))) (Node.a n) /\
  Node.ddTheta n3 =
    vsubN (mulNv (Node.DI n)
                 (vsubN (Node.forceInternal n)
                        (mulHv (Node.H n) (Node.z n3))))
          (mulGTv (Node.G n) alphap).
Proof.
  intros Hc.
  destruct (calcZ_fields children f n Hc)
    as (Zc & ZH & ZP & Za & Zphi & ZG & ZT & Znu).
  assert (Hc2 : Node.cls (calcZ children f n) <> RBGroundBody)
    by (now rewrite Zc).
  destruct (calcAccel_fields parent (calcZ children f n) Hc2)
    as (AH & AP & Aa & Az & AT & Add & AsAcc).
  cbv zeta.
  rewrite AH, AP, Aa, AT, AsAcc, Add, Az, Znu, ZH, ZP, Za, ZT, Zphi, ZG.
  repeat (split; [reflexivity|]). reflexivity.
Qed.

(** X12.  The joint's equation of motion.  When [calcP] has returned on a
    node that is not the ground with a symmetric articulated-body inertia
    [P], and the vector of joint forces has one entry for each row of
    [H], then after [calcZ] and [calcAccel] the spatial acceleration
    [sAcc], the Coriolis acceleration [a] and the residual [z] satisfy
    [H * (P * (sAcc - a) + z) = forceInternal]: the articulated-body force
    along the joint's directions is the applied joint force, whatever the
    parent's acceleration and the applied spatial force are. *)
Theorem calcAccel_joint_force_balance (children zchildren : list Node.t)
  (spatialForce : CDSVec6) (parent n n1 : Node.t) :
  Node.cls n <> RBGroundBody ->
  calcP children n = Normal n1 ->
  symmetric66 (Node.P n1) ->
  length (Node.forceInternal n1) = length (Node.H n1) ->
  let n3 := calcAccel parent (calcZ zchildren spatialForce n1) in
  mulHv (Node.H n3)
        (vadd6 (mulMV66 (Node.P n3) (vsub6 (Node.sAcc n3) (Node.a n3)))
               (Node.z n3)) =
  Node.forceInternal n3.
Proof.
  intros Hc Hcalc Hsym Hlen n3.
  destruct (calcP_Normal_fields children n n1 Hc Hcalc)
    as (HH & HP & _ & HI & HG & _ & _).
  destruct (calcP_Normal_frame children n n1 Hcalc) as (Hcls & _ & _).
  assert (Hc1 : Node.cls n1 <> RBGroundBody) by (now rewrite Hcls).
  destruct (calcZ_calcAccel_fields parent zchildren spatialForce n1 Hc1)
    as (EH & EP & Ea & ET & EsAcc & Edd).
  fold n3 in EH, EP, Ea, ET, EsAcc, Edd.
  rewrite EH, EP, ET, Ea, EsAcc, vadd6_vsub6_cancel.
  clear EH EP ET Ea EsAcc. revert Edd.
  generalize (Node.ddTheta n3). generalize (Node.z n3). intros z dd Edd.
  set (alphap := phiT_mul (Node.phi n1) (Node.sAcc parent)) in *.
  rewrite <- HP in HI, HG. rewrite <- HH in HI, HG.
  set (P := Node.P n1) in *. set (H := Node.H n1) in *.
  pose proof HI as ((HlenDI & Hrows) & HDDI & HDID).
  rewrite length_orthoTransformPH in HlenDI, Hrows, HDDI, HDID.
  rewrite mulHv_vadd6, mulMV66_vadd6, mulHv_vadd6, mulHv_P_HT.
  assert (E1 : mulNv (orthoTransformPH P H) dd =
               vsubN (vsubN (Node.forceInternal n1) (mulHv H z))
                     (mulHv H (mulMV66 P alphap))).
  { rewrite Edd.
    rewrite mulNv_vsubN
      by (rewrite length_mulNv; unfold mulGTv; rewrite length_map, HG,
          length_mulP_HT_DI; exact HlenDI).
    assert (He : length (vsubN (Node.forceInternal n1) (mulHv H z)) =
                 length H)
      by (rewrite length_vsubN; [exact Hlen|];
          rewrite length_mulHv; exact Hlen).
    f_equal.
    - rewrite <- mulNv_mmulN.
      + rewrite HDDI, <- He. apply mulNv_identN.
      + rewrite He. exact HlenDI.
      + rewrite He. exact Hrows.
    - rewrite HG, mulGTv_mulP_HT_DI by exact HlenDI.
      rewrite Hsym.
      apply D_DIT_identity;
        [exact Hsym|exact HI|apply length_mulHv]. }
  rewrite E1. apply vaddN_cancel.
  - rewrite length_mulHv. symmetry. exact Hlen.
  - rewrite length_mulHv. symmetry. exact Hlen.
Qed.

Lemma calcAccel_joint_force_balance_witness :
  exists n1,
    calcP [] torsionUnit = Normal n1 /\
    let n3 := calcAccel theGround (calcZ [] vec6_0 n1) in
    mulHv (Node.H n3)
          (vadd6 (mulMV66 (Node.P n3) (vsub6 (Node.sAcc n3) (Node.a n3)))
                 (Node.z n3)) =
    Node.forceInternal n3.
Proof.
  assert (Hc : Node.cls torsionUnit <> RBGroundBody)
    by (simpl; discriminate).
  destruct (calcP_returns [] torsionUnit Hc unit_invertible) as [n1 E].
  destruct (calcP_Normal_fields [] torsionUnit n1 Hc E)
    as (HH & HP & _).
  destruct (calcP_Normal_frame [] torsionUnit n1 E) as (_ & HT & _).
  exists n1. split; [exact E|].
  apply (calcAccel_joint_force_balance [] [] vec6_0 theGround
           torsionUnit n1 Hc E).
  - rewrite HP. reflexivity.
  - rewrite HT, HH. reflexivity.
Defined.

(** *** Symmetry of the articulated-body inertia *)

Ltac mat_injection :=
  repeat match goal with
         | E : blockMat22 _ _ _ _ = blockMat22 _ _ _ _ |- _ =>
             injection E; clear E; intros
         | E : mkMat33 _ _ _ _ _ _ _ _ _ = mkMat33 _ _ _ _ _ _ _ _ _ |- _ =>
             injection E; clear E; intros
         end.

Lemma calcP_child_symmetric (n child : Node.t) (P : CDSMat66) :
  symmetric66 P ->
  symmetric66 (mmul66 (Node.tau child) (Node.P child)) ->
  symmetric66 (calcP_child n P child).
Proof.
  unfold symmetric66, calcP_child. cbv zeta.
  generalize (mmul66 (Node.tau child) (Node.P child)).
  generalize (vsub3 (getOB_G child) (getOB_G n)).
  intros d M HP HM. destruct_alg. alg_unfold. mat_injection. subst.
  split_eq; ring.
Qed.

Lemma calcP_sum_symmetric_from (n : Node.t) (children : list Node.t) :
  Forall (fun c => symmetric66 (mmul66 (Node.tau c) (Node.P c))) children ->
  forall P, symmetric66 P ->
            symmetric66 (fold_left (calcP_child n) children P).
Proof.
  induction 1 as [|c cs Hc _ IH]; intros P HP; [exact HP|].
  simpl. apply IH. now apply calcP_child_symmetric.
Qed.

(** A 6x6 matrix whose bilinear form is symmetric is symmetric. *)
Lemma symmetric66_of_form (A : CDSMat66) :
  (forall u v, dot6 u (mulMV66 A v) = dot6 (mulMV66 A u) v) ->
  symmetric66 A.
Proof.
  intros Hf.
  pose proof (Hf (blockVec (mkVec3 1 0 0) vec3_0)
                 (blockVec (mkVec3 0 1 0) vec3_0)) as F12.
  pose proof (Hf (blockVec (mkVec3 1 0 0) vec3_0)
                 (blockVec (mkVec3 0 0 1) vec3_0)) as F13.
  pose proof (Hf (blockVec (mkVec3 1 0 0) vec3_0)
                 (blockVec vec3_0 (mkVec3 1 0 0))) as F14.
  pose proof (Hf (blockVec (mkVec3 1 0 0) vec3_0)
                 (blockVec vec3_0 (mkVec3 0 1 0))) as F15.
  pose proof (Hf (blockVec (mkVec3 1 0 0) vec3_0)
                 (blockVec vec3_0 (mkVec3 0 0 1))) as F16.
  pose proof (Hf (blockVec (mkVec3 0 1 0) vec3_0)
                 (blockVec (mkVec3 0 0 1) vec3_0)) as F23.
  pose proof (Hf (blockVec (mkVec3 0 1 0) vec3_0)
                 (blockVec vec3_0 (mkVec3 1 0 0))) as F24.
  pose proof (Hf (blockVec (mkVec3 0 1 0) vec3_0)
                 (blockVec vec3_0 (mkVec3 0 1 0))) as F25.
  pose proof (Hf (blockVec (mkVec3 0 1 0) vec3_0)
                 (blockVec vec3_0 (mkVec3 0 0 1))) as F26.
  pose proof (Hf (blockVec (mkVec3 0 0 1) vec3_0)
                 (blockVec vec3_0 (mkVec3 1 0 0))) as F34.
  pose proof (Hf (blockVec (mkVec3 0 0 1) vec3_0)
                 (blockVec vec3_0 (mkVec3 0 1 0))) as F35.
  pose proof (Hf (blockVec (mkVec3 0 0 1) vec3_0)
                 (blockVec vec3_0 (mkVec3 0 0 1))) as F36.
  pose proof (Hf (blockVec vec3_0 (mkVec3 1 0 0))
                 (blockVec vec3_0 (mkVec3 0 1 0))) as F45.
  pose proof (Hf (blockVec vec3_0 (mkVec3 1 0 0))
                 (blockVec vec3_0 (mkVec3 0 0 1))) as F46.
  pose proof (Hf (blockVec vec3_0 (mkVec3 0 1 0))
                 (blockVec vec3_0 (mkVec3 0 0 1))) as F56.
  clear Hf. unfold symmetric66. destruct_alg. alg_unfold.
  split_eq; lra.
Qed.

Lemma mulMV66_mmul66 (A B : CDSMat66) (v : CDSVec6) :
  mulMV66 (mmul66 A B) v = mulMV66 A (mulMV66 B v).
Proof. alg. Qed.

Lemma dot6_comm (u v : CDSVec6) : dot6 u v = dot6 v u.
Proof. alg. Qed.

Lemma dot6_vsub6_r (u v w : CDSVec6) :
  dot6 u (vsub6 v w) = dot6 u v - dot6 u w.
Proof. alg. Qed.

Lemma dot6_vsub6_l (u v w : CDSVec6) :
  dot6 (vsub6 v w) u = dot6 v u - dot6 w u.
Proof. alg. Qed.

Lemma rows_orthoTransformPH (P : CDSMat66) (H : list CDSVec6) :
  Forall (fun row => length row = length H) (orthoTransformPH P H).
Proof.
  unfold orthoTransformPH. apply Forall_forall. intros row Hin.
  apply in_map_iff in Hin. destruct Hin as (h & <- & _).
  apply length_map.
Qed.

Lemma length_mulTNv (A : FixedMatrixNN) (y : FixedVector) :
  length (mulTNv A y) = length A.
Proof. unfold mulTNv. now rewrite length_map, length_seq. Qed.

(** The inverse of the symmetric [D] acts as its own transpose. *)
Lemma DI_symmetric_action (P : CDSMat66) (H : list CDSVec6)
  (DI : FixedMatrixNN) (y : FixedVector) :
  symmetric66 P ->
  isInverse (orthoTransformPH P H) DI -> length y = length H ->
  mulTNv DI y = mulNv DI y.
Proof.
  intros HP HI Hy.
  pose proof HI as ((HlenDI & _) & _ & HDID).
  rewrite length_orthoTransformPH in HlenDI, HDID.
  rewrite <- (D_DIT_identity P H DI y HP HI Hy) at 2.
  rewrite <- mulNv_mmulN.
  - rewrite HDID, <- HlenDI, <- (length_mulTNv DI y).
    symmetry. apply mulNv_identN.
  - now rewrite length_orthoTransformPH, length_mulTNv.
  - rewrite length_mulTNv, HlenDI. apply rows_orthoTransformPH.
Qed.

(** The form [u . G * (H * P * v)] of [G = P * transpose(H) * DI]. *)
Lemma G_H_P_form (P : CDSMat66) (H : list CDSVec6) (DI : FixedMatrixNN)
  (u v : CDSVec6) :
  symmetric66 P -> isInverse (orthoTransformPH P H) DI ->
  dot6 u (mulGv (mulP_HT_DI P H DI) (mulHv H (mulMV66 P v))) =
  dotN (mulNv DI (mulHv H (mulMV66 P u))) (mulHv H (mulMV66 P v)).
Proof.
  intros HP HI.
  pose proof HI as ((HlenDI & _) & _).
  rewrite length_orthoTransformPH in HlenDI.
  unfold mulGv. rewrite dot6_lincomb. f_equal.
  transitivity (mulGTv (mulP_HT_DI P H DI) u).
  - unfold mulGTv. apply map_ext. intros g. apply dot6_comm.
  - rewrite mulGTv_mulP_HT_DI by exact HlenDI.
    rewrite HP. apply (DI_symmetric_action P H); [exact HP|exact HI|].
    apply length_mulHv.
Qed.

Lemma DI_form_symmetric (P : CDSMat66) (H : list CDSVec6)
  (DI : FixedMatrixNN) (a b : FixedVector) :
  symmetric66 P -> isInverse (orthoTransformPH P H) DI ->
  length a = length H -> length b = length H ->
  dotN (mulNv DI a) b = dotN (mulNv DI b) a.
Proof.
  intros HP HI Ha Hb.
  pose proof HI as ((HlenDI & Hrows) & _).
  rewrite length_orthoTransformPH in HlenDI, Hrows.
  rewrite <- (DI_symmetric_action P H DI b HP HI Hb).
  rewrite (dotN_comm (mulTNv DI b) a). unfold mulTNv.
  rewrite HlenDI, <- Ha. symmetry. apply dotN_adjoint; [reflexivity|].
  rewrite Ha. exact Hrows.
Qed.

(** With [P] symmetric, [tau * P = P - G * H * P] is symmetric. *)
Lemma tau_P_symmetric (P : CDSMat66) (H : list CDSVec6)
  (DI : FixedMatrixNN) :
  symmetric66 P -> isInverse (orthoTransformPH P H) DI ->
  symmetric66
    (mmul66 (msub66 ident66 (mulGH (mulP_HT_DI P H DI) H)) P).
Proof.
  intros HP HI. apply symmetric66_of_form. intros u v.
  rewrite !mulMV66_mmul66, !tau_mul, dot6_vsub6_r, dot6_vsub6_l.
  rewrite !mulGH_mul by apply length_mulP_HT_DI.
  rewrite (dot6_comm (mulGv _ _) v).
  rewrite !G_H_P_form by assumption.
  rewrite (DI_form_symmetric P H DI (mulHv H (mulMV66 P v))
             (mulHv H (mulMV66 P u)) HP HI)
    by apply length_mulHv.
  f_equal.
  rewrite dot6_comm, dot6_mulMV66_transpose, HP. apply dot6_comm.
Qed.

(** X13.  The symmetry of the articulated-body inertia goes up the tree.
    When [calcP] returns on a node whose spatial inertia [Mk] is symmetric
    and whose children each hold a symmetric product [tau * P], the
    inertia [P] it leaves is symmetric, and so is its own product
    [tau * P], which its parent will add. *)
Theorem calcP_keeps_P_symmetric (children : list Node.t) (n n' : Node.t) :
  Node.cls n <> RBGroundBody ->
  symmetric66 (Node.Mk n) ->
  Forall (fun c => symmetric66 (mmul66 (Node.tau c) (Node.P c))) children ->
  calcP children n = Normal n' ->
  symmetric66 (Node.P n') /\
  symmetric66 (mmul66 (Node.tau n') (Node.P n')).
Proof.
  intros Hc HMk Hch Hcalc.
  destruct (calcP_Normal_fields children n n' Hc Hcalc)
    as (_ & HP & _ & HI & HG & HT & _).
  assert (HS : symmetric66 (Node.P n')).
  { rewrite HP. unfold calcP_sum. now apply calcP_sum_symmetric_from. }
  split; [exact HS|].
  rewrite HT, HG, <- HP. rewrite <- HP in HI.
  now apply tau_P_symmetric.
Qed.

Lemma tip_invertible :
  invertible (orthoTransformPH (calcP_sum [torsionTip] torsionUnit)
                               (Node.H torsionUnit)).
Proof.
  exists [[1]]. split; [|split].
  - split; [reflexivity|]. constructor; [reflexivity|constructor].
  - unfold mmulN, identN, colN, dotN, sumN, calcP_sum, calcP_child,
      getOB_G, outer6, outer3.
    cbn. unfold outer6, outer3. alg_unfold. do 2 f_equal. ring.
  - unfold mmulN, identN, colN, dotN, sumN, calcP_sum, calcP_child,
      getOB_G, outer6, outer3.
    cbn. unfold outer6, outer3. alg_unfold. do 2 f_equal. ring.
Qed.

Lemma calcP_keeps_P_symmetric_witness :
  exists n', calcP [torsionTip] torsionUnit = Normal n' /\
             symmetric66 (Node.P n') /\
             symmetric66 (mmul66 (Node.tau n') (Node.P n')).
Proof.
  assert (Hc : Node.cls torsionUnit <> RBGroundBody)
    by (simpl; discriminate).
  destruct (calcP_returns [torsionTip] torsionUnit Hc tip_invertible)
    as [n' E].
  exists n'. split; [exact E|].
  apply (calcP_keeps_P_symmetric [torsionTip] torsionUnit n' Hc).
  - reflexivity.
  - constructor; [|constructor].
    unfold symmetric66. cbn. unfold outer6, outer3. alg_unfold.
    split_eq; ring.
  - exact E.
Defined.

(* ================================================================== *)
(** ** Properties of the geev unpacking *)
(* ================================================================== *)

Lemma firstn_app_exact {A : Type} (l m : list A) :
  firstn (length l) (l ++ m) = l.
Proof.
  rewrite firstn_app, firstn_all, Nat.sub_diag, firstn_O. apply app_nil_r.
Qed.

Lemma skipn_app_exact {A : Type} (l m : list A) :
  skipn (length l) (l ++ m) = m.
Proof.
  rewrite skipn_app, skipn_all, Nat.sub_diag. reflexivity.
Qed.

Lemma aset_middle {A : Type} (pre post : list A) (x y : A) :
  aset (pre ++ x :: post) (length pre) y = Some (pre ++ y :: post).
Proof.
  unfold aset.
  replace (length pre <? length (pre ++ x :: post))%nat with true
    by (symmetry; apply Nat.ltb_lt; rewrite length_app; simpl; lia).
  rewrite firstn_app_exact. do 2 f_equal.
  replace (pre ++ x :: post) with ((pre ++ [x]) ++ post)
    by (now rewrite <- app_assoc).
  replace (S (length pre)) with (length (pre ++ [x]))
    by (rewrite length_app; simpl; lia).
  now rewrite skipn_app_exact.
Qed.

Lemma aget_inside (l : list R) (k : nat) :
  (k < length l)%nat -> aget l k = Some (nth k l 0).
Proof. intros H. unfold aget. now apply nth_error_nth'. Qed.

Lemma aget_outside {A : Type} (l : list A) (k : nat) :
  (length l <= k)%nat -> aget l k = None.
Proof. intros H. unfold aget. now apply nth_error_None. Qed.

(** The loop of a real column overwrites one segment of the array. *)
Lemma realColumn_segment (n j : nat) (vr : list R) (seg : list Complex) :
  forall (pre post : list Complex) (i0 : nat),
    length pre = (j*n + i0)%nat ->
    (j*n + i0 + length seg <= length vr)%nat ->
    forUp (length seg) i0
      (fun i rv => x <- aget vr (j*n+i) ;; aset rv (j*n+i) (complex x 0))
      (pre ++ seg ++ post) =
    Some (pre ++ map (fun i => complex (nth (j*n+i) vr 0) 0) (seq i0 (length seg))
              ++ post).
Proof.
  induction seg as [|s seg IH]; intros pre post i0 Hpre Hvr.
  - reflexivity.
  - cbn [length forUp seq map]. simpl length in Hvr.
    rewrite aget_inside by lia. cbn [obind].
    rewrite <- Hpre. cbn [app]. rewrite aset_middle. cbn [obind].
    replace (pre ++ complex (nth (length pre) vr 0) 0 :: seg ++ post)
      with ((pre ++ [complex (nth (length pre) vr 0) 0]) ++ seg ++ post)
      by (now rewrite <- app_assoc).
    rewrite IH by (rewrite ?length_app; simpl; lia).
    rewrite <- app_assoc. reflexivity.
Qed.

(** The loop of a conjugate pair overwrites two segments at once. *)
Lemma pairColumn_segment (n j : nat) (vr : list R) (seg1 : list Complex) :
  forall (seg2 pre mid post : list Complex) (i0 : nat),
    length seg1 = length seg2 ->
    length pre = (j*n + i0)%nat ->
    (length pre + length seg1 + length mid = (j+1)*n + i0)%nat ->
    ((j+1)*n + i0 + length seg2 <= length vr)%nat ->
    (j*n + i0 + length seg1 <= length vr)%nat ->
    forUp (length seg1) i0
      (fun i rv =>
         x <- aget vr (j*n+i) ;;
         y <- aget vr ((j+1)*n+i) ;;
         rv <- aset rv (j*n+i) (complex x y) ;;
         aset rv ((j+1)*n+i) (complex x (- y)))
      (pre ++ seg1 ++ mid ++ seg2 ++ post) =
    Some (pre ++
          map (fun i => complex (nth (j*n+i) vr 0) (nth ((j+1)*n+i) vr 0))
              (seq i0 (length seg1)) ++
          mid ++
          map (fun i => complex (nth (j*n+i) vr 0) (- nth ((j+1)*n+i) vr 0))
              (seq i0 (length seg1)) ++
          post).
Proof.
  induction seg1 as [|s1 seg1 IH];
    intros [|s2 seg2] pre mid post i0 Hlen Hpre Hmid Hvr2 Hvr1;
    try discriminate Hlen.
  - reflexivity.
  - cbn [length forUp seq map]. simpl length in *.
    rewrite !aget_inside by lia. cbn [obind].
    set (x := nth (j*n+i0) vr 0). set (y := nth ((j+1)*n+i0) vr 0).
    rewrite <- Hpre. cbn [app]. rewrite aset_middle. cbn [obind].
    replace (pre ++ complex x y :: seg1 ++ mid ++ s2 :: seg2 ++ post)
      with ((pre ++ complex x y :: seg1 ++ mid) ++ s2 :: seg2 ++ post)
      by (rewrite <- app_assoc; cbn [app]; now rewrite <- app_assoc).
    replace ((j+1)*n + i0)%nat
      with (length (pre ++ complex x y :: seg1 ++ mid))
      by (rewrite length_app; simpl; rewrite length_app; lia).
    rewrite aset_middle.
    replace ((pre ++ complex x y :: seg1 ++ mid) ++ complex x (- y) :: seg2 ++ post)
      with ((pre ++ [complex x y]) ++ seg1 ++ (mid ++ [complex x (- y)]) ++ seg2 ++ post)
      by (repeat (rewrite <- app_assoc; cbn [app]); reflexivity).
    cbn [obind].
    rewrite IH; try (rewrite ?length_app; simpl; lia).
    repeat (rewrite <- app_assoc; cbn [app]). reflexivity.
Qed.

Lemma zipWith_map_seq {A B C : Type} (g : A -> B -> C) (a : nat -> A)
  (b : nat -> B) (l : list nat) :
  zipWith g (map a l) (map b l) = map (fun i => g (a i) (b i)) l.
Proof. induction l as [|i l IH]; simpl; [reflexivity|now rewrite IH]. Qed.

(** A list cut at [a] and at [a + k]. *)
Lemma split3 {A : Type} (l : list A) (a k : nat) :
  l = firstn a l ++ firstn k (skipn a l) ++ skipn (a + k) l.
Proof.
  rewrite <- (firstn_skipn a l) at 1. f_equal.
  rewrite <- (firstn_skipn k (skipn a l)) at 1. f_equal.
  rewrite skipn_skipn. f_equal. lia.
Qed.

Lemma repackColumns_spec (n : nat) (vr : list R) :
  length vr = (n * n)%nat ->
  forall wi_rest, wellPaired wi_rest ->
  forall (j : nat) (rv : list Complex),
    (j + length wi_rest = n)%nat -> length rv = (n * n)%nat ->
    repackColumns n j wi_rest vr rv =
    Some (firstn (j*n) rv ++ concat (unpackedColumns n j wi_rest vr)).
Proof.
  intros Hvr wi_rest Hwp.
  induction Hwp as [|w rest Hw Hwp IH|w w' rest Hw Hwp IH];
    intros j rv Hj Hrv.
  - simpl in *. rewrite app_nil_r, firstn_all2 by (subst; lia). reflexivity.
  - simpl length in Hj. cbn [repackColumns unpackedColumns].
    destruct (Rlt_dec (Rabs w) EPS) as [_|N]; [|contradiction].
    assert (Hjn : (j*n + n <= n*n)%nat) by nia.
    unfold realColumn.
    rewrite (split3 rv (j*n) n) at 1.
    replace n with (length (firstn n (skipn (j*n) rv))) at 1
      by (rewrite length_firstn, length_skipn; lia).
    rewrite realColumn_segment;
      [|rewrite length_firstn; lia
       |rewrite length_firstn, length_skipn; lia].
    rewrite length_firstn, length_skipn.
    replace (Nat.min n (length rv - j*n)) with n by lia.
    cbn [obind].
    set (col := map (fun i => complex (nth (j*n+i) vr 0) 0) (seq 0 n)).
    assert (Hcol : length col = n)
      by (unfold col; now rewrite length_map, length_seq).
    rewrite IH;
      [|lia
       |rewrite !length_app, length_firstn, length_skipn, Hcol; lia].
    f_equal.
    replace (S j * n)%nat with (length (firstn (j*n) rv ++ col))
      by (rewrite length_app, length_firstn, Hcol; simpl; lia).
    rewrite app_assoc, firstn_app_exact, <- app_assoc.
    f_equal. cbn [concat]. f_equal.
    unfold col, column. now rewrite map_map.
  - simpl length in Hj. cbn [repackColumns unpackedColumns].
    destruct (Rlt_dec (Rabs w) EPS) as [Y|_]; [contradiction|].
    assert (Hjn : (j*n + n + n <= n*n)%nat) by nia.
    unfold pairColumn.
    rewrite (split3 rv (j*n) n) at 1.
    rewrite (split3 (skipn (j*n + n) rv) 0 n) at 1.
    cbn [firstn skipn app Nat.add].
    set (seg1 := firstn n (skipn (j*n) rv)).
    set (seg2 := firstn n (skipn (j*n + n) rv)).
    assert (H1 : length seg1 = n)
      by (unfold seg1; rewrite length_firstn, length_skipn; lia).
    assert (H2 : length seg2 = n)
      by (unfold seg2; rewrite length_firstn, length_skipn; lia).
    change (seg1 ++ seg2 ++ skipn n (skipn (j*n + n) rv))
      with (seg1 ++ [] ++ seg2 ++ skipn n (skipn (j*n + n) rv)).
    rewrite <- H1 at 1.
    rewrite pairColumn_segment;
      try (rewrite ?length_firstn; simpl; lia).
    rewrite H1. cbn [obind app].
    set (c1 := map (fun i => complex (nth (j*n+i) vr 0) (nth ((j+1)*n+i) vr 0))
                   (seq 0 n)).
    set (c2 := map (fun i => complex (nth (j*n+i) vr 0) (- nth ((j+1)*n+i) vr 0))
                   (seq 0 n)).
    assert (L1 : length c1 = n)
      by (unfold c1; now rewrite length_map, length_seq).
    assert (L2 : length c2 = n)
      by (unfold c2; now rewrite length_map, length_seq).
    rewrite IH;
      [|lia
       |rewrite !length_app, length_firstn, !length_skipn, L1, L2; lia].
    f_equal.
    replace (S (S j) * n)%nat with (length ((firstn (j*n) rv ++ c1) ++ c2))
      by (rewrite !length_app, length_firstn, L1, L2; simpl; lia).
    replace (firstn (j*n) rv ++ c1 ++ c2 ++ skipn n (skipn (j*n + n) rv))
      with (((firstn (j*n) rv ++ c1) ++ c2) ++ skipn n (skipn (j*n + n) rv))
      by (now rewrite <- !app_assoc).
    rewrite firstn_app_exact, <- !app_assoc.
    f_equal. cbn [concat].
    assert (E1 : c1 = zipWith complex (column n j vr)
                              (column n (S j) vr)).
    { unfold c1, column. rewrite zipWith_map_seq.
      apply map_ext. intros i. now rewrite Nat.add_1_r. }
    assert (E2 : c2 = map cconj c1).
    { unfold c2, c1. rewrite map_map. reflexivity. }
    rewrite E2, <- E1. reflexivity.
Qed.

Lemma geev_values_segment (wr wi : list R) (seg : list Complex) :
  forall (pre post : list Complex) (i0 : nat),
    length pre = i0 ->
    (i0 + length seg <= length wr)%nat ->
    (i0 + length seg <= length wi)%nat ->
    forUp (length seg) i0
      (fun i values =>
         re <- aget wr i ;; im <- aget wi i ;; aset values i (complex re im))
      (pre ++ seg ++ post) =
    Some (pre ++
          map (fun i => complex (nth i wr 0) (nth i wi 0))
              (seq i0 (length seg)) ++
          post).
Proof.
  induction seg as [|s seg IH]; intros pre post i0 Hpre Hwr Hwi.
  - reflexivity.
  - cbn [length forUp seq map]. simpl length in Hwr, Hwi.
    rewrite !aget_inside by lia. cbn [obind].
    rewrite <- Hpre. cbn [app]. rewrite aset_middle. cbn [obind].
    replace (pre ++ complex (nth (length pre) wr 0) (nth (length pre) wi 0)
                 :: seg ++ post)
      with ((pre ++ [complex (nth (length pre) wr 0) (nth (length pre) wi 0)])
              ++ seg ++ post)
      by (now rewrite <- app_assoc).
    rewrite IH by (rewrite ?length_app; simpl; lia).
    rewrite <- app_assoc. reflexivity.
Qed.

Lemma geev_values_spec (wr wi : list R) (values : list Complex) :
  length wr = length wi -> (length wi <= length values)%nat ->
  geev_values (length wi) wr wi values =
  Some (zipWith complex wr wi ++ skipn (length wi) values).
Proof.
  intros Hwr Hv. unfold geev_values.
  pose proof (geev_values_segment wr wi (firstn (length wi) values) []
                (skipn (length wi) values) 0 eq_refl) as Hs.
  assert (L : length (firstn (length wi) values) = length wi)
    by (rewrite length_firstn; lia).
  rewrite L in Hs. cbn [app] in Hs. rewrite firstn_skipn in Hs.
  rewrite Hs by lia.
  do 2 f_equal. symmetry.
  transitivity
    (zipWith complex (map (fun i => nth i wr 0) (seq 0 (length wr)))
                     (map (fun i => nth i wi 0) (seq 0 (length wi)))).
  - now rewrite !map_nth_seq.
  - rewrite Hwr. apply zipWith_map_seq.
Qed.

(** X14.  The unpacking loop of [geev<double>] and [geev<float>].  When
    the imaginary parts [wi] come in the order LAPACK returns them (every
    entry with [|wi| >= EPS] followed by its partner), and the arrays have
    their sizes ([n] eigenvalues, [n*n] entries of [vr] and of
    [rightVectors]), no access leaves the arrays, [values[i]] becomes
    [(wr[i], wi[i])], and [rightVectors] becomes, column after column:
    [vr[:,j]] with zero imaginary part for a real eigenvalue, and
    [vr[:,j] + i vr[:,j+1]] followed by its conjugate for a pair.  Every
    entry of [rightVectors] is overwritten: the result does not depend on
    what it held. *)
Theorem geev_unpack_columns (wr wi vr : list R)
  (values rightVectors : list Complex) :
  let n := length wi in
  wellPaired wi ->
  length wr = n -> length vr = (n * n)%nat ->
  (n <= length values)%nat -> length rightVectors = (n * n)%nat ->
  geev_unpack wr wi vr values rightVectors =
  Some (zipWith complex wr wi ++ skipn n values,
        concat (unpackedColumns n 0 wi vr)).
Proof.
  intros n Hwp Hwr Hvr Hval Hrv. unfold geev_unpack. fold n.
  unfold n at 1. rewrite geev_values_spec by (fold n; lia).
  cbn [obind].
  rewrite (repackColumns_spec n vr Hvr wi Hwp 0 rightVectors)
    by (try exact Hrv; reflexivity).
  reflexivity.
Qed.

Lemma geev_unpack_columns_witness :
  geev_unpack [1; 2; 2] [0; 3; -3] [1; 0; 0; 0; 1; 0; 0; 0; 1]
    (repeat (complex 0 0) 3) (repeat (complex 0 0) 9) =
  Some (zipWith complex [1; 2; 2] [0; 3; -3]
          ++ skipn 3 (repeat (complex 0 0) 3),
        concat (unpackedColumns 3 0 [0; 3; -3]
                                [1; 0; 0; 0; 1; 0; 0; 0; 1])).
Proof.
  refine (geev_unpack_columns [1; 2; 2] [0; 3; -3]
            [1; 0; 0; 0; 1; 0; 0; 0; 1]
            (repeat (complex 0 0) 3) (repeat (complex 0 0) 9) _ _ _ _ _);
    try reflexivity; try (simpl; lia).
  apply wp_real.
  - rewrite Rabs_R0. unfold EPS. lra.
  - apply wp_pair; [|apply wp_nil].
    unfold EPS. rewrite Rabs_right by lra. lra.
Defined.

Lemma repackColumns_unpaired (n : nat) (vr : list R) (w : R) :
  length vr = (n * n)%nat -> ~ Rabs w < EPS ->
  forall ws, wellPaired ws ->
  forall (j : nat) (rv : list Complex),
    (j + length ws + 1 = n)%nat ->
    repackColumns n j (ws ++ [w]) vr rv = None.
Proof.
  intros Hvr Hw ws Hwp.
  induction Hwp as [|w0 rest Hw0 Hwp IH|w0 w0' rest Hw0 Hwp IH];
    intros j rv Hj.
  - simpl in Hj. cbn [app repackColumns].
    destruct (Rlt_dec (Rabs w) EPS) as [Y|_]; [contradiction|].
    unfold pairColumn. subst n. rewrite Nat.add_1_r. cbn [forUp].
    rewrite aget_inside by (rewrite Hvr; nia). cbn [obind].
    rewrite aget_outside by (rewrite Hvr; nia). reflexivity.
  - simpl length in Hj. cbn [app repackColumns].
    destruct (Rlt_dec (Rabs w0) EPS) as [_|N]; [|contradiction].
    destruct (realColumn n j vr rv) as [rv'|]; [|reflexivity].
    cbn [obind]. apply IH. lia.
  - simpl length in Hj. cbn [app repackColumns].
    destruct (Rlt_dec (Rabs w0) EPS) as [Y|_]; [contradiction|].
    destruct (pairColumn n j vr rv) as [rv'|]; [|reflexivity].
    cbn [obind]. apply IH. lia.
Qed.

(** X15.  If the last entry of [wi] is not real ([|wi| >= EPS]) and is
    not the partner of the entry before it, the pair branch runs on the
    last column and reads [vr[n*n]], past the end of the [n*n] entries of
    [vr]: the unpacking has no defined result, whatever the other
    arrays hold. *)
Theorem geev_unpack_unpaired_last (wr ws vr : list R) (w : R)
  (values rightVectors : list Complex) :
  let n := length (ws ++ [w]) in
  wellPaired ws -> ~ Rabs w < EPS -> length vr = (n * n)%nat ->
  geev_unpack wr (ws ++ [w]) vr values rightVectors = None.
Proof.
  intros n Hwp Hw Hvr. unfold geev_unpack. fold n.
  destruct (geev_values n wr (ws ++ [w]) values) as [values'|];
    [|reflexivity].
  cbn [obind].
  rewrite (repackColumns_unpaired n vr w Hvr Hw ws Hwp 0 rightVectors).
  - reflexivity.
  - unfold n. rewrite length_app. simpl. lia.
Qed.

Lemma geev_unpack_unpaired_last_witness :
  geev_unpack [1] ([] ++ [1]) [1] [complex 0 0] [complex 0 0] = None.
Proof.
  refine (geev_unpack_unpaired_last [1] [] [1] 1 [complex 0 0]
            [complex 0 0] _ _ _).
  - apply wp_nil.
  - unfold EPS. rewrite Rabs_R1. lra.
  - reflexivity.
Defined.
